(** * odecromancy: dead-code detection for Odoo models

    A shallow embedding of the usage-inference engine:
    - [odecromancy/models.py]   (FieldValue, MethodValue, ModelValue),
    - [odecromancy/visitors.py] (FieldCollector, the context-tracking walker),
    - [core.py]                 (OdooAnalyzer: declaration pass, relationship
                                 resolution, usage marking, report),
    and of the parts of the older scripts [field_value.py],
    [ast_function_visitor.py] and [find_dead_code.py] that differ from them.

    Conventions.
    - Python exceptions are explicit: a function that can raise returns a
      [result].  Unbounded Python recursion is modelled with a [fuel]
      argument standing for the interpreter's remaining recursion depth;
      running out of it is [RecursionError].
    - A Python [dict] is an insertion-ordered association list ([dict V]):
      the code iterates over its dictionaries (report, resolution pass,
      parent lookup), so the order is observable.
    - Model objects are shared by reference between the registry and the
      [inherited_models] / [child_models] dictionaries of other models.  After
      step 1 of [_fill_definitions_map] every such reference is the registry
      object stored under the same key, so the registry is the store and the
      two dictionaries are kept as their key lists. *)

From Stdlib Require Import String Ascii List ZArith Lia Bool DecimalString.
Import ListNotations.
Open Scope string_scope.
Open Scope Z_scope.
Set Warnings "-register-all".

(** ** Exceptions *)

Inductive exn : Type :=
| KeyboardInterrupt
| RecursionError
| IndexError
| KeyError (key : string)
| TypeError (msg : string)
| AttributeError (msg : string).

(** [isinstance(e, Exception)]: what [except Exception] catches. *)
Definition is_Exception (e : exn) : bool :=
  match e with
  | KeyboardInterrupt => false
  | _ => true
  end.

Inductive result (A : Type) : Type :=
| Ok (a : A)
| Raise (e : exn).

Arguments Ok {A} a.
Arguments Raise {A} e.

Definition bind {A B : Type} (r : result A) (k : A -> result B) : result B :=
  match r with
  | Ok a => k a
  | Raise e => Raise e
  end.

Notation "x <- c1 ;; c2" := (bind c1 (fun x => c2))
  (at level 100, c1 at next level, right associativity).

Section Loops.
Context {A S B : Type}.

(** [for x in xs: st = body(x, st)] where the body can raise. *)
Fixpoint for_each (body : A -> S -> result S) (xs : list A) (st : S)
  {struct xs} : result S :=
  match xs with
  | [] => Ok st
  | x :: xs' => st' <- body x st ;; for_each body xs' st'
  end.

(** [for x in xs: r = f(x); if r: return r] followed by [return None]. *)
Fixpoint first_found (f : A -> result (option B)) (xs : list A) {struct xs}
  : result (option B) :=
  match xs with
  | [] => Ok None
  | x :: xs' =>
      r <- f x ;;
      match r with
      | Some b => Ok (Some b)
      | None => first_found f xs'
      end
  end.
End Loops.

(** ** Insertion-ordered dictionaries with string keys *)

Definition dict (V : Type) : Type := list (string * V).

Section Dict.
Context {V : Type}.

(** [d.get(k)] *)
Fixpoint dget (k : string) (d : dict V) : option V :=
  match d with
  | [] => None
  | (k', v) :: d' => if String.eqb k k' then Some v else dget k d'
  end.

(** [k in d] *)
Definition dmem (k : string) (d : dict V) : bool :=
  match dget k d with Some _ => true | None => false end.

(** [d[k] = v]: an existing key keeps its position, a new one goes last. *)
Fixpoint dset (k : string) (v : V) (d : dict V) : dict V :=
  match d with
  | [] => [(k, v)]
  | (k', v') :: d' =>
      if String.eqb k k' then (k', v) :: d' else (k', v') :: dset k v d'
  end.

Definition dkeys (d : dict V) : list string := map fst d.
Definition dvalues (d : dict V) : list V := map snd d.

(** [bool(d)] *)
Definition dnonempty (d : dict V) : bool :=
  match d with [] => false | _ => true end.
End Dict.

(** Membership in a list of strings, [x in (..., ...)]. *)
Definition str_in (x : string) (xs : list string) : bool :=
  existsb (String.eqb x) xs.

(** [s.add(x)] for a set kept as a duplicate-free list. *)
Definition set_add (x : string) (s : list string) : list string :=
  if str_in x s then s else s ++ [x].

(** Truthiness of an optional string ([None] and [""] are falsy). *)
Definition truthy (o : option string) : bool :=
  match o with
  | Some s => negb (String.eqb s "")
  | None => false
  end.

(** ["." in s] *)
Fixpoint contains_dot (s : string) : bool :=
  match s with
  | EmptyString => false
  | String c s' => if Ascii.eqb c "."%char then true else contains_dot s'
  end.

(** ** Syntax trees (Python's [ast] module, as far as the walker looks) *)

Module ast.

(** The [value] of an [ast.Constant]. *)
Inductive constant : Type :=
| CStr (s : string)
| COther.

(** Expression nodes.  [comprehension] is the [for target in iter if ...]
    clause of a comprehension; [Comp] stands for [ListComp], [SetComp] and
    [GeneratorExp], which share one handler.  [Other] is any node class
    without a [visit_*] method of its own (BinOp, Compare, Dict, Tuple,
    DictComp, ...), with its child nodes in field order.  A [keyword] node
    is represented by its value, the only child [generic_visit] reaches. *)
Inductive expr : Type :=
| Name (id : string)
| Constant (value : constant)
| Attribute (value : expr) (attr : string)
| Subscript (value : expr) (slice : expr)
| Call (func : expr) (args : list expr) (keywords : list expr)
| Lambda (posonlyargs args : list string) (kw_defaults defaults : list expr)
         (body : expr)
| Comp (elt : expr) (generators : list expr)
| comprehension (target iter : expr) (ifs : list expr)
| Other (children : list expr).

(** Statement nodes.  [OtherStmt] is any statement class without a handler
    (If, While, Return, With, nested FunctionDef, ...), its children in field
    order, an expression child [e] given as [Expr e]. *)
Inductive stmt : Type :=
| Assign (targets : list expr) (value : expr)
| For (target iter : expr) (body orelse : list stmt)
| Expr (value : expr)
| OtherStmt (children : list stmt).

Record FunctionDef : Type := mkFunctionDef {
  name : string;
  lineno : nat;
  arg_defaults : list expr;
  body : list stmt;
  decorator_list : list expr;
  returns : option expr
}.

End ast.

(** ** odecromancy/models.py *)

(** The attribute bag of a field ([**kwargs]): the code only ever stores the
    four keys below; an absent key and a falsy value are not told apart by
    any reader ([attributes.get(k)] is only tested for truth). *)
Record attrs : Type := mkAttrs {
  relational : bool;
  comodel_name : option string;
  inverse_name : option string;
  related : option string
}.

Definition no_attrs : attrs := mkAttrs false None None None.

Module FieldValue.

Record t : Type := mk {
  name : string;
  attributes : attrs;
  unused_percentage : Z;
  definition_paths : list string
}.

(** [__init__] *)
Definition init (field_name : string) (paths : list string) (a : attrs) : t :=
  mk field_name a 100 paths.

Definition set_unused_percentage (f : t) (v : Z) : t :=
  mk (name f) (attributes f) v (definition_paths f).

Definition set_attributes (f : t) (a : attrs) : t :=
  mk (name f) a (unused_percentage f) (definition_paths f).

(** [self.unused_percentage -= 25] *)
Definition reduce_certainty (f : t) : t :=
  set_unused_percentage f (unused_percentage f - 25).

(** [__ior__]: truthy attributes of [other] overwrite, paths are united. *)
Definition ior (self other : t) : t :=
  let a := attributes self in
  let b := attributes other in
  mk (name self)
     (mkAttrs (if relational b then true else relational a)
              (if truthy (comodel_name b) then comodel_name b else comodel_name a)
              (if truthy (inverse_name b) then inverse_name b else inverse_name a)
              (if truthy (related b) then related b else related a))
     (unused_percentage self)
     (fold_left (fun s p => set_add p s) (definition_paths other)
                (definition_paths self)).

End FieldValue.

Module MethodValue.

Record t : Type := mk {
  name : string;
  function_definitions : list ast.FunctionDef;
  unused_percentage : Z;
  definition_paths : list string
}.

Definition init (method_name : string) (ast_function : ast.FunctionDef)
  (paths : list string) : t :=
  mk method_name [ast_function] 100 paths.

Definition set_unused_percentage (m : t) (v : Z) : t :=
  mk (name m) (function_definitions m) v (definition_paths m).

Definition reduce_certainty (m : t) : t :=
  set_unused_percentage m (unused_percentage m - 25).

(** [__ior__] on two methods (the [isinstance] test is in [py_ior] below). *)
Definition ior (self other : t) : t :=
  mk (name self)
     (function_definitions self ++ function_definitions other)
     (Z.min (unused_percentage self) (unused_percentage other))
     (fold_left (fun s p => set_add p s) (definition_paths other)
                (definition_paths self)).

End MethodValue.

Module ModelValue.

Record t : Type := mk {
  name : string;
  inherited_models : list string;
  child_models : list string;
  fields : dict FieldValue.t;
  methods : dict MethodValue.t
}.

Definition init (model_name : string) (inherited : list string) : t :=
  mk model_name inherited [] [] [].

Definition set_fields (m : t) (fs : dict FieldValue.t) : t :=
  mk (name m) (inherited_models m) (child_models m) fs (methods m).

Definition set_methods (m : t) (ms : dict MethodValue.t) : t :=
  mk (name m) (inherited_models m) (child_models m) (fields m) ms.

Definition set_child_models (m : t) (cs : list string) : t :=
  mk (name m) (inherited_models m) cs (fields m) (methods m).

(** One round of the first loop of [__ior__]. *)
Definition merge_field (fs : dict FieldValue.t) (kv : string * FieldValue.t)
  : dict FieldValue.t :=
  match dget (fst kv) fs with
  | Some mine => dset (fst kv) (FieldValue.ior mine (snd kv)) fs
  | None => dset (fst kv) (snd kv) fs
  end.

(** One round of the second loop of [__ior__]. *)
Definition merge_method (ms : dict MethodValue.t) (kv : string * MethodValue.t)
  : dict MethodValue.t :=
  match dget (fst kv) ms with
  | Some mine => dset (fst kv) (MethodValue.ior mine (snd kv)) ms
  | None => dset (fst kv) (snd kv) ms
  end.

(** [dict.update] on the key lists of the model references. *)
Definition update_keys (mine theirs : list string) : list string :=
  fold_left (fun s k => set_add k s) theirs mine.

(** [__ior__] on two models. *)
Definition ior (self other : t) : t :=
  mk (name self)
     (update_keys (inherited_models self) (inherited_models other))
     (update_keys (child_models self) (child_models other))
     (fold_left merge_field (fields other) (fields self))
     (fold_left merge_method (methods other) (methods self)).

End ModelValue.

(** The registry, [definitions_map]. *)
Definition registry : Type := dict ModelValue.t.

Definition none_has_no (attribute : string) : exn :=
  AttributeError ("'NoneType' object has no attribute '" ++ attribute ++ "'").

(** [max(score - confidence, 0)] *)
Definition lower (score confidence : Z) : Z := Z.max (score - confidence) 0.

(** [reg[model].fields[field].unused_percentage = v] for an existing field. *)
Definition set_field_score (reg : registry) (model field : string) (v : Z)
  : registry :=
  match dget model reg with
  | Some m =>
      match dget field (ModelValue.fields m) with
      | Some f =>
          dset model
            (ModelValue.set_fields m
               (dset field (FieldValue.set_unused_percentage f v)
                     (ModelValue.fields m)))
            reg
      | None => reg
      end
  | None => reg
  end.

Definition set_method_score (reg : registry) (model method : string) (v : Z)
  : registry :=
  match dget model reg with
  | Some m =>
      match dget method (ModelValue.methods m) with
      | Some f =>
          dset model
            (ModelValue.set_methods m
               (dset method (MethodValue.set_unused_percentage f v)
                     (ModelValue.methods m)))
            reg
      | None => reg
      end
  | None => reg
  end.

(** Reading a score, for statements. *)
Definition field_score (reg : registry) (model field : string) : option Z :=
  match dget model reg with
  | Some m => option_map FieldValue.unused_percentage
                (dget field (ModelValue.fields m))
  | None => None
  end.

Definition method_score (reg : registry) (model method : string) : option Z :=
  match dget model reg with
  | Some m => option_map MethodValue.unused_percentage
                (dget method (ModelValue.methods m))
  | None => None
  end.

(** [ModelValue.field_used], called on the registry object [self]. *)
Definition field_used (reg : registry) (self field_name : string)
  (confidence : Z) : result registry :=
  match dget self reg with
  | None => Raise (none_has_no "field_used")
  | Some m =>
      match dget field_name (ModelValue.fields m) with
      | Some f =>
          Ok (set_field_score reg self field_name
                (lower (FieldValue.unused_percentage f) confidence))
      | None =>
          for_each
            (fun inherited reg =>
               match dget inherited reg with
               | None => Raise (none_has_no "fields")
               | Some p =>
                   match dget field_name (ModelValue.fields p) with
                   | Some f =>
                       Ok (set_field_score reg inherited field_name
                             (lower (FieldValue.unused_percentage f) confidence))
                   | None => Ok reg
                   end
               end)
            (ModelValue.inherited_models m) reg
      end
  end.

Definition field_used_in_view (reg : registry) (self field_name : string)
  : result registry :=
  field_used reg self field_name 100.

Definition field_used_multi (reg : registry) (self : string)
  (fields : list string) (confidence : Z) : result registry :=
  for_each (fun field reg => field_used reg self field confidence) fields reg.

(** [ModelValue.method_used_child]; [fuel] is the recursion depth left. *)
Fixpoint method_used_child (fuel : nat) (reg : registry)
  (self method_name : string) : result registry :=
  match fuel with
  | O => Raise RecursionError
  | S fuel' =>
      match dget self reg with
      | None => Raise (none_has_no "method_used_child")
      | Some m =>
          for_each
            (fun child reg =>
               match dget child reg with
               | None => Raise (none_has_no "methods")
               | Some c =>
                   method_used_child fuel'
                     (if dmem method_name (ModelValue.methods c)
                      then set_method_score reg child method_name 0
                      else reg)
                     child method_name
               end)
            (ModelValue.child_models m) reg
      end
  end.

(** [ModelValue.method_used] *)
Definition method_used (fuel : nat) (reg : registry) (self method_name : string)
  (confidence : Z) : result registry :=
  match dget self reg with
  | None => Raise (none_has_no "method_used")
  | Some m =>
      match dget method_name (ModelValue.methods m) with
      | Some f =>
          method_used_child fuel
            (set_method_score reg self method_name
               (lower (MethodValue.unused_percentage f) confidence))
            self method_name
      | None =>
          for_each
            (fun inherited reg =>
               match dget inherited reg with
               | None => Raise (none_has_no "methods")
               | Some p =>
                   match dget method_name (ModelValue.methods p) with
                   | Some f =>
                       Ok (set_method_score reg inherited method_name
                             (lower (MethodValue.unused_percentage f) confidence))
                   | None => Ok reg
                   end
               end)
            (ModelValue.inherited_models m) reg
      end
  end.

(** ** odecromancy/visitors.py *)

(** The binding stack is kept top first: [append] is [cons], [stack[-1]] is
    the head, [pop()] is the tail, and [reversed(stack)] is the list itself. *)
Record FieldCollector : Type := mkFieldCollector {
  used_fields_by_model : dict (list string);
  used_methods_by_model : dict (list string);
  model_context_stack : list (string * string)
}.

Definition set_stack (self : FieldCollector) (stack : list (string * string))
  : FieldCollector :=
  mkFieldCollector (used_fields_by_model self) (used_methods_by_model self) stack.

Definition push (binding : string * string) (self : FieldCollector)
  : FieldCollector :=
  set_stack self (binding :: model_context_stack self).

(** [self.model_context_stack.pop()] *)
Definition pop (self : FieldCollector) : result FieldCollector :=
  match model_context_stack self with
  | [] => Raise IndexError
  | _ :: rest => Ok (set_stack self rest)
  end.

(** [while len(stack) > size: stack.pop()] *)
Definition unwind_to (size : nat) (self : FieldCollector) : FieldCollector :=
  set_stack self
    (skipn (length (model_context_stack self) - size) (model_context_stack self)).

(** The closing loop of [visit_For], which stops at a ["self"] binding. *)
Fixpoint unwind_until_self (size : nat) (stack : list (string * string))
  : list (string * string) :=
  match stack with
  | [] => []
  | (model, obj) :: rest =>
      if (size <? length stack)%nat
      then if String.eqb obj "self" then stack else unwind_until_self size rest
      else stack
  end.

(** [__init__]: [default_context_stack + [(current_model_name, "self")]]. *)
Definition FieldCollector_init (current_model_name : string)
  (default_context_stack : list (string * string)) : FieldCollector :=
  mkFieldCollector [] []
    ((current_model_name, "self") :: rev default_context_stack).

(** [defaultdict(set)[model].add(x)] *)
Definition track (model x : string) (used : dict (list string))
  : dict (list string) :=
  dset model
    (set_add x (match dget model used with Some s => s | None => [] end)) used.

Definition _track_field_usage (model_name field_name : string)
  (self : FieldCollector) : FieldCollector :=
  mkFieldCollector (track model_name field_name (used_fields_by_model self))
    (used_methods_by_model self) (model_context_stack self).

Definition _track_method_usage (model_name method_name : string)
  (self : FieldCollector) : FieldCollector :=
  mkFieldCollector (used_fields_by_model self)
    (track model_name method_name (used_methods_by_model self))
    (model_context_stack self).

(** [x in self.used_fields_by_model[model]] *)
Definition field_tracked (self : FieldCollector) (model x : string) : Prop :=
  exists s, dget model (used_fields_by_model self) = Some s /\ In x s.

Definition method_tracked (self : FieldCollector) (model x : string) : Prop :=
  exists s, dget model (used_methods_by_model self) = Some s /\ In x s.

(** [_get_field_info]: own declarations first, then the named parents depth
    first.  [fuel] is the recursion depth left. *)
Fixpoint _get_field_info (fuel : nat) (definitions_map : registry)
  (model_name name : string) : result (option FieldValue.t) :=
  match fuel with
  | O => Raise RecursionError
  | S fuel' =>
      match dget model_name definitions_map with
      | None => Ok None
      | Some model_value =>
          match dget name (ModelValue.fields model_value) with
          | Some f => Ok (Some f)
          | None =>
              first_found
                (fun inherited => _get_field_info fuel' definitions_map inherited name)
                (ModelValue.inherited_models model_value)
          end
      end
  end.

Fixpoint _get_method_info (fuel : nat) (definitions_map : registry)
  (model_name name : string) : result (option MethodValue.t) :=
  match fuel with
  | O => Raise RecursionError
  | S fuel' =>
      match dget model_name definitions_map with
      | None => Ok None
      | Some model_value =>
          match dget name (ModelValue.methods model_value) with
          | Some m => Ok (Some m)
          | None =>
              first_found
                (fun inherited => _get_method_info fuel' definitions_map inherited name)
                (ModelValue.inherited_models model_value)
          end
      end
  end.

(** [_get_context_for_name]: the innermost binding of [name]. *)
Fixpoint _get_context_for_name (stack : list (string * string)) (name : string)
  : option string :=
  match stack with
  | [] => None
  | (model_name, obj_name) :: rest =>
      if String.eqb obj_name name then Some model_name
      else _get_context_for_name rest name
  end.

(** [field_value.attributes["comodel_name"]] when
    [field_value.attributes.get("comodel_name")] is truthy. *)
Definition comodel_of (f : FieldValue.t) : option string :=
  if truthy (comodel_name (FieldValue.attributes f))
  then comodel_name (FieldValue.attributes f) else None.

Definition transient_markers : list string := ["mapped_call"; "env_call"].
Definition bulk_operations : list string :=
  ["filtered"; "filtered_domain"; "mapped"; "search"].

Section Visitor.
(** [limit] is the recursion depth the interpreter leaves to the lookups. *)
Variable limit : nat.
Variable definitions_map : registry.

(** The part of a field hit common to both branches of [visit_Attribute]:
    record the usage and chain into a relational field's target model. *)
Definition field_hit (model_name obj_name name : string) (f : FieldValue.t)
  (self : FieldCollector) : FieldCollector :=
  let self := _track_field_usage model_name name self in
  match comodel_of f with
  | Some comodel => push (comodel, obj_name ++ "." ++ name) self
  | None => self
  end.

(** [visit_Attribute], branch [isinstance(node.value, ast.Name)]. *)
Definition attribute_of_name (obj_name name : string) (self : FieldCollector)
  : result FieldCollector :=
  match _get_context_for_name (model_context_stack self) obj_name with
  | Some model_name =>
      if negb (String.eqb model_name "") then
        field_value <- _get_field_info limit definitions_map model_name name ;;
        method_value <- _get_method_info limit definitions_map model_name name ;;
        match field_value, method_value with
        | Some f, _ => Ok (field_hit model_name obj_name name f self)
        | None, Some _ => Ok (_track_method_usage model_name name self)
        | None, None => Ok self
        end
      else Ok self
  | None => Ok self
  end.

(** [visit_Attribute], branch [isinstance(node.value, (Attribute, Call))],
    after [self.visit(node.value)]. *)
Definition attribute_of_chain (name : string) (self : FieldCollector)
  : result FieldCollector :=
  match model_context_stack self with
  | (prev_model_name, prev_obj_name) :: _ :: _ =>
      field_value <- _get_field_info limit definitions_map prev_model_name name ;;
      method_value <- _get_method_info limit definitions_map prev_model_name name ;;
      match field_value, method_value with
      | Some f, _ =>
          let self := field_hit prev_model_name prev_obj_name name f self in
          let should_pop :=
            negb (truthy (comodel_name (FieldValue.attributes f)))
            && (String.prefix "self." prev_obj_name || contains_dot prev_obj_name)
            && negb (str_in prev_obj_name transient_markers) in
          if should_pop then pop self else Ok self
      | None, Some _ => Ok (_track_method_usage prev_model_name name self)
      | None, None => Ok self
      end
  | _ => Ok self
  end.

(** The test of [visit_Subscript]: [self.env[<str>]]. *)
Definition env_lookup (value slice : ast.expr) : option string :=
  match value, slice with
  | ast.Attribute (ast.Name "self") "env", ast.Constant (ast.CStr model) =>
      Some model
  | _, _ => None
  end.

(** [_handle_orm_context_change] *)
Definition _handle_orm_context_change (args : list ast.expr)
  (model_name method_name : string) (self : FieldCollector)
  : result FieldCollector :=
  if str_in method_name ["mapped"; "filtered"; "filtered_domain"] then
    match args with
    | ast.Constant (ast.CStr field_name_str) :: _ =>
        let self := _track_field_usage model_name field_name_str self in
        if String.eqb method_name "mapped" then
          field_value <-
            _get_field_info limit definitions_map model_name field_name_str ;;
          match field_value with
          | Some f =>
              match comodel_of f with
              | Some new_model => Ok (push (new_model, "mapped_call") self)
              | None => Ok self
              end
          | None => Ok self
          end
        else Ok self
    | _ => Ok self
    end
  else Ok self.

(** [visit_Call] for [obj.method_name(args)], after [self.visit(obj)] and
    before [generic_visit]. *)
Definition call_of_method (method_name : string) (args : list ast.expr)
  (self : FieldCollector) : result FieldCollector :=
  match model_context_stack self with
  | [] => Ok self
  | (model_name, _) :: _ =>
      method_value <- _get_method_info limit definitions_map model_name method_name ;;
      let self :=
        match method_value with
        | Some _ => _track_method_usage model_name method_name self
        | None => self
        end in
      self <-
        (if str_in method_name bulk_operations
         then _handle_orm_context_change args model_name method_name self
         else Ok self) ;;
      match model_context_stack self with
      | (_, obj_name) :: _ =>
          if str_in obj_name transient_markers then pop self else Ok self
      | [] => Ok self
      end
  end.

(** The parameter [visit_Lambda] binds. *)
Definition lambda_arg_name (posonlyargs args : list string) : option string :=
  match posonlyargs, args with
  | a :: _, _ => Some a
  | [], a :: _ => Some a
  | [], [] => None
  end.

(** [visit] on expression nodes: [ast.NodeVisitor] dispatches on the node
    class and falls back to [generic_visit], which visits the children. *)
Fixpoint visit (node : ast.expr) (self : FieldCollector) {struct node}
  : result FieldCollector :=
  let visit_each := for_each visit in
  match node with
  | ast.Name _ => Ok self
  | ast.Constant _ => Ok self
  | ast.Attribute value attr =>
      self <-
        match value with
        | ast.Name obj_name => attribute_of_name obj_name attr self
        | ast.Attribute _ _ | ast.Call _ _ _ =>
            self <- visit value self ;; attribute_of_chain attr self
        | _ => Ok self
        end ;;
      visit value self
  | ast.Subscript value slice =>
      let self :=
        match env_lookup value slice with
        | Some model => push (model, "env_call") self
        | None => self
        end in
      self <- visit value self ;; visit slice self
  | ast.Lambda posonlyargs args kw_defaults defaults body =>
      let generic_visit :=
        self <- visit_each kw_defaults self ;;
        self <- visit_each defaults self ;;
        visit body self in
      match model_context_stack self with
      | [] => generic_visit
      | (model_name, _) :: _ =>
          match lambda_arg_name posonlyargs args with
          | Some arg =>
              if negb (String.eqb arg "") then
                self <- visit body (push (model_name, arg) self) ;; pop self
              else generic_visit
          | None => generic_visit
          end
      end
  | ast.Call func args keywords =>
      self <-
        match func with
        | ast.Attribute obj method_name =>
            self <- visit obj self ;; call_of_method method_name args self
        | _ => Ok self
        end ;;
      self <- visit func self ;;
      self <- visit_each args self ;;
      visit_each keywords self
  | ast.Comp elt generators =>
      let original_stack_size := length (model_context_stack self) in
      self <- visit elt self ;;
      self <- visit_each generators self ;;
      Ok (unwind_to original_stack_size self)
  | ast.comprehension target iter ifs =>
      self <- visit iter self ;;
      match model_context_stack self, target with
      | (iter_model, _) :: _, ast.Name target_name =>
          visit_each ifs (push (iter_model, target_name) self)
      | _, _ => Ok self
      end
  | ast.Other children => visit_each children self
  end.

(** [for n in nodes: self.visit(n)] *)
Definition visit_each (nodes : list ast.expr) (self : FieldCollector)
  : result FieldCollector :=
  for_each visit nodes self.

(** The model [visit_Assign] binds the target to: the value is
    [<x>.env[<str>].search/browse/create(...)]. *)
Definition assigned_model (value : ast.expr) : option string :=
  match value with
  | ast.Call (ast.Attribute model_accessor attr) _ _ =>
      if str_in attr ["search"; "browse"; "create"] then
        match model_accessor with
        | ast.Subscript (ast.Attribute _ "env") (ast.Constant (ast.CStr model)) =>
            Some model
        | _ => None
        end
      else None
  | _ => None
  end.

(** The last [ast.Name] among the targets of an assignment. *)
Definition assign_target_name (targets : list ast.expr) : option string :=
  fold_left
    (fun acc target =>
       match target with ast.Name id => Some id | _ => acc end)
    targets None.

(** [visit] on statement nodes. *)
Fixpoint visit_stmt (node : ast.stmt) (self : FieldCollector) {struct node}
  : result FieldCollector :=
  let visit_stmts := for_each visit_stmt in
  match node with
  | ast.Assign targets value =>
      self <- visit value self ;;
      match assign_target_name targets, assigned_model value with
      | Some target_name, Some model =>
          if negb (String.eqb target_name "")
          then Ok (push (model, target_name) self) else Ok self
      | _, _ => Ok self
      end
  | ast.For target iter body orelse =>
      let stack_size_before_iter := length (model_context_stack self) in
      self <- visit iter self ;;
      self <-
        match model_context_stack self, target with
        | (iter_model, _) :: _, ast.Name target_id =>
            self <- visit_stmts body (push (iter_model, target_id) self) ;;
            pop self
        | _, _ => Ok self
        end ;;
      visit_stmts orelse
        (set_stack self
           (unwind_until_self stack_size_before_iter (model_context_stack self)))
  | ast.Expr value => visit value self
  | ast.OtherStmt children => visit_stmts children self
  end.

(** [fc.visit(func)] for a function definition: [generic_visit] goes through
    the argument defaults, the body, the decorators and the annotation. *)
Definition visit_FunctionDef (func : ast.FunctionDef) (self : FieldCollector)
  : result FieldCollector :=
  self <- visit_each (ast.arg_defaults func) self ;;
  self <- for_each visit_stmt (ast.body func) self ;;
  self <- visit_each (ast.decorator_list func) self ;;
  match ast.returns func with
  | Some annotation => visit annotation self
  | None => Ok self
  end.

End Visitor.

(** [sorted(list(xs))] on strings (insertion sort; Python orders strings by
    code point, which on their UTF-8 bytes is the byte-wise order). *)
Fixpoint insert_sorted (x : string) (xs : list string) : list string :=
  match xs with
  | [] => [x]
  | y :: ys => if String.leb x y then x :: xs else y :: insert_sorted x ys
  end.

Definition sorted (xs : list string) : list string :=
  fold_right insert_sorted [] xs.

(** [get_results]: per model, the sorted lists of used fields and methods;
    models appear in the order in which the two loops first meet them. *)
Record usage : Type := mkUsage {
  usage_fields : list string;
  usage_methods : list string
}.

Definition get_results (self : FieldCollector) : dict usage :=
  let results :=
    fold_left
      (fun results kv =>
         let u := match dget (fst kv) results with
                  | Some u => u | None => mkUsage [] [] end in
         dset (fst kv) (mkUsage (sorted (snd kv)) (usage_methods u)) results)
      (used_fields_by_model self) [] in
  fold_left
    (fun results kv =>
       let u := match dget (fst kv) results with
                | Some u => u | None => mkUsage [] [] end in
       dset (fst kv) (mkUsage (usage_fields u) (sorted (snd kv))) results)
    (used_methods_by_model self) results.

(** ** core.py: OdooAnalyzer *)

(** [str.split(sep)] for a one-character separator. *)
Fixpoint split_on (sep : ascii) (s : string) : list string :=
  match s with
  | EmptyString => [EmptyString]
  | String c s' =>
      if Ascii.eqb c sep then EmptyString :: split_on sep s'
      else match split_on sep s' with
           | [] => [String c EmptyString]
           | part :: parts => String c part :: parts
           end
  end.

(** [definitions_map.get(name)] as an object reference: the key when the
    registry has it, [None] otherwise. *)
Definition ref_of (reg : registry) (name : option string) : option string :=
  match name with
  | Some n => if dmem n reg then Some n else None
  | None => None
  end.

(** [self.attribute] of the object behind a reference. *)
Definition name_of (reg : registry) (ref : string) : result string :=
  match dget ref reg with
  | Some m => Ok (ModelValue.name m)
  | None => Raise (none_has_no "name")
  end.

Section Analyzer.
Variable limit : nat.

(** [_get_field_definition] and [_get_method_definition] are the analyzer's
    copies of the collector's two lookups. *)
Definition _get_field_definition := _get_field_info limit.
Definition _get_method_definition := _get_method_info limit.

(** The [for part in parts] loop of [_get_comodel_from_related_path] and
    its final [return]; [recurse] is the function itself, one call deeper.
    The registry is returned as the calls to [field_used] left it. *)
Section RelatedLoop.
Variable recurse :
  registry -> option string -> list string -> result (registry * option string).

Fixpoint related_loop (parts : list string) (reg : registry)
  (current_model : option string) {struct parts}
  : result (registry * option string) :=
  match parts with
  | [] =>
      match current_model with
      | Some ref => n <- name_of reg ref ;; Ok (reg, Some n)
      | None => Ok (reg, None)
      end
  | part :: rest =>
      match current_model with
      | None => Ok (reg, None)
      | Some ref =>
          reg <- field_used reg ref part 100 ;;
          current_name <- name_of reg ref ;;
          field_def <- _get_field_definition reg current_name part ;;
          match field_def with
          | None => Ok (reg, None)
          | Some fd =>
              match comodel_of fd with
              | Some comodel =>
                  related_loop rest reg (ref_of reg (Some comodel))
              | None =>
                  if truthy (related (FieldValue.attributes fd)) then
                    sub <-
                      recurse reg current_model
                        (split_on "."%char
                           (match related (FieldValue.attributes fd) with
                            | Some path => path | None => "" end)) ;;
                    related_loop rest (fst sub) (ref_of (fst sub) (snd sub))
                  else Ok (reg, None)
              end
          end
      end
  end.
End RelatedLoop.

(** [_get_comodel_from_related_path]; [fuel] bounds the recursion through
    related fields of related fields. *)
Fixpoint _get_comodel_from_related_path (fuel : nat) (reg : registry)
  (model : option string) (parts : list string) {struct fuel}
  : result (registry * option string) :=
  match fuel with
  | O => Raise RecursionError
  | S fuel' =>
      related_loop (_get_comodel_from_related_path fuel') parts reg model
  end.

(** [reg[model].fields[field].attributes["comodel_name"] = value] *)
Definition set_field_comodel (reg : registry) (model field : string)
  (value : option string) : registry :=
  match dget model reg with
  | Some m =>
      match dget field (ModelValue.fields m) with
      | Some f =>
          let a := FieldValue.attributes f in
          dset model
            (ModelValue.set_fields m
               (dset field
                  (FieldValue.set_attributes f
                     (mkAttrs (relational a) value (inverse_name a) (related a)))
                  (ModelValue.fields m)))
            reg
      | None => reg
      end
  | None => reg
  end.

(** [parent_model.child_models[model_name] = model] *)
Definition add_child (reg : registry) (parent child : string) : registry :=
  match dget parent reg with
  | Some p =>
      dset parent
        (ModelValue.set_child_models p (set_add child (ModelValue.child_models p)))
        reg
  | None => reg
  end.

(** Step 1 of [_fill_definitions_map].  Its first loop re-points every
    [inherited_models] entry at the registry object of that name, which the
    store already is; the second registers each model with its parents. *)
Definition resolve_children (reg : registry) : registry :=
  fold_left
    (fun reg model_name =>
       match dget model_name reg with
       | Some model =>
           fold_left (fun reg parent => add_child reg parent model_name)
             (ModelValue.inherited_models model) reg
       | None => reg
       end)
    (dkeys reg) reg.

(** "Fix relational fields inheriting comodel": the first parent in whose
    chain the field has a target model gives it. *)
Definition inherit_comodel (reg : registry) (model field field_name : string)
  : result registry :=
  match dget model reg with
  | None => Ok reg
  | Some m =>
      found <-
        first_found
          (fun parent =>
             parent_name <- name_of reg parent ;;
             parent_field <- _get_field_definition reg parent_name field_name ;;
             Ok (match parent_field with
                 | Some pf => comodel_of pf
                 | None => None
                 end))
          (ModelValue.inherited_models m) ;;
      match found with
      | Some comodel => Ok (set_field_comodel reg model field (Some comodel))
      | None => Ok reg
      end
  end.

(** The body of the field loop of step 2, for the field object
    [reg[model].fields[field]]. *)
Definition resolve_field (model field : string) (reg : registry)
  : result registry :=
  match dget model reg with
  | None => Ok reg
  | Some m =>
      match dget field (ModelValue.fields m) with
      | None => Ok reg
      | Some f =>
          let a := FieldValue.attributes f in
          reg <-
            (if relational a && negb (truthy (comodel_name a))
             then inherit_comodel reg model field (FieldValue.name f)
             else Ok reg) ;;
          match dget model reg with
          | None => Ok reg
          | Some m =>
              match dget field (ModelValue.fields m) with
              | None => Ok reg
              | Some f =>
                  let a := FieldValue.attributes f in
                  if truthy (related a) && negb (truthy (comodel_name a)) then
                    sub <-
                      _get_comodel_from_related_path limit reg (Some model)
                        (split_on "."%char
                           (match related a with Some p => p | None => "" end)) ;;
                    Ok (set_field_comodel (fst sub) model field (snd sub))
                  else Ok reg
              end
          end
      end
  end.

(** [_fill_definitions_map] *)
Definition _fill_definitions_map (reg : registry) : result registry :=
  let reg := resolve_children reg in
  for_each
    (fun model_name reg =>
       match dget model_name reg with
       | Some model =>
           for_each (resolve_field model_name)
             (dkeys (ModelValue.fields model)) reg
       | None => Ok reg
       end)
    (dkeys reg) reg.

(** [_mark_usage_from_collector] *)
Definition _mark_usage_from_collector (results : dict usage) (reg : registry)
  : result registry :=
  for_each
    (fun kv reg =>
       if dmem (fst kv) reg then
         reg <- for_each (fun f reg => field_used reg (fst kv) f 100)
                  (usage_fields (snd kv)) reg ;;
         for_each (fun m reg => method_used limit reg (fst kv) m 100)
           (usage_methods (snd kv)) reg
       else Ok reg)
    results reg.

End Analyzer.

(** *** The report pass *)

(** One block of the report: the model name and the names and definition
    paths of its fields and methods whose score is still at least 100. *)
Record report_block : Type := mkBlock {
  block_model : string;
  block_fields : list (string * list string);
  block_methods : list (string * list string)
}.

Definition unused_fields (model : ModelValue.t) : list (string * list string) :=
  map (fun f => (FieldValue.name f, FieldValue.definition_paths f))
    (filter (fun f => 100 <=? FieldValue.unused_percentage f)
       (dvalues (ModelValue.fields model))).

Definition unused_methods (model : ModelValue.t) : list (string * list string) :=
  map (fun m => (MethodValue.name m, MethodValue.definition_paths m))
    (filter (fun m => 100 <=? MethodValue.unused_percentage m)
       (dvalues (ModelValue.methods model))).

(** [OdooAnalyzer.report] of core.py: what it logs, block by block. *)
Definition report (reg : registry) : list report_block :=
  flat_map
    (fun kv =>
       let model := snd kv in
       if negb (dnonempty (ModelValue.fields model))
          && negb (dnonempty (ModelValue.methods model))
       then []
       else
         if match unused_fields model with [] => true | _ => false end
            || match unused_methods model with [] => true | _ => false end
         then []
         else [mkBlock (fst kv) (unused_fields model) (unused_methods model)])
    reg.

(** *** The declaration pass *)

(** What the scan of a class body yields: the model name ([_name], or the
    single [_inherit] name of an in-place extension, which then has no
    parents), the names collected from [_inherit] and [_inherits] in the
    order in which the set [inherited_model_names] is iterated, and the
    results of [_find_fields] and [_find_methods]. *)
Record class_decl : Type := mkClass {
  class_name : string;
  class_inherit : list string;
  class_fields : list FieldValue.t;
  class_methods : list MethodValue.t
}.

(** The loop "Resolve inherited models from existing map" of
    [_initialize_model]: a parent equal to the model is dropped, an unknown
    parent is registered as an empty placeholder. *)
Definition _initialize_model (c : class_decl) (reg : registry)
  : registry * ModelValue.t :=
  let parents :=
    filter (fun p => negb (String.eqb p (class_name c))) (class_inherit c) in
  (fold_left
     (fun reg p => if dmem p reg then reg else dset p (ModelValue.init p []) reg)
     parents reg,
   ModelValue.init (class_name c) (ModelValue.update_keys [] parents)).

(** The body of the class loop of [_initialize_definitions_map]. *)
Definition declare_class (reg : registry) (c : class_decl) : registry :=
  let (reg, model) := _initialize_model c reg in
  let model :=
    ModelValue.set_fields model
      (fold_left (fun d f => dset (FieldValue.name f) f d) (class_fields c) []) in
  let model :=
    ModelValue.set_methods model
      (fold_left (fun d m => dset (MethodValue.name m) m d) (class_methods c) []) in
  match dget (ModelValue.name model) reg with
  | Some existing =>
      dset (ModelValue.name model) (ModelValue.ior existing model) reg
  | None => dset (ModelValue.name model) model reg
  end.

(** Phase 1 of [analyze] on classes whose scan succeeds. *)
Definition declare_classes (classes : list class_decl) (reg : registry)
  : registry :=
  fold_left declare_class classes reg.

(** The merge step under Python's dynamic typing.  The scan above only ever
    builds models holding fields and methods of the right class; the
    [isinstance] tests of the [__ior__] methods are for values of another
    class, which this module makes expressible. *)
Module Dynamic.

Inductive pyobj : Type :=
| PyNone
| PyField (f : FieldValue.t)
| PyMethod (m : MethodValue.t)
| PyModel (m : ModelValue.t).

(** [obj.name] *)
Definition py_name (obj : pyobj) : result string :=
  match obj with
  | PyNone => Raise (none_has_no "name")
  | PyField f => Ok (FieldValue.name f)
  | PyMethod m => Ok (MethodValue.name m)
  | PyModel m => Ok (ModelValue.name m)
  end.

(** [bool(obj)] *)
Definition py_truthy (obj : pyobj) : bool :=
  match obj with PyNone => false | _ => true end.

(** [self |= other], dispatched on the class of [self].  [FieldValue.__ior__]
    has no [isinstance] test and fails on [other.attributes]. *)
Definition py_ior (self other : pyobj) : result pyobj :=
  match self, other with
  | PyMethod s, PyMethod o => Ok (PyMethod (MethodValue.ior s o))
  | PyMethod _, _ =>
      Raise (TypeError "MethodValue can only be IORed with MethodValue")
  | PyModel s, PyModel o => Ok (PyModel (ModelValue.ior s o))
  | PyModel _, _ => Raise (TypeError "Only models can be IORed")
  | PyField s, PyField o => Ok (PyField (FieldValue.ior s o))
  | PyField _, PyNone => Raise (none_has_no "attributes")
  | PyField _, PyMethod _ =>
      Raise (AttributeError "'MethodValue' object has no attribute 'attributes'")
  | PyField _, PyModel _ =>
      Raise (AttributeError "'ModelValue' object has no attribute 'attributes'")
  | PyNone, _ => Raise (TypeError "unsupported operand type(s) for |=")
  end.

(** Lines 98-110 of core.py for one class whose scan gave [model]. *)
Definition declare (model : pyobj) (definitions_map : dict pyobj)
  : result (dict pyobj) :=
  if negb (py_truthy model) then Ok definitions_map
  else
    name <- py_name model ;;
    match dget name definitions_map with
    | Some existing =>
        if py_truthy existing then
          merged <- py_ior existing model ;;
          Ok (dset name merged definitions_map)
        else Ok (dset name model definitions_map)
    | None => Ok (dset name model definitions_map)
    end.

(** The class loop: the registry is updated in place, so what was merged
    before an exception stays merged. *)
Fixpoint declare_all (models : list pyobj) (definitions_map : dict pyobj)
  : dict pyobj * option exn :=
  match models with
  | [] => (definitions_map, None)
  | model :: rest =>
      match declare model definitions_map with
      | Ok definitions_map' => declare_all rest definitions_map'
      | Raise e => (definitions_map, Some e)
      end
  end.

(** The analyzer's state in phase 1: the registry and the error log. *)
Definition state : Type := dict pyobj * list (string * exn).

(** [_initialize_definitions_map] of core.py:
    [try: ... except Exception as e: logging.error(...)]. *)
Definition _initialize_definitions_map (file : string * list pyobj)
  (st : state) : result state :=
  match declare_all (snd file) (fst st) with
  | (definitions_map, None) => Ok (definitions_map, snd st)
  | (definitions_map, Some e) =>
      if is_Exception e
      then Ok (definitions_map, (snd st ++ [(fst file, e)])%list)
      else Raise e
  end.

(** Phase 1 of [analyze]. *)
Definition analyze_declarations (files : list (string * list pyobj))
  (st : state) : result state :=
  for_each _initialize_definitions_map files st.

(** [initialize_definitions_map] of find_dead_code.py has no handler. *)
Definition initialize_definitions_map (file : string * list pyobj)
  (definitions_map : dict pyobj) : result (dict pyobj) :=
  match declare_all (snd file) definitions_map with
  | (definitions_map, None) => Ok definitions_map
  | (_, Some e) => Raise e
  end.

End Dynamic.

(** ** field_value.py, the older copy of the model classes *)

Module field_value.

Module FieldValue.
Record t : Type := mk {
  name : string;
  attributes : attrs;
  unused_percentage : Z;
  definition_path : string
}.

Definition ior (self other : t) : t :=
  let a := attributes self in
  let b := attributes other in
  mk (name self)
     (mkAttrs (if relational b then true else relational a)
              (if truthy (comodel_name b) then comodel_name b else comodel_name a)
              (if truthy (inverse_name b) then inverse_name b else inverse_name a)
              (if truthy (related b) then related b else related a))
     (unused_percentage self)
     (definition_path self).
End FieldValue.

Module MethodValue.
Record t : Type := mk {
  name : string;
  function_definitions : list ast.FunctionDef;
  unused_percentage : Z;
  definition_path : string
}.

Definition ior (self other : t) : t :=
  mk (name self)
     (function_definitions self ++ function_definitions other)
     (Z.min (unused_percentage self) (unused_percentage other))
     (definition_path self).
End MethodValue.

Module ModelValue.
Record t : Type := mk {
  name : string;
  inherited_models : list string;
  child_models : list string;
  fields : dict FieldValue.t;
  methods : dict MethodValue.t
}.

Definition merge_field (fs : dict FieldValue.t) (kv : string * FieldValue.t)
  : dict FieldValue.t :=
  match dget (fst kv) fs with
  | Some mine => dset (fst kv) (FieldValue.ior mine (snd kv)) fs
  | None => dset (fst kv) (snd kv) fs
  end.

(** The second loop tests [method_name in self.fields]. *)
Definition merge_method (fs : dict FieldValue.t) (kv : string * MethodValue.t)
  (ms : dict MethodValue.t) : result (dict MethodValue.t) :=
  if dmem (fst kv) fs then
    match dget (fst kv) ms with
    | Some mine => Ok (dset (fst kv) (MethodValue.ior mine (snd kv)) ms)
    | None => Raise (KeyError (fst kv))
    end
  else Ok (dset (fst kv) (snd kv) ms).

Definition ior (self other : t) : result t :=
  let fs := fold_left merge_field (fields other) (fields self) in
  ms <- for_each (merge_method fs) (methods other) (methods self) ;;
  Ok (mk (name self)
        (fold_left (fun s k => set_add k s) (inherited_models other)
                   (inherited_models self))
        (fold_left (fun s k => set_add k s) (child_models other)
                   (child_models self))
        fs ms).
End ModelValue.

End field_value.

(** ** odecromancy/utils.py and the method scan of core.py *)

(** [get_decorator_name]: [@name], [@name(...)], [@x.name], [@x.name(...)]. *)
Fixpoint get_decorator_name (decorator_node : ast.expr) : option string :=
  match decorator_node with
  | ast.Name id => Some id
  | ast.Call func _ _ => get_decorator_name func
  | ast.Attribute _ attr => Some attr
  | _ => None
  end.

Definition common_orm_decorators : list string :=
  ["depends"; "constrains"; "onchange"; "ondelete"; "model_create_multi"].

Definition ignored_methods : list string :=
  ["create"; "write"; "default_get"; "unlink"; "copy"].

(** [str(n)] for a line number. *)
Definition str_of_nat (n : nat) : string :=
  NilEmpty.string_of_uint (Nat.to_uint n).

(** [not decorators.isdisjoint(common_orm_decorators)] *)
Definition has_orm_decorator (func_def : ast.FunctionDef) : bool :=
  existsb
    (fun d => match get_decorator_name d with
              | Some name => str_in name common_orm_decorators
              | None => false
              end)
    (ast.decorator_list func_def).

(** [func_def.name.startswith(("_compute", "_inverse", "_default"))] *)
Definition has_auto_prefix (name : string) : bool :=
  String.prefix "_compute" name || String.prefix "_inverse" name
  || String.prefix "_default" name.

(** [_find_methods] on the function definitions of a class body, in the
    order of the body. *)
Definition _find_methods (func_defs : list ast.FunctionDef) (file_path : string)
  : list MethodValue.t :=
  flat_map
    (fun func_def =>
       if has_orm_decorator func_def then []
       else if str_in (ast.name func_def) ignored_methods then []
       else if has_auto_prefix (ast.name func_def) then []
       else [MethodValue.init (ast.name func_def) func_def
               [file_path ++ ":" ++ str_of_nat (ast.lineno func_def)]])
    func_defs.

(** ** XML records (what core.py reads through [xml.etree.ElementTree]) *)

Module xml.

Inductive Element : Type :=
| mkElement (tag : string) (attrib : dict string) (text : option string)
            (children : list Element).

Definition tag (e : Element) : string :=
  match e with mkElement t _ _ _ => t end.
Definition attrib (e : Element) : dict string :=
  match e with mkElement _ a _ _ => a end.
Definition text (e : Element) : option string :=
  match e with mkElement _ _ t _ => t end.
Definition children (e : Element) : list Element :=
  match e with mkElement _ _ _ c => c end.

(** The descendants of an element in document order: what [".//"] ranges
    over. *)
Fixpoint descendants (e : Element) : list Element :=
  match e with
  | mkElement _ _ _ cs => flat_map (fun c => c :: descendants c) cs
  end.

(** [e.find(".//field[@name='<name>']")] *)
Definition find_field (name : string) (e : Element) : option Element :=
  find (fun d => String.eqb (tag d) "field"
                 && match dget "name" (attrib d) with
                    | Some n => String.eqb n name
                    | None => false
                    end)
       (descendants e).

End xml.

(** [s[n:]] *)
Fixpoint drop (n : nat) (s : string) : string :=
  match n, s with
  | O, _ => s
  | S n', String _ s' => drop n' s'
  | S _, EmptyString => EmptyString
  end.

(** [s.replace(a, b)] for one-character [a] and [b]. *)
Fixpoint replace_char (a b : ascii) (s : string) : string :=
  match s with
  | EmptyString => EmptyString
  | String c s' => String (if Ascii.eqb c a then b else c) (replace_char a b s')
  end.

(** The [ref] branch of [_get_xml_record_model]: the module qualifier goes,
    then [model_] goes and underscores become dots. *)
Definition model_of_ref (ref : string) : string :=
  let ref := if contains_dot ref
             then nth 1 (split_on "."%char ref) "" else ref in
  if String.prefix "model_" ref
  then replace_char "_"%char "."%char (drop 6 ref)
  else "".

(** [_get_xml_record_model] *)
Definition _get_xml_record_model (record_node : xml.Element) : string :=
  match match xml.find_field "model" record_node with
        | Some model_field =>
            if truthy (xml.text model_field) then xml.text model_field else None
        | None => None
        end with
  | Some model => model
  | None =>
      match xml.find_field "model_id" record_node with
      | Some model_id =>
          match dget "ref" (xml.attrib model_id) with
          | Some ref => if String.eqb ref "" then "" else model_of_ref ref
          | None => ""
          end
      | None => ""
      end
  end.

(** [_get_technical_model_name_from_xml_id] of find_dead_code.py, which does
    not test for the [model_] prefix. *)
Definition _get_technical_model_name_from_xml_id (xml_model_string : string)
  : string :=
  let model_part :=
    if contains_dot xml_model_string
    then nth 1 (split_on "."%char xml_model_string) ""
    else xml_model_string in
  replace_char "_"%char "."%char (drop 6 model_part).

(** ** Example projects *)

Module Examples.

Definition char_field (name path : string) : FieldValue.t :=
  FieldValue.init name [path] no_attrs.

Definition many2one (name path comodel : string) : FieldValue.t :=
  FieldValue.init name [path] (mkAttrs true (Some comodel) None None).

Definition related_field (name path related_path : string) : FieldValue.t :=
  FieldValue.init name [path] (mkAttrs true None None (Some related_path)).

Definition def (name : string) (line : nat) (body : list ast.stmt)
  : ast.FunctionDef :=
  ast.mkFunctionDef name line [] body [] None.

Definition method (name path : string) (line : nat) (body : list ast.stmt)
  : MethodValue.t :=
  MethodValue.init name (def name line body) [path].

(** [sale.order] has [partner_id = fields.Many2one("res.partner")],
    [line_ids = fields.One2many("sale.order.line", "order_id")] and
    [x = fields.Many2one(related="partner_id.email")]; [res.partner] has
    [email] and [name]; [sale.order.line] has [amount]. *)
Definition sale_classes : list class_decl :=
  [ mkClass "sale.order" []
      [ many2one "partner_id" "sale.py:5" "res.partner";
        FieldValue.init "line_ids" ["sale.py:6"]
          (mkAttrs true (Some "sale.order.line") (Some "order_id") None);
        related_field "x" "sale.py:7" "partner_id.email";
        char_field "name" "sale.py:8" ]
      [ method "action_confirm" "sale.py:10" 10 [] ];
    mkClass "res.partner" []
      [ char_field "email" "partner.py:4"; char_field "name" "partner.py:5" ] [];
    mkClass "sale.order.line" []
      [ char_field "amount" "line.py:4";
        many2one "order_id" "line.py:5" "sale.order" ] [] ].

Definition sale_declared : registry := declare_classes sale_classes [].

(** Two classes naming each other as parent:
    [class A: _name = "a"; _inherit = "b"] with a method [run], and
    [class B: _name = "b"; _inherit = "a"]. *)
Definition cyclic_classes : list class_decl :=
  [ mkClass "a" ["b"] [ char_field "x" "a.py:4" ] [ method "run" "a.py:6" 6 [] ];
    mkClass "b" ["a"] [] [] ].

Definition cyclic : registry :=
  resolve_children (declare_classes cyclic_classes []).

(** A chain of three models: [base] declares [priority] and [run],
    [mid] extends [base] and overrides [run], [leaf] extends [mid] and
    overrides [run]. *)
Definition chain_classes : list class_decl :=
  [ mkClass "base" [] [ char_field "priority" "base.py:4" ]
      [ method "run" "base.py:6" 6 [] ];
    mkClass "mid" ["base"] [ char_field "state" "mid.py:4" ]
      [ method "run" "mid.py:6" 6 [] ];
    mkClass "leaf" ["mid"] [] [ method "run" "leaf.py:6" 6 [] ] ].

Definition chain : registry :=
  resolve_children (declare_classes chain_classes []).

(** Heights in the chain, counted from the leaf and from the base. *)
Definition height (model : string) : nat :=
  if String.eqb model "base" then 2
  else if String.eqb model "mid" then 1 else 0.

Definition depth (model : string) : nat :=
  if String.eqb model "leaf" then 2
  else if String.eqb model "mid" then 1 else 0.

(** One model with a field nobody uses and no method at all. *)
Definition fields_only : registry :=
  declare_classes
    [ mkClass "res.note" [] [ char_field "memo" "note.py:4" ] [] ] [].

(** A run in which the merge meets a value of the wrong class: the second
    value built for sale.py is a method object named like the model, and
    partner.py follows. *)
Definition mismatched_files : list (string * list Dynamic.pyobj) :=
  [ ("sale.py",
     [ Dynamic.PyModel (ModelValue.init "sale.order" []);
       Dynamic.PyMethod (method "sale.order" "sale.py:3" 3 []) ]);
    ("partner.py", [ Dynamic.PyModel (ModelValue.init "res.partner" []) ]) ].

(** [def action_confirm(self):
        for line in self.line_ids: line.amount
        partner = self.env["res.partner"].browse(1)
        partner.email] *)
Definition confirm_def : ast.FunctionDef :=
  def "action_confirm" 10
    [ ast.For (ast.Name "line") (ast.Attribute (ast.Name "self") "line_ids")
        [ ast.Expr (ast.Attribute (ast.Name "line") "amount") ] [];
      ast.Assign [ast.Name "partner"]
        (ast.Call
           (ast.Attribute
              (ast.Subscript (ast.Attribute (ast.Name "self") "env")
                 (ast.Constant (ast.CStr "res.partner")))
              "browse")
           [ast.Constant ast.COther] []);
      ast.Expr (ast.Attribute (ast.Name "partner") "email") ].

(** [child] extends the mixins [mixin.a] and [mixin.b], which both define
    [run]; [other] extends [mixin.a] and overrides [run]. *)
Definition two_parents : registry :=
  resolve_children
    (declare_classes
       [ mkClass "mixin.a" [] [] [ method "run" "a.py:3" 3 [] ];
         mkClass "mixin.b" [] [] [ method "run" "b.py:3" 3 [] ];
         mkClass "child" ["mixin.a"; "mixin.b"] [] [];
         mkClass "other" ["mixin.a"] [] [ method "run" "other.py:3" 3 [] ] ]
       []).

(** [@api.onchange("partner_id")
     def check_partner(self): ...] *)
Definition onchange_partner : ast.FunctionDef :=
  ast.mkFunctionDef "check_partner" 5 [] []
    [ast.Call (ast.Attribute (ast.Name "api") "onchange")
       [ast.Constant (ast.CStr "partner_id")] []]
    None.

(** The functions of a class body: the one above, [_compute_total],
    [action_confirm] and an override of [write]. *)
Definition sale_order_defs : list ast.FunctionDef :=
  [ onchange_partner; def "_compute_total" 9 []; def "action_confirm" 12 [];
    def "write" 15 [] ].

(** Two declarations of [sale.order]: in the first, [note] was already seen
    in a view and [action_confirm] is unused; the second declares [note]
    again, adds [origin], and its [action_confirm] is used. *)
Definition redeclared_first : ModelValue.t :=
  ModelValue.mk "sale.order" [] []
    [ ("note", FieldValue.set_unused_percentage (char_field "note" "a.py:4") 0) ]
    [ ("action_confirm", method "action_confirm" "a.py:6" 6 []) ].

Definition redeclared_second : ModelValue.t :=
  ModelValue.mk "sale.order" ["mail.thread"] []
    [ ("note", char_field "note" "b.py:4");
      ("origin", char_field "origin" "b.py:5") ]
    [ ("action_confirm",
       MethodValue.set_unused_percentage
         (method "action_confirm" "b.py:7" 7 []) 0) ].

(** [base] declares [partner_id = fields.Many2one("res.partner")], [mid]
    extends [base], and [child] extends [mid] and declares
    [x = fields.Many2one(related="partner_id.email")]; [res.partner] has
    [email]. *)
Definition family_classes : list class_decl :=
  [ mkClass "res.partner" [] [ char_field "email" "partner.py:4" ] [];
    mkClass "base" [] [ many2one "partner_id" "base.py:4" "res.partner" ] [];
    mkClass "mid" ["base"] [] [];
    mkClass "child" ["mid"] [ related_field "x" "child.py:4" "partner_id.email" ]
      [] ].

Definition family : registry :=
  resolve_children (declare_classes family_classes []).

End Examples.

(** ** Vocabulary of the statements *)

(** The parents and the children a model names, and what it declares. *)
Definition parents_of (reg : registry) (model : string) : list string :=
  match dget model reg with
  | Some m => ModelValue.inherited_models m
  | None => []
  end.

Definition children_of (reg : registry) (model : string) : list string :=
  match dget model reg with
  | Some m => ModelValue.child_models m
  | None => []
  end.

Definition declares_field (reg : registry) (model field : string) : bool :=
  match dget model reg with
  | Some m => dmem field (ModelValue.fields m)
  | None => false
  end.

Definition declares_method (reg : registry) (model method : string) : bool :=
  match dget model reg with
  | Some m => dmem method (ModelValue.methods m)
  | None => false
  end.

(** [edges] (the parent or the child links) go down a rank: the graph has no
    cycle; and every model they name is registered. *)
Definition ranked (edges : string -> list string) (rank : string -> nat) : Prop :=
  forall model next, In next (edges model) -> (rank next < rank model)%nat.

Definition resolved (reg : registry) (edges : string -> list string) : Prop :=
  forall model next, In next (edges model) -> dmem next reg = true.

(** The same two conditions as checks on a registry, [links] being
    [ModelValue.inherited_models] or [ModelValue.child_models]. *)
Definition rankedb (reg : registry) (links : ModelValue.t -> list string)
  (rank : string -> nat) : bool :=
  forallb
    (fun kv => forallb (fun next => (rank next <? rank (fst kv))%nat)
                 (links (snd kv)))
    reg.

Definition resolvedb (reg : registry) (links : ModelValue.t -> list string)
  : bool :=
  forallb (fun kv => forallb (fun next => dmem next reg) (links (snd kv))) reg.

(** Step 1 of [_fill_definitions_map] makes every model a child of each of
    its registered parents. *)
Definition linked (reg : registry) : Prop :=
  forall model parent,
    In parent (parents_of reg model) -> In model (children_of reg parent).

Definition linkedb (reg : registry) : bool :=
  forallb
    (fun kv => forallb (fun parent => str_in (fst kv) (children_of reg parent))
                 (ModelValue.inherited_models (snd kv)))
    reg.

(** [reachable edges a b]: a path of at least one edge leads from [a] to [b]. *)
Inductive reachable (edges : string -> list string) : string -> string -> Prop :=
| reachable_edge a b :
    In b (edges a) -> reachable edges a b
| reachable_step a b c :
    In b (edges a) -> reachable edges b c -> reachable edges a c.

(** [descendant reg m c]: [c] is a transitive child of [m]. *)
Definition descendant (reg : registry) : string -> string -> Prop :=
  reachable (children_of reg).

(** [inherits_field reg f m]: [m] or one of its ancestors declares [f]. *)
Inductive inherits_field (reg : registry) (f : string) : string -> Prop :=
| inherits_own m :
    declares_field reg m f = true -> inherits_field reg f m
| inherits_parent m p :
    In p (parents_of reg m) -> inherits_field reg f p ->
    inherits_field reg f m.

(** The field object [reg[model].fields[field]] and what the walk of a
    related path reads from it. *)
Definition field_of (reg : registry) (model field : string)
  : option FieldValue.t :=
  match dget model reg with
  | Some m => dget field (ModelValue.fields m)
  | None => None
  end.

Definition field_target (reg : registry) (model field : string)
  : option string :=
  match field_of reg model field with
  | Some f => comodel_of f
  | None => None
  end.

Definition field_related (reg : registry) (model field : string)
  : option string :=
  match field_of reg model field with
  | Some f => if truthy (related (FieldValue.attributes f))
              then related (FieldValue.attributes f) else None
  | None => None
  end.

(** Every model is registered under its name; no score exceeds 100. *)
Definition names_are_keys (reg : registry) : Prop :=
  forall key m, dget key reg = Some m -> ModelValue.name m = key.

Definition names_are_keysb (reg : registry) : bool :=
  forallb (fun kv => String.eqb (ModelValue.name (snd kv)) (fst kv)) reg.

Definition scores_bounded (reg : registry) : Prop :=
  forall model field s, field_score reg model field = Some s -> s <= 100.

Definition scores_boundedb (reg : registry) : bool :=
  forallb
    (fun kv => forallb (fun fkv => FieldValue.unused_percentage (snd fkv) <=? 100)
                 (ModelValue.fields (snd kv)))
    reg.

(** [same_decls reg reg']: the two registries have the same models under the
    same names and the same fields with the same attributes; only scores may
    differ. *)
Definition same_decls (reg reg' : registry) : Prop :=
  (forall X, option_map ModelValue.name (dget X reg')
             = option_map ModelValue.name (dget X reg))
  /\ (forall X p, option_map FieldValue.attributes (field_of reg' X p)
                  = option_map FieldValue.attributes (field_of reg X p)).

(** [zeroed o]: the score [o], if any, after it was set to 0. *)
Definition zeroed (o : option Z) : option Z := option_map (fun _ => 0) o.

(** [marks reg model part X g]: [field_used(part, ...)] on [model] writes
    the score of field [g] on model [X]: the field is [part], on [model]
    itself when it declares [part], on its direct parents otherwise. *)
Definition marks (reg : registry) (model part X g : string) : bool :=
  String.eqb g part
  && (if declares_field reg model part then String.eqb X model
      else str_in X (parents_of reg model)).

(** [marked reg trace X g]: a step of [trace] writes the score of [g] on
    [X]. *)
Definition marked (reg : registry) (trace : list (string * string))
  (X g : string) : bool :=
  existsb (fun step => marks reg (fst step) (snd step) X g) trace.

(** [same_shape reg reg']: the same models under the same names, with the
    same parents and the same fields with the same attributes. *)
Definition same_shape (reg reg' : registry) : Prop :=
  same_decls reg reg' /\ forall X, parents_of reg' X = parents_of reg X.

(** [resolves limit reg n model path r trace]: the walk of [path] from the
    registered model [model] ends with [r] after the steps of [trace], each
    the walk's current model with the segment it looks up there; [n] bounds
    the nesting of related fields of related fields.  A segment is looked
    up on the current model and its ancestors, [limit] being the depth left
    to the lookup:
    - when nothing is found, or what is found has neither a target model
      nor a related path, or its target model is not registered, the walk
      ends with [None];
    - a registered target model is where the walk goes on;
    - a related path of the field found is walked from the same model, and
      the walk goes on from what that gives. *)
Inductive resolves (limit : nat) (reg : registry)
  : nat -> string -> list string -> option string -> list (string * string)
    -> Prop :=
| resolves_end n model :
    dmem model reg = true ->
    resolves limit reg n model [] (Some model) []
| resolves_unknown n model part rest :
    _get_field_definition limit reg model part = Ok None ->
    resolves limit reg n model (part :: rest) None [(model, part)]
| resolves_plain n model part fd rest :
    _get_field_definition limit reg model part = Ok (Some fd) ->
    comodel_of fd = None ->
    truthy (related (FieldValue.attributes fd)) = false ->
    resolves limit reg n model (part :: rest) None [(model, part)]
| resolves_dangling n model part fd target rest :
    _get_field_definition limit reg model part = Ok (Some fd) ->
    comodel_of fd = Some target ->
    dmem target reg = false ->
    resolves limit reg n model (part :: rest) None [(model, part)]
| resolves_hop n model part fd target rest r trace :
    _get_field_definition limit reg model part = Ok (Some fd) ->
    comodel_of fd = Some target ->
    dmem target reg = true ->
    resolves limit reg n target rest r trace ->
    resolves limit reg n model (part :: rest) r ((model, part) :: trace)
| resolves_nested_none n model part fd path rest trace :
    _get_field_definition limit reg model part = Ok (Some fd) ->
    comodel_of fd = None ->
    truthy (related (FieldValue.attributes fd)) = true ->
    related (FieldValue.attributes fd) = Some path ->
    resolves limit reg n model (split_on "."%char path) None trace ->
    resolves limit reg (S n) model (part :: rest) None ((model, part) :: trace)
| resolves_nested n model part fd path target rest r trace1 trace2 :
    _get_field_definition limit reg model part = Ok (Some fd) ->
    comodel_of fd = None ->
    truthy (related (FieldValue.attributes fd)) = true ->
    related (FieldValue.attributes fd) = Some path ->
    resolves limit reg n model (split_on "."%char path) (Some target) trace1 ->
    resolves limit reg (S n) target rest r trace2 ->
    resolves limit reg (S n) model (part :: rest) r
      ((model, part) :: trace1 ++ trace2).


(** [fields_kept s s']: every field recorded in [s] is recorded in [s']. *)
Definition fields_kept (s s' : FieldCollector) : Prop :=
  forall model x, field_tracked s model x -> field_tracked s' model x.

(** ** Vocabulary of the further properties *)

(** Every model is registered under its name, every parent a model names is
    registered, and no model names itself as a parent. *)
Definition well_declared (reg : registry) : Prop :=
  names_are_keys reg
  /\ resolved reg (parents_of reg)
  /\ (forall model, ~ In model (parents_of reg model)).

(** The pieces of [declare_class]: the parents kept, the placeholder loop,
    and the model built for the class. *)
Definition kept_parents (c : class_decl) : list string :=
  filter (fun p => negb (String.eqb p (class_name c))) (class_inherit c).

Definition placeholders (parents : list string) (reg : registry) : registry :=
  fold_left
    (fun reg p => if dmem p reg then reg else dset p (ModelValue.init p []) reg)
    parents reg.

Definition class_model (c : class_decl) : ModelValue.t :=
  ModelValue.mk (class_name c) (ModelValue.update_keys [] (kept_parents c)) []
    (fold_left (fun d f => dset (FieldValue.name f) f d) (class_fields c) [])
    (fold_left (fun d m => dset (MethodValue.name m) m d) (class_methods c) []).

(** [no_children m] is [m] with its child links erased;
    [same_but_children reg reg']: the two registries hold the same models
    under the same keys, up to their child links. *)
Definition no_children (m : ModelValue.t) : ModelValue.t :=
  ModelValue.set_child_models m [].

Definition same_but_children (reg reg' : registry) : Prop :=
  forall X, option_map no_children (dget X reg')
            = option_map no_children (dget X reg).

(** [lowered c o]: the score [o], if any, after a mark of confidence [c]. *)
Definition lowered (c : Z) (o : option Z) : option Z :=
  option_map (fun s => lower s c) o.

(** Every field score lies in [0,100]. *)
Definition scores_in_range (reg : registry) : Prop :=
  forall model field s, field_score reg model field = Some s -> 0 <= s <= 100.

Definition scores_in_rangeb (reg : registry) : bool :=
  forallb
    (fun kv =>
       forallb (fun fkv => (0 <=? FieldValue.unused_percentage (snd fkv))
                           && (FieldValue.unused_percentage (snd fkv) <=? 100))
         (ModelValue.fields (snd kv)))
    reg.

(** [a in s] for a character [a]. *)
Fixpoint contains_char (a : ascii) (s : string) : bool :=
  match s with
  | EmptyString => false
  | String c s' => Ascii.eqb c a || contains_char a s'
  end.

(** The merge step of the class loop on a registry of models (lines 107-110
    of core.py), and a registry of models seen as a dictionary of Python
    values. *)
Definition merge_model (reg : registry) (model : ModelValue.t) : registry :=
  match dget (ModelValue.name model) reg with
  | Some existing =>
      dset (ModelValue.name model) (ModelValue.ior existing model) reg
  | None => dset (ModelValue.name model) model reg
  end.

Definition as_pyobjs (reg : registry) : dict Dynamic.pyobj :=
  map (fun kv => (fst kv, Dynamic.PyModel (snd kv))) reg.

(** [same_links reg reg']: the same models are registered, with the same
    parents and children. *)
Definition same_links (reg reg' : registry) : Prop :=
  forall X, parents_of reg' X = parents_of reg X
            /\ children_of reg' X = children_of reg X
            /\ dmem X reg' = dmem X reg.

(** The child links are parent links reversed, as a check. *)
Definition reversedb (reg : registry) : bool :=
  forallb
    (fun kv => forallb (fun child => str_in (fst kv) (parents_of reg child))
                 (ModelValue.child_models (snd kv)))
    reg.

(** * Properties *)

(** ** Dictionaries *)

Section DictFacts.
Context {V : Type}.
Implicit Types (d : dict V) (k : string) (v : V).

Lemma dget_dset_eq k v d : dget k (dset k v d) = Some v.
Proof.
  induction d as [|[k' v'] d IH]; simpl.
  - now rewrite String.eqb_refl.
  - destruct (String.eqb k k') eqn:E; simpl; rewrite E; auto.
Qed.

Lemma dget_dset_neq k k' v d : k <> k' -> dget k' (dset k v d) = dget k' d.
Proof.
  intros Hne. induction d as [|[k0 v0] d IH]; simpl.
  - destruct (String.eqb k' k) eqn:E; auto.
    apply String.eqb_eq in E. congruence.
  - destruct (String.eqb k k0) eqn:E; simpl.
    + apply String.eqb_eq in E. subst k0.
      destruct (String.eqb k' k) eqn:E'; auto.
      apply String.eqb_eq in E'. congruence.
    + now rewrite IH.
Qed.

Lemma dset_same k v d : dget k d = Some v -> dset k v d = d.
Proof.
  induction d as [|[k' v'] d IH]; simpl; [discriminate|].
  destruct (String.eqb k k') eqn:E; intros H.
  - now inversion H.
  - now rewrite IH.
Qed.

Lemma dkeys_dset_present k v v' d :
  dget k d = Some v' -> dkeys (dset k v d) = dkeys d.
Proof.
  unfold dkeys.
  induction d as [|[k0 v0] d IH]; simpl; [discriminate|].
  destruct (String.eqb k k0) eqn:E; intros H; simpl; auto.
  f_equal. auto.
Qed.

Lemma dget_In k v d : dget k d = Some v -> In (k, v) d.
Proof.
  induction d as [|[k' v'] d IH]; simpl; [discriminate|].
  destruct (String.eqb k k') eqn:E; intros H.
  - apply String.eqb_eq in E. inversion H. subst. now left.
  - right. auto.
Qed.

Lemma dmem_dset k k' v d :
  dmem k' (dset k v d) = (String.eqb k k' || dmem k' d)%bool.
Proof.
  unfold dmem. destruct (String.eqb k k') eqn:E.
  - apply String.eqb_eq in E. subst. now rewrite dget_dset_eq.
  - apply String.eqb_neq in E. now rewrite dget_dset_neq.
Qed.
End DictFacts.

Lemma bind_Ok {A B} (r : result A) (k : A -> result B) b :
  bind r k = Ok b -> exists a, r = Ok a /\ k a = Ok b.
Proof. destruct r; simpl; [eauto|discriminate]. Qed.

Lemma str_in_In x xs : str_in x xs = true <-> In x xs.
Proof.
  unfold str_in. rewrite existsb_exists. split.
  - intros (y & Hy & E). apply String.eqb_eq in E. now subst.
  - intros H. exists x. split; auto. apply String.eqb_refl.
Qed.

Lemma set_add_In x y s : In y (set_add x s) <-> y = x \/ In y s.
Proof.
  unfold set_add. destruct (str_in x s) eqn:E.
  - apply str_in_In in E. split; [auto|]. intros [->|]; auto.
  - rewrite in_app_iff. simpl. intuition.
Qed.

(** ** Scores: the floor that [field_used] and [method_used] apply *)

Lemma lower_in_range score confidence :
  0 <= score <= 100 -> 0 <= confidence ->
  0 <= lower score confidence <= score.
Proof. unfold lower. lia. Qed.

Lemma lower_full score : score <= 100 -> lower score 100 = 0.
Proof. unfold lower. lia. Qed.

(** C2.  [reduce_certainty] subtracts 25 without the floor that [field_used]
    and [method_used] apply: five calls on a fresh field or method leave its
    score at -25, outside [0,100], and a following [field_used] with
    confidence 0 raises the score back to 0. *)
Theorem reduce_certainty_goes_below_zero :
  let f := Nat.iter 5 FieldValue.reduce_certainty
             (FieldValue.init "amount" ["line.py:4"] no_attrs) in
  let m := Nat.iter 5 MethodValue.reduce_certainty
             (Examples.method "run" "a.py:6" 6 []) in
  FieldValue.unused_percentage f = -25
  /\ MethodValue.unused_percentage m = -25
  /\ lower (FieldValue.unused_percentage f) 0 = 0.
Proof. repeat split. Qed.

(** ** The report *)

(** C3.  [res.note] declares the field [memo], whose score is still 100, and
    no method: [report] of core.py skips the model because its list of unused
    methods is empty, so [memo] is reported nowhere. *)
Theorem report_drops_model_without_unused_methods :
  field_score Examples.fields_only "res.note" "memo" = Some 100
  /\ report Examples.fields_only = [].
Proof. repeat split. Qed.

(** ** Merging re-declared models *)

Lemma merge_methods_absent k l :
  forall ms, dget k l = None ->
  dget k (fold_left ModelValue.merge_method l ms) = dget k ms.
Proof.
  induction l as [|[k0 v0] l IH]; intros ms Hk; simpl in *; auto.
  destruct (String.eqb k k0) eqn:E; [discriminate|].
  rewrite IH by auto. unfold ModelValue.merge_method. simpl.
  apply String.eqb_neq in E.
  destruct (dget k0 ms); apply dget_dset_neq; congruence.
Qed.

Lemma dget_absent_keys {V} k (d : dict V) : ~ In k (dkeys d) -> dget k d = None.
Proof.
  induction d as [|[k0 v0] d IH]; simpl; auto.
  intros H. destruct (String.eqb k k0) eqn:E.
  - apply String.eqb_eq in E. subst. tauto.
  - apply IH. tauto.
Qed.

(** odecromancy/models.py: a method declared by both instances is merged by
    [MethodValue.__ior__]: least score, bodies one after the other. *)
Lemma ModelValue_ior_method_in_both self other k a b :
  NoDup (dkeys (ModelValue.methods other)) ->
  dget k (ModelValue.methods self) = Some a ->
  dget k (ModelValue.methods other) = Some b ->
  exists merged,
    dget k (ModelValue.methods (ModelValue.ior self other)) = Some merged
    /\ MethodValue.unused_percentage merged
       = Z.min (MethodValue.unused_percentage a) (MethodValue.unused_percentage b)
    /\ MethodValue.function_definitions merged
       = (MethodValue.function_definitions a
            ++ MethodValue.function_definitions b)%list.
Proof.
  intros Hnd Ha Hb. exists (MethodValue.ior a b). split; [|split; reflexivity].
  unfold ModelValue.ior. simpl.
  generalize dependent (ModelValue.methods self).
  induction (ModelValue.methods other) as [|[k0 v0] l IH]; intros ms Ha;
    simpl in *; [discriminate|].
  inversion Hnd as [|? ? Hnotin Hnd']; subst.
  destruct (String.eqb k k0) eqn:E.
  - apply String.eqb_eq in E. subst k0. inversion Hb; subst v0.
    rewrite merge_methods_absent by (now apply dget_absent_keys).
    unfold ModelValue.merge_method. simpl. rewrite Ha. apply dget_dset_eq.
  - apply IH; auto.
    unfold ModelValue.merge_method. simpl. apply String.eqb_neq in E.
    destruct (dget k0 ms); rewrite dget_dset_neq; auto; congruence.
Qed.

(** C5.  A model declared twice with the method [action_confirm], used
    (score 0) in the first instance and unused (score 100) in the second.
    [ModelValue.__ior__] of field_value.py tests [method_name in self.fields]
    and, the name being no field, overwrites the first entry: the method ends
    with score 100 and the second body only.  The same merge in
    odecromancy/models.py gives score 0 and both bodies. *)
Theorem field_value_ior_overwrites_method :
  let d1 := Examples.def "action_confirm" 10 [] in
  let d2 := Examples.def "action_confirm" 31 [] in
  let old_self :=
    field_value.ModelValue.mk "sale.order" [] [] []
      [("action_confirm", field_value.MethodValue.mk "action_confirm" [d1] 0 "a.py:10")] in
  let old_other :=
    field_value.ModelValue.mk "sale.order" [] [] []
      [("action_confirm", field_value.MethodValue.mk "action_confirm" [d2] 100 "b.py:31")] in
  let new_self :=
    ModelValue.mk "sale.order" [] [] []
      [("action_confirm", MethodValue.mk "action_confirm" [d1] 0 ["a.py:10"])] in
  let new_other :=
    ModelValue.mk "sale.order" [] [] []
      [("action_confirm", MethodValue.mk "action_confirm" [d2] 100 ["b.py:31"])] in
  (exists merged,
      field_value.ModelValue.ior old_self old_other = Ok merged
      /\ dget "action_confirm" (field_value.ModelValue.methods merged)
         = Some (field_value.MethodValue.mk "action_confirm" [d2] 100 "b.py:31"))
  /\ dget "action_confirm" (ModelValue.methods (ModelValue.ior new_self new_other))
     = Some (MethodValue.mk "action_confirm" [d1; d2] 0 ["a.py:10"; "b.py:31"]).
Proof.
  split; [eexists; split|]; reflexivity.
Qed.

(** ** The lambda handler *)

(** C7.  [self.filtered(lambda x: x.partner_id)] on [sale.order]: the body
    pushes the relation binding [("res.partner", "x.partner_id")], the single
    [pop] of [visit_Lambda] removes that one, and the parameter binding
    [("sale.order", "x")] stays on the stack after the lambda. *)
Theorem lambda_leaves_parameter_bound :
  let before := FieldCollector_init "sale.order" [] in
  let lam :=
    ast.Lambda [] ["x"] [] [] (ast.Attribute (ast.Name "x") "partner_id") in
  model_context_stack before = [("sale.order", "self")]
  /\ exists after,
       visit 1000 Examples.sale_declared lam before = Ok after
       /\ model_context_stack after
          = [("sale.order", "x"); ("sale.order", "self")].
Proof.
  split; [reflexivity|]. eexists. split; vm_compute; reflexivity.
Qed.

(** ** Writing a score changes nothing else *)

Lemma dget_set_method_score reg X k v Y :
  dget Y (set_method_score reg X k v) =
  if String.eqb X Y then
    match dget X reg with
    | Some m =>
        match dget k (ModelValue.methods m) with
        | Some f =>
            Some (ModelValue.set_methods m
                    (dset k (MethodValue.set_unused_percentage f v)
                          (ModelValue.methods m)))
        | None => Some m
        end
    | None => None
    end
  else dget Y reg.
Proof.
  unfold set_method_score.
  destruct (String.eqb X Y) eqn:E.
  - apply String.eqb_eq in E. subst Y.
    destruct (dget X reg) as [m|] eqn:Em; auto.
    destruct (dget k (ModelValue.methods m)); auto. apply dget_dset_eq.
  - apply String.eqb_neq in E.
    destruct (dget X reg) as [m|] eqn:Em; auto.
    destruct (dget k (ModelValue.methods m)); auto. now apply dget_dset_neq.
Qed.

Lemma dget_set_field_score reg X k v Y :
  dget Y (set_field_score reg X k v) =
  if String.eqb X Y then
    match dget X reg with
    | Some m =>
        match dget k (ModelValue.fields m) with
        | Some f =>
            Some (ModelValue.set_fields m
                    (dset k (FieldValue.set_unused_percentage f v)
                          (ModelValue.fields m)))
        | None => Some m
        end
    | None => None
    end
  else dget Y reg.
Proof.
  unfold set_field_score.
  destruct (String.eqb X Y) eqn:E.
  - apply String.eqb_eq in E. subst Y.
    destruct (dget X reg) as [m|] eqn:Em; auto.
    destruct (dget k (ModelValue.fields m)); auto. apply dget_dset_eq.
  - apply String.eqb_neq in E.
    destruct (dget X reg) as [m|] eqn:Em; auto.
    destruct (dget k (ModelValue.fields m)); auto. now apply dget_dset_neq.
Qed.

(** Unfolds a lookup in a registry after a score was written. *)
Ltac after_score_write X Y :=
  rewrite ?dget_set_method_score, ?dget_set_field_score;
  let E := fresh "E" in
  destruct (String.eqb X Y) eqn:E;
  [apply String.eqb_eq in E; subst|apply String.eqb_neq in E]; auto.

Lemma children_of_set_method_score reg X k v Y :
  children_of (set_method_score reg X k v) Y = children_of reg Y.
Proof.
  unfold children_of. after_score_write X Y.
  destruct (dget Y reg) as [m|]; auto.
  destruct (dget k (ModelValue.methods m)); auto.
Qed.

Lemma dmem_set_method_score reg X k v Y :
  dmem Y (set_method_score reg X k v) = dmem Y reg.
Proof.
  unfold dmem. after_score_write X Y.
  destruct (dget Y reg) as [m|]; auto.
  destruct (dget k (ModelValue.methods m)); auto.
Qed.

Lemma declares_method_set_method_score reg X k v Y k' :
  declares_method (set_method_score reg X k v) Y k' = declares_method reg Y k'.
Proof.
  unfold declares_method. after_score_write X Y.
  destruct (dget Y reg) as [m|]; auto.
  destruct (dget k (ModelValue.methods m)) eqn:Ek; auto. simpl.
  rewrite dmem_dset. destruct (String.eqb k k') eqn:E'; auto.
  apply String.eqb_eq in E'. subst. unfold dmem. now rewrite Ek.
Qed.

Lemma method_score_set_same reg X k v :
  declares_method reg X k = true ->
  method_score (set_method_score reg X k v) X k = Some v.
Proof.
  unfold declares_method, method_score, dmem.
  rewrite dget_set_method_score, String.eqb_refl.
  destruct (dget X reg) as [m|]; [|discriminate].
  destruct (dget k (ModelValue.methods m)); [|discriminate].
  intros _. simpl. now rewrite dget_dset_eq.
Qed.

Lemma method_score_set_other reg X k v Y k' :
  X <> Y \/ k <> k' ->
  method_score (set_method_score reg X k v) Y k' = method_score reg Y k'.
Proof.
  intros Hne. unfold method_score. after_score_write X Y.
  destruct (dget Y reg) as [m|]; auto.
  destruct (dget k (ModelValue.methods m)); auto. simpl.
  rewrite dget_dset_neq; auto. tauto.
Qed.

Lemma field_score_set_other reg X k v Y k' :
  X <> Y \/ k <> k' ->
  field_score (set_field_score reg X k v) Y k' = field_score reg Y k'.
Proof.
  intros Hne. unfold field_score. after_score_write X Y.
  destruct (dget Y reg) as [m|]; auto.
  destruct (dget k (ModelValue.fields m)); auto. simpl.
  rewrite dget_dset_neq; auto. tauto.
Qed.

Lemma field_score_set_same reg X k v :
  declares_field reg X k = true ->
  field_score (set_field_score reg X k v) X k = Some v.
Proof.
  unfold declares_field, field_score, dmem.
  rewrite dget_set_field_score, String.eqb_refl.
  destruct (dget X reg) as [m|]; [|discriminate].
  destruct (dget k (ModelValue.fields m)); [|discriminate].
  intros _. simpl. now rewrite dget_dset_eq.
Qed.

(** ** Inheritance cycles *)

Lemma two_cycle_lookup reg a b ma mb f :
  dget a reg = Some ma -> dget b reg = Some mb ->
  ModelValue.inherited_models ma = [b] ->
  ModelValue.inherited_models mb = [a] ->
  dget f (ModelValue.fields ma) = None ->
  dget f (ModelValue.fields mb) = None ->
  forall fuel,
    _get_field_info fuel reg a f = Raise RecursionError
    /\ _get_field_info fuel reg b f = Raise RecursionError.
Proof.
  intros Ha Hb Hpa Hpb Hfa Hfb.
  induction fuel as [|fuel [IHa IHb]]; simpl; [auto|].
  rewrite Ha, Hb, Hfa, Hfb, Hpa, Hpb. simpl. now rewrite IHa, IHb.
Qed.

Lemma two_cycle_propagation a b m :
  forall fuel reg,
    dmem a reg = true -> dmem b reg = true ->
    children_of reg a = [b] -> children_of reg b = [a] ->
    method_used_child fuel reg a m = Raise RecursionError
    /\ method_used_child fuel reg b m = Raise RecursionError.
Proof.
  induction fuel as [|fuel IH]; intros reg Ha Hb Hca Hcb; simpl; [auto|].
  assert (Hstep : forall reg',
             dmem a reg' = true -> dmem b reg' = true ->
             children_of reg' a = [b] -> children_of reg' b = [a] ->
             forall x, x = a \/ x = b ->
             method_used_child fuel
               (if dmem m (match dget x reg' with
                           | Some c => ModelValue.methods c | None => [] end)
                then set_method_score reg' x m 0 else reg') x m
             = Raise RecursionError).
  { intros reg' Ha' Hb' Hca' Hcb' x Hx.
    destruct (dmem m _).
    - destruct Hx; subst x;
        apply IH; rewrite ?dmem_set_method_score, ?children_of_set_method_score;
        auto.
    - destruct Hx; subst x; apply IH; auto. }
  unfold children_of, dmem in *.
  destruct (dget a reg) as [ma|] eqn:Ea; [|discriminate].
  destruct (dget b reg) as [mb|] eqn:Eb; [|discriminate].
  rewrite Hca, Hcb. simpl. rewrite Ea, Eb.
  pose proof (Hstep reg) as H. rewrite Ea, Eb in H.
  specialize (H eq_refl eq_refl Hca Hcb).
  split.
  - pose proof (H b (or_intror eq_refl)) as Hb'. rewrite Eb in Hb'.
    unfold dmem in Hb'. now rewrite Hb'.
  - pose proof (H a (or_introl eq_refl)) as Ha'. rewrite Ea in Ha'.
    unfold dmem in Ha'. now rewrite Ha'.
Qed.

(** C4.  Two models that name each other as only parent (hence as only
    child), a field name [f] neither declares and a method [m] the first
    declares: the parent lookup of [f] and the downward propagation of a use
    of [m] recurse around the cycle and exhaust every recursion depth. *)
Theorem inheritance_cycle_exhausts_recursion :
  forall reg a b ma mb f m confidence,
    dget a reg = Some ma -> dget b reg = Some mb ->
    ModelValue.inherited_models ma = [b] ->
    ModelValue.inherited_models mb = [a] ->
    ModelValue.child_models ma = [b] ->
    ModelValue.child_models mb = [a] ->
    dget f (ModelValue.fields ma) = None ->
    dget f (ModelValue.fields mb) = None ->
    dmem m (ModelValue.methods ma) = true ->
    forall fuel,
      _get_field_info fuel reg a f = Raise RecursionError
      /\ method_used fuel reg a m confidence = Raise RecursionError.
Proof.
  intros reg a b ma mb f m c Ha Hb Hpa Hpb Hca Hcb Hfa Hfb Hm fuel. split.
  - now apply (two_cycle_lookup reg a b ma mb f).
  - unfold method_used. rewrite Ha. unfold dmem in Hm.
    destruct (dget m (ModelValue.methods ma)); [|discriminate].
    apply (two_cycle_propagation a b m);
      rewrite ?dmem_set_method_score, ?children_of_set_method_score;
      unfold dmem, children_of; rewrite ?Ha, ?Hb; auto.
Qed.

(** The cycle arises from two class declarations that pass
    [_initialize_model]; 1000 is the interpreter's default recursion limit. *)
Lemma inheritance_cycle_exhausts_recursion_witness :
  _get_field_info 1000 Examples.cyclic "a" "foo" = Raise RecursionError
  /\ method_used 1000 Examples.cyclic "a" "run" 100 = Raise RecursionError.
Proof.
  apply (inheritance_cycle_exhausts_recursion Examples.cyclic "a" "b"
           (ModelValue.mk "a" ["b"] ["b"]
              [("x", Examples.char_field "x" "a.py:4")]
              [("run", Examples.method "run" "a.py:6" 6 [])])
           (ModelValue.mk "b" ["a"] ["a"] [] [])
           "foo" "run" 100);
    reflexivity.
Defined.

(** ** Lookups through the parents *)

Section Lookup.
Variables (reg : registry) (rank : string -> nat).
Hypothesis parents_ranked : ranked (parents_of reg) rank.

Lemma _get_field_info_total name :
  forall fuel model, (rank model < fuel)%nat ->
  exists r, _get_field_info fuel reg model name = Ok r
            /\ (inherits_field reg name model -> r <> None).
Proof.
  induction fuel as [|fuel IH]; intros model Hr; [lia|]. simpl.
  destruct (dget model reg) as [mv|] eqn:Em.
  - destruct (dget name (ModelValue.fields mv)) as [f|] eqn:Ef.
    + exists (Some f). split; [auto|discriminate].
    + assert (Hl : forall l,
                 (forall p, In p l -> (rank p < fuel)%nat) ->
                 exists r,
                   first_found
                     (fun inherited => _get_field_info fuel reg inherited name) l
                   = Ok r
                   /\ ((exists p, In p l /\ inherits_field reg name p) ->
                       r <> None)).
      { induction l as [|p l IHl]; intros Hrk; simpl.
        - exists None. split; auto. intros (p & [] & _).
        - destruct (IH p) as (r & Hp & Hfound); [apply Hrk; now left|].
          rewrite Hp. simpl. destruct r as [f|].
          + exists (Some f). split; [auto|discriminate].
          + destruct IHl as (r & Hrest & Hsome);
              [intros q Hq; apply Hrk; now right|].
            exists r. split; auto. intros (q & [->|Hq] & Hinh).
            * now apply Hfound in Hinh.
            * apply Hsome. eauto. }
      destruct (Hl (ModelValue.inherited_models mv)) as (r & Hrun & Hsome).
      { intros p Hp.
        assert (rank p < rank model)%nat; [|lia].
        apply parents_ranked. unfold parents_of. now rewrite Em. }
      exists r. split; auto. intros Hinh. apply Hsome.
      inversion Hinh as [? Hown|? p Hp Hup]; subst.
      * unfold declares_field, dmem in Hown. rewrite Em, Ef in Hown.
        discriminate.
      * exists p. split; auto. unfold parents_of in Hp. now rewrite Em in Hp.
  - exists None. split; auto. intros Hinh.
    inversion Hinh as [? Hown|? p Hp Hup]; subst.
    + unfold declares_field in Hown. rewrite Em in Hown. discriminate.
    + unfold parents_of in Hp. rewrite Em in Hp. destruct Hp.
Qed.

Lemma _get_method_info_total name :
  forall fuel model, (rank model < fuel)%nat ->
  exists r, _get_method_info fuel reg model name = Ok r.
Proof.
  induction fuel as [|fuel IH]; intros model Hr; [lia|]. simpl.
  destruct (dget model reg) as [mv|] eqn:Em; [|eauto].
  destruct (dget name (ModelValue.methods mv)) as [f|] eqn:Ef; [eauto|].
  assert (Hl : forall l,
             (forall p, In p l -> (rank p < fuel)%nat) ->
             exists r,
               first_found
                 (fun inherited => _get_method_info fuel reg inherited name) l
               = Ok r).
  { induction l as [|p l IHl]; intros Hrk; simpl; [eauto|].
    destruct (IH p) as (r & Hp); [apply Hrk; now left|].
    rewrite Hp. simpl. destruct r; [eauto|].
    apply IHl. intros q Hq. apply Hrk. now right. }
  apply Hl. intros p Hp.
  assert (rank p < rank model)%nat; [|lia].
  apply parents_ranked. unfold parents_of. now rewrite Em.
Qed.
End Lookup.

(** ** What [field_used] writes *)

Lemma dmem_set_field_score reg X k v Y :
  dmem Y (set_field_score reg X k v) = dmem Y reg.
Proof.
  unfold dmem. after_score_write X Y.
  destruct (dget Y reg) as [m|]; auto.
  destruct (dget k (ModelValue.fields m)); auto.
Qed.

Lemma set_field_score_undeclared reg X k v :
  declares_field reg X k = false -> set_field_score reg X k v = reg.
Proof.
  unfold declares_field, set_field_score, dmem.
  destruct (dget X reg) as [m|]; auto.
  destruct (dget k (ModelValue.fields m)); [discriminate|auto].
Qed.

(** The loop of [field_used] over the direct parents. *)
Lemma field_used_parents_loop f c :
  forall l reg,
    (forall p, In p l -> dmem p reg = true) ->
    exists reg',
      for_each
        (fun inherited reg =>
           match dget inherited reg with
           | None => Raise (none_has_no "fields")
           | Some p =>
               match dget f (ModelValue.fields p) with
               | Some fv =>
                   Ok (set_field_score reg inherited f
                         (lower (FieldValue.unused_percentage fv) c))
               | None => Ok reg
               end
           end) l reg = Ok reg'
      /\ (forall X g, field_score reg' X g <> field_score reg X g ->
                      g = f /\ In X l)
      /\ ((forall p, In p l -> declares_field reg p f = false) -> reg' = reg).
Proof.
  induction l as [|p l IH]; intros reg Hres; simpl.
  - exists reg. repeat split; auto; intros; congruence.
  - assert (Hp : dmem p reg = true) by (apply Hres; now left).
    unfold dmem in Hp. destruct (dget p reg) as [mp|] eqn:Ep; [|discriminate].
    destruct (dget f (ModelValue.fields mp)) as [fv|] eqn:Ef; simpl.
    + destruct (IH (set_field_score reg p f
                      (lower (FieldValue.unused_percentage fv) c)))
        as (reg' & Hrun & Hframe & _).
      { intros q Hq. rewrite dmem_set_field_score. apply Hres. now right. }
      exists reg'. split; [auto|split].
      * intros X g Hdiff.
        destruct (string_dec p X) as [HX|HX]; destruct (string_dec f g) as [Hg|Hg];
          [subst; split; [reflexivity|now left]|..];
          (rewrite <- (field_score_set_other reg p f
                         (lower (FieldValue.unused_percentage fv) c) X g)
             in Hdiff by tauto;
           apply Hframe in Hdiff; destruct Hdiff; split; [auto|now right]).
      * intros Hnone. specialize (Hnone p (or_introl eq_refl)).
        unfold declares_field, dmem in Hnone. rewrite Ep, Ef in Hnone.
        discriminate.
    + destruct (IH reg) as (reg' & Hrun & Hframe & Hsame).
      { intros q Hq. apply Hres. now right. }
      exists reg'. split; [auto|split].
      * intros X g Hdiff. apply Hframe in Hdiff. destruct Hdiff.
        split; [assumption|now right].
      * intros Hnone. apply Hsame. intros q Hq. apply Hnone. now right.
Qed.

(** [field_used] returns, and writes at most the score of that field on the
    model itself or on direct parents. *)
Lemma field_used_frame reg M f c :
  dmem M reg = true ->
  (forall p, In p (parents_of reg M) -> dmem p reg = true) ->
  exists reg',
    field_used reg M f c = Ok reg'
    /\ (forall X g, field_score reg' X g <> field_score reg X g ->
                    g = f /\ (X = M \/ In X (parents_of reg M)))
    /\ (declares_field reg M f = false ->
        (forall p, In p (parents_of reg M) -> declares_field reg p f = false) ->
        reg' = reg).
Proof.
  intros HM Hres. unfold field_used, parents_of, declares_field, dmem in *.
  destruct (dget M reg) as [mM|] eqn:EM; [|discriminate].
  destruct (dget f (ModelValue.fields mM)) as [fv|] eqn:Ef.
  - eexists. split; [reflexivity|split].
    + intros X g Hdiff.
      destruct (string_dec M X) as [HX|HX]; destruct (string_dec f g) as [Hg|Hg];
        [subst; split; [reflexivity|now left]|..];
        (rewrite field_score_set_other in Hdiff by tauto; congruence).
    + discriminate.
  - destruct (field_used_parents_loop f c (ModelValue.inherited_models mM) reg)
      as (reg' & Hrun & Hframe & Hsame); [exact Hres|].
    exists reg'. split; [auto|split].
    + intros X g Hdiff. apply Hframe in Hdiff. destruct Hdiff. split; auto.
    + intros _ Hnone. apply Hsame. exact Hnone.
Qed.

(** Every score [field_used] writes is [lower] of the score it read: with
    scores in [0,100] and a confidence that is not negative, no field score
    leaves the interval or goes up. *)
Lemma field_used_lowers_scores reg model field confidence :
  0 <= confidence ->
  (forall X g s, field_score reg X g = Some s -> 0 <= s <= 100) ->
  forall reg',
    field_used reg model field confidence = Ok reg' ->
    forall X g s',
      field_score reg' X g = Some s' ->
      exists s, field_score reg X g = Some s /\ 0 <= s' <= s.
Proof.
  intros Hc Hrange reg' Hrun.
  assert (Hwrite : forall r X g s' Y f,
             (forall X g s, field_score r X g = Some s -> 0 <= s <= 100) ->
             field_score r Y field = Some (FieldValue.unused_percentage f) ->
             field_score
               (set_field_score r Y field
                  (lower (FieldValue.unused_percentage f) confidence)) X g
             = Some s' ->
             exists s, field_score r X g = Some s /\ 0 <= s' <= s).
  { intros r X g s' Y f Hr Hf Hs'.
    destruct (string_dec Y X) as [HX|HX];
      destruct (string_dec field g) as [Hg|Hg];
      [subst|..]; try (rewrite field_score_set_other in Hs' by tauto;
                       exists s'; split; [assumption|]; apply Hr in Hs'; lia).
    rewrite field_score_set_same in Hs'.
    - inversion Hs'. exists (FieldValue.unused_percentage f).
      split; [assumption|]. apply Hr in Hf.
      apply lower_in_range; assumption.
    - unfold field_score in Hf. unfold declares_field, dmem.
      destruct (dget X r) as [m|]; [|discriminate].
      destruct (dget g (ModelValue.fields m)); [reflexivity|discriminate]. }
  unfold field_used in Hrun.
  destruct (dget model reg) as [m|] eqn:Em; [|discriminate].
  destruct (dget field (ModelValue.fields m)) as [f|] eqn:Ef.
  - inversion Hrun. subst reg'. intros X g s' Hs'.
    eapply Hwrite; eauto. unfold field_score. now rewrite Em, Ef.
  - clear Em Ef. revert reg Hrange Hrun.
    induction (ModelValue.inherited_models m) as [|p l IH];
      intros reg Hrange Hrun X g s' Hs'; simpl in Hrun.
    + inversion Hrun. subst. exists s'. split; [assumption|].
      apply Hrange in Hs'. lia.
    + apply bind_Ok in Hrun as (reg1 & Hstep & Hrun).
      destruct (dget p reg) as [mp|] eqn:Ep; [|discriminate].
      destruct (dget field (ModelValue.fields mp)) as [fp|] eqn:Efp.
      * inversion Hstep. subst reg1.
        assert (Hfp : field_score reg p field
                      = Some (FieldValue.unused_percentage fp))
          by (unfold field_score; now rewrite Ep, Efp).
        destruct (IH _ (fun X g s Hs =>
                          match Hwrite reg X g s p fp Hrange Hfp Hs with
                          | ex_intro _ s0 (conj Hs0 Hle) =>
                              conj (proj1 Hle)
                                (Z.le_trans _ _ _ (proj2 Hle)
                                   (proj2 (Hrange _ _ _ Hs0)))
                          end) Hrun X g s' Hs') as (s1 & Hs1 & Hle1).
        destruct (Hwrite reg X g s1 p fp Hrange Hfp Hs1) as (s & Hs & Hle).
        exists s. split; [assumption|lia].
      * inversion Hstep. subst reg1. eapply IH; eauto.
Qed.

Lemma rankedb_parents reg rank :
  rankedb reg ModelValue.inherited_models rank = true ->
  ranked (parents_of reg) rank.
Proof.
  unfold rankedb, ranked, parents_of. rewrite forallb_forall.
  intros H model next Hin.
  destruct (dget model reg) as [m|] eqn:Em; [|destruct Hin].
  apply dget_In, H in Em. simpl in Em. rewrite forallb_forall in Em.
  now apply Nat.ltb_lt, Em.
Qed.

Lemma rankedb_children reg rank :
  rankedb reg ModelValue.child_models rank = true ->
  ranked (children_of reg) rank.
Proof.
  unfold rankedb, ranked, children_of. rewrite forallb_forall.
  intros H model next Hin.
  destruct (dget model reg) as [m|] eqn:Em; [|destruct Hin].
  apply dget_In, H in Em. simpl in Em. rewrite forallb_forall in Em.
  now apply Nat.ltb_lt, Em.
Qed.

Lemma resolvedb_parents reg :
  resolvedb reg ModelValue.inherited_models = true ->
  resolved reg (parents_of reg).
Proof.
  unfold resolvedb, resolved, parents_of. rewrite forallb_forall.
  intros H model next Hin.
  destruct (dget model reg) as [m|] eqn:Em; [|destruct Hin].
  apply dget_In, H in Em. simpl in Em. rewrite forallb_forall in Em. auto.
Qed.

Lemma resolvedb_children reg :
  resolvedb reg ModelValue.child_models = true ->
  resolved reg (children_of reg).
Proof.
  unfold resolvedb, resolved, children_of. rewrite forallb_forall.
  intros H model next Hin.
  destruct (dget model reg) as [m|] eqn:Em; [|destruct Hin].
  apply dget_In, H in Em. simpl in Em. rewrite forallb_forall in Em. auto.
Qed.

(** ** What the collector records *)

Lemma field_tracked_track model x self :
  field_tracked (_track_field_usage model x self) model x.
Proof.
  unfold field_tracked, _track_field_usage, track. simpl.
  eexists. split; [apply dget_dset_eq|]. apply set_add_In. now left.
Qed.

Lemma field_tracked_field_hit model obj name f self :
  field_tracked (field_hit model obj name f self) model name.
Proof.
  unfold field_hit. destruct (comodel_of f); [|apply field_tracked_track].
  apply (field_tracked_track model name self).
Qed.

(** C10.  [field_used(f, c)] on a registered model [M] whose parents are
    registered returns and changes no score but that of [f] on [M] or on a
    direct parent of [M].  When neither [M] nor a direct parent declares [f]
    the registry is left as it was, although, [f] being declared further up
    an acyclic parent chain, the collector resolves [obj.f] for a name [obj]
    bound to [M], records [f] as used on [M], and the marking of that record
    goes through [field_used] on [M]. *)
Theorem field_used_reaches_direct_parents_only :
  forall reg M f c,
    dmem M reg = true ->
    resolved reg (parents_of reg) ->
    exists reg',
      field_used reg M f c = Ok reg'
      /\ (forall X g, field_score reg' X g <> field_score reg X g ->
                      g = f /\ (X = M \/ In X (parents_of reg M)))
      /\ (declares_field reg M f = false ->
          (forall p, In p (parents_of reg M) -> declares_field reg p f = false) ->
          reg' = reg
          /\ forall limit rank obj self,
               ranked (parents_of reg) rank -> (rank M < limit)%nat ->
               inherits_field reg f M -> M <> "" ->
               _get_context_for_name (model_context_stack self) obj = Some M ->
               exists after,
                 visit limit reg (ast.Attribute (ast.Name obj) f) self = Ok after
                 /\ field_tracked after M f
                 /\ _mark_usage_from_collector limit [(M, mkUsage [f] [])] reg
                    = Ok reg).
Proof.
  intros reg M f c HM Hres.
  destruct (field_used_frame reg M f c HM (Hres M)) as (reg' & Hrun & Hframe & Hsame).
  exists reg'. split; [auto|split; [auto|]].
  intros Hown Hparents. split; [now apply Hsame|].
  intros limit rank obj self Hrank Hlim Hinh Hname Hctx.
  destruct (_get_field_info_total reg rank Hrank f limit M Hlim) as (r & Hr & Hsome).
  destruct (_get_method_info_total reg rank Hrank f limit M Hlim) as (r' & Hr').
  destruct r as [fv|]; [|now elim Hsome].
  exists (field_hit M obj f fv self). split; [|split].
  - simpl. unfold attribute_of_name. rewrite Hctx.
    apply String.eqb_neq in Hname. rewrite Hname. simpl.
    rewrite Hr, Hr'. reflexivity.
  - apply field_tracked_field_hit.
  - unfold _mark_usage_from_collector. simpl. rewrite HM.
    destruct (field_used_frame reg M f 100 HM (Hres M)) as (reg2 & Hrun2 & _ & Hsame2).
    rewrite Hrun2. simpl. f_equal. now apply Hsame2.
Qed.

Lemma field_used_reaches_direct_parents_only_witness :
  field_used Examples.chain "leaf" "priority" 25 = Ok Examples.chain
  /\ exists after,
       visit 1000 Examples.chain (ast.Attribute (ast.Name "self") "priority")
         (FieldCollector_init "leaf" []) = Ok after
       /\ field_tracked after "leaf" "priority"
       /\ _mark_usage_from_collector 1000 [("leaf", mkUsage ["priority"] [])]
            Examples.chain = Ok Examples.chain.
Proof.
  destruct (field_used_reaches_direct_parents_only Examples.chain "leaf"
              "priority" 25 eq_refl (resolvedb_parents Examples.chain eq_refl))
    as (reg' & Hrun & _ & Hsame).
  assert (Hparents : forall p, In p (parents_of Examples.chain "leaf") ->
                               declares_field Examples.chain p "priority" = false).
  { intros p [<-|[]]. reflexivity. }
  destruct (Hsame eq_refl Hparents) as (-> & Hvisit).
  split; [exact Hrun|].
  apply (Hvisit 1000%nat Examples.depth).
  - apply rankedb_parents. reflexivity.
  - unfold Examples.depth. simpl. lia.
  - apply (inherits_parent _ _ "leaf" "mid"); [now left|].
    apply (inherits_parent _ _ "mid" "base"); [now left|].
    now apply inherits_own.
  - discriminate.
  - reflexivity.
Defined.

(** ** Downward propagation of a method use *)

Section Propagation.
(** The method name, and the part of the registry the propagation reads
    but never writes: children, registered names, declarers of [m]. *)
Variables (m : string) (children : string -> list string)
          (present declares : string -> bool) (rank : string -> nat).
Hypothesis children_ranked : ranked children rank.
Hypothesis children_present :
  forall model c, In c (children model) -> present c = true.

Definition fits (reg : registry) : Prop :=
  (forall Y, children_of reg Y = children Y)
  /\ (forall Y, dmem Y reg = present Y)
  /\ (forall Y, declares_method reg Y m = declares Y).

(** From [r1] to [r2] method scores stay, or become 0 on a model in [S]. *)
Definition evolves (S : string -> Prop) (r1 r2 : registry) : Prop :=
  forall Y k,
    method_score r2 Y k = method_score r1 Y k
    \/ (k = m /\ S Y /\ declares Y = true /\ method_score r2 Y k = Some 0).

Lemma evolves_refl S r : evolves S r r.
Proof. intros Y k. now left. Qed.

Lemma evolves_trans S r1 r2 r3 :
  evolves S r1 r2 -> evolves S r2 r3 -> evolves S r1 r3.
Proof.
  intros H12 H23 Y k.
  destruct (H23 Y k) as [E23|?]; [|now right].
  destruct (H12 Y k) as [E12|(? & ? & ? & E12)].
  - left. congruence.
  - right. repeat split; auto. congruence.
Qed.

Lemma evolves_weaken (S S' : string -> Prop) r1 r2 :
  (forall Y, S Y -> S' Y) -> evolves S r1 r2 -> evolves S' r1 r2.
Proof.
  intros Hsub H Y k. destruct (H Y k) as [|(? & ? & ? & ?)]; [now left|].
  right. auto.
Qed.

Lemma evolves_keeps_zero S r1 r2 Y k :
  evolves S r1 r2 -> method_score r1 Y k = Some 0 ->
  method_score r2 Y k = Some 0.
Proof.
  intros H Hz. destruct (H Y k) as [E|(_ & _ & _ & E)]; congruence.
Qed.

Lemma fits_set reg X v : fits reg -> fits (set_method_score reg X m v).
Proof.
  intros (Hc & Hp & Hd). repeat split; intros Y.
  - now rewrite children_of_set_method_score.
  - now rewrite dmem_set_method_score.
  - now rewrite declares_method_set_method_score.
Qed.

(** Writing the 0 of one child. *)
Lemma zero_child reg self c cm :
  fits reg -> In c (children self) -> dget c reg = Some cm ->
  let reg' := if dmem m (ModelValue.methods cm)
              then set_method_score reg c m 0 else reg in
  fits reg'
  /\ evolves (reachable children self) reg reg'
  /\ (declares c = true -> method_score reg' c m = Some 0).
Proof.
  intros Hfit Hin Hc. pose proof Hfit as (_ & _ & Hd).
  assert (Hdc : declares c = dmem m (ModelValue.methods cm)).
  { rewrite <- Hd. unfold declares_method. now rewrite Hc. }
  simpl. destruct (dmem m (ModelValue.methods cm)) eqn:Em.
  - split; [now apply fits_set|split].
    + intros Y k.
      destruct (string_dec c Y) as [HY|HY]; destruct (string_dec m k) as [Hk|Hk];
        [subst; right; repeat split; auto;
         [now apply reachable_edge
         |apply method_score_set_same; unfold declares_method; now rewrite Hc]
        |..]; (left; apply method_score_set_other; tauto).
    + intros _. apply method_score_set_same. unfold declares_method.
      now rewrite Hc.
  - split; [auto|split; [apply evolves_refl|congruence]].
Qed.

Lemma method_used_child_spec :
  forall fuel reg self,
    fits reg -> present self = true -> (rank self < fuel)%nat ->
    exists reg',
      method_used_child fuel reg self m = Ok reg'
      /\ fits reg'
      /\ evolves (reachable children self) reg reg'
      /\ (forall d, reachable children self d -> declares d = true ->
                    method_score reg' d m = Some 0).
Proof.
  induction fuel as [|fuel IH]; intros reg self Hfit Hself Hrank; [lia|].
  simpl. pose proof Hfit as (Hc & Hp & Hd).
  rewrite <- Hp in Hself. unfold dmem in Hself.
  destruct (dget self reg) as [ms|] eqn:Es; [|discriminate].
  assert (Hkids : ModelValue.child_models ms = children self).
  { rewrite <- Hc. unfold children_of. now rewrite Es. }
  rewrite Hkids.
  assert (Hloop : forall l reg1,
             incl l (children self) -> fits reg1 ->
             exists reg2,
               for_each
                 (fun child reg =>
                    match dget child reg with
                    | None => Raise (none_has_no "methods")
                    | Some c =>
                        method_used_child fuel
                          (if dmem m (ModelValue.methods c)
                           then set_method_score reg child m 0 else reg)
                          child m
                    end) l reg1 = Ok reg2
               /\ fits reg2
               /\ evolves (reachable children self) reg1 reg2
               /\ (forall c, In c l -> forall d,
                      d = c \/ reachable children c d ->
                      declares d = true -> method_score reg2 d m = Some 0)).
  { induction l as [|c l IHl]; intros reg1 Hincl Hfit1; simpl.
    - exists reg1.
      split; [reflexivity|split; [assumption|split; [apply evolves_refl|]]].
      intros c [].
    - assert (Hin : In c (children self)) by (apply Hincl; now left).
      pose proof Hfit1 as (_ & Hp1 & _).
      assert (Hpc : dmem c reg1 = true).
      { rewrite Hp1. eapply children_present; eauto. }
      unfold dmem in Hpc.
      destruct (dget c reg1) as [cm|] eqn:Ec; [|discriminate].
      destruct (zero_child reg1 self c cm Hfit1 Hin Ec) as (Hfa & Hea & Hza).
      destruct (IH _ c Hfa) as (reg1b & Hrun & Hfb & Heb & Hzb).
      { eapply children_present; eauto. }
      { pose proof (children_ranked self c Hin). lia. }
      rewrite Hrun. simpl.
      destruct (IHl reg1b) as (reg2 & Hrest & Hf2 & He2 & Hz2); auto.
      { intros x Hx. apply Hincl. now right. }
      assert (Hsub : forall Y, reachable children c Y ->
                               reachable children self Y).
      { intros Y HY. eapply reachable_step; eauto. }
      exists reg2. split; [auto|split; [auto|split]].
      + eapply evolves_trans; [|exact He2].
        eapply evolves_trans; [exact Hea|].
        eapply evolves_weaken; eauto.
      + intros c' [<-|Hc'] d Hd' Hdecl.
        * eapply evolves_keeps_zero; [exact He2|].
          destruct Hd' as [->|Hreach]; [|now apply Hzb].
          eapply evolves_keeps_zero; [exact Heb|]. now apply Hza.
        * eapply Hz2; eauto. }
  destruct (Hloop (children self) reg) as (reg' & Hrun & Hf' & He' & Hz');
    auto using incl_refl.
  exists reg'. split; [auto|split; [auto|split; [auto|]]].
  intros d Hd' Hdecl.
  inversion Hd' as [? ? Hin|? c ? Hin Hreach]; subst.
  - eapply Hz'; eauto.
  - eapply Hz'; eauto.
Qed.

Lemma reachable_rank a b : reachable children a b -> (rank b < rank a)%nat.
Proof.
  induction 1 as [a b Hin|a b c Hin _ IH].
  - now apply children_ranked.
  - pose proof (children_ranked a b Hin). lia.
Qed.
End Propagation.

Lemma linkedb_sound reg : linkedb reg = true -> linked reg.
Proof.
  unfold linkedb, linked. rewrite forallb_forall. intros H model parent Hin.
  unfold parents_of in Hin.
  destruct (dget model reg) as [mv|] eqn:Em; [|destruct Hin].
  apply dget_In, H in Em. simpl in Em. rewrite forallb_forall in Em.
  now apply str_in_In, Em.
Qed.

(** C9.  In a registry whose child links have no cycle and name registered
    models, [method_used(m, c)] on a model [M] declaring [m] with score [s]
    returns; [M]'s own score becomes [max(s - c, 0)], and every transitive
    child declaring [m] has score 0 whatever [c] is.  [field_used] on [M]
    changes no field score of any transitive child. *)
Theorem method_used_zeroes_descendants :
  forall reg rank M m c s fuel,
    ranked (children_of reg) rank ->
    resolved reg (children_of reg) ->
    resolved reg (parents_of reg) ->
    linked reg ->
    (rank M < fuel)%nat ->
    method_score reg M m = Some s ->
    exists reg',
      method_used fuel reg M m c = Ok reg'
      /\ method_score reg' M m = Some (lower s c)
      /\ (forall C, descendant reg M C -> declares_method reg C m = true ->
                    method_score reg' C m = Some 0)
      /\ (forall f c', exists reg'',
             field_used reg M f c' = Ok reg''
             /\ forall C g, descendant reg M C ->
                            field_score reg'' C g = field_score reg C g).
Proof.
  intros reg rank M m c s fuel Hranked Hkids Hparents Hlinked Hfuel Hs.
  unfold method_score in Hs.
  destruct (dget M reg) as [mM|] eqn:EM; [|discriminate].
  destruct (dget m (ModelValue.methods mM)) as [mv|] eqn:Em; [|discriminate].
  simpl in Hs. inversion Hs; subst s. clear Hs.
  assert (HM : dmem M reg = true) by (unfold dmem; now rewrite EM).
  assert (Hdecl : declares_method reg M m = true).
  { unfold declares_method, dmem. now rewrite EM, Em. }
  set (reg0 := set_method_score reg M m
                 (lower (MethodValue.unused_percentage mv) c)).
  destruct (method_used_child_spec m (children_of reg) (fun Y => dmem Y reg)
              (fun Y => declares_method reg Y m) rank Hranked Hkids
              fuel reg0 M)
    as (reg' & Hrun & _ & Hev & Hzero); auto.
  { apply fits_set. repeat split; auto. }
  exists reg'. split; [|split; [|split]].
  - unfold method_used. now rewrite EM, Em.
  - destruct (Hev M m) as [E|(_ & Hself & _)].
    + rewrite E. now apply method_score_set_same.
    + apply (reachable_rank (children_of reg) rank Hranked) in Hself. lia.
  - intros C HC HdC. now apply Hzero.
  - intros f c'.
    destruct (field_used_frame reg M f c' HM (Hparents M))
      as (reg'' & Hrun'' & Hframe & _).
    exists reg''. split; [auto|]. intros C g HC.
    pose proof (reachable_rank (children_of reg) rank Hranked M C HC) as HrC.
    assert (Hdec : forall a b : option Z, {a = b} + {a <> b}).
    { decide equality. apply Z.eq_dec. }
    destruct (Hdec (field_score reg'' C g) (field_score reg C g)) as [|Hdiff];
      [auto|].
    apply Hframe in Hdiff. destruct Hdiff as (_ & [->|Hpar]); [lia|].
    apply Hlinked in Hpar. apply Hranked in Hpar. lia.
Qed.

Lemma method_used_zeroes_descendants_witness :
  exists reg',
    method_used 1000 Examples.chain "base" "run" 25 = Ok reg'
    /\ method_score reg' "base" "run" = Some 75
    /\ method_score reg' "mid" "run" = Some 0
    /\ method_score reg' "leaf" "run" = Some 0.
Proof.
  destruct (method_used_zeroes_descendants Examples.chain Examples.height
              "base" "run" 25 100 1000
              (rankedb_children Examples.chain Examples.height eq_refl)
              (resolvedb_children Examples.chain eq_refl)
              (resolvedb_parents Examples.chain eq_refl)
              (linkedb_sound Examples.chain eq_refl))
    as (reg' & Hrun & Hself & Hzero & _);
    [unfold Examples.height; simpl; lia|reflexivity|].
  exists reg'. split; [exact Hrun|split; [exact Hself|split]].
  - apply Hzero; [|reflexivity]. apply reachable_edge. now left.
  - apply Hzero; [|reflexivity].
    apply (reachable_step _ "base" "mid" "leaf"); [now left|].
    apply reachable_edge. now left.
Defined.

(** ** The walker *)

(** Induction over expressions, with the statement for every child in a list. *)
Section ExprInduction.
Variable P : ast.expr -> Prop.
Hypothesis HName : forall id, P (ast.Name id).
Hypothesis HConstant : forall c, P (ast.Constant c).
Hypothesis HAttribute : forall v a, P v -> P (ast.Attribute v a).
Hypothesis HSubscript : forall v s, P v -> P s -> P (ast.Subscript v s).
Hypothesis HCall :
  forall f args kws, P f -> Forall P args -> Forall P kws ->
                     P (ast.Call f args kws).
Hypothesis HLambda :
  forall po ar kd d b, Forall P kd -> Forall P d -> P b ->
                       P (ast.Lambda po ar kd d b).
Hypothesis HComp :
  forall e gens, P e -> Forall P gens -> P (ast.Comp e gens).
Hypothesis Hcomprehension :
  forall t i ifs, P t -> P i -> Forall P ifs -> P (ast.comprehension t i ifs).
Hypothesis HOther : forall children, Forall P children -> P (ast.Other children).

Fixpoint expr_nested_ind (e : ast.expr) : P e :=
  let all :=
    fix all (l : list ast.expr) : Forall P l :=
      match l with
      | [] => Forall_nil P
      | x :: l' => Forall_cons x (expr_nested_ind x) (all l')
      end in
  match e with
  | ast.Name id => HName id
  | ast.Constant c => HConstant c
  | ast.Attribute v a => HAttribute v a (expr_nested_ind v)
  | ast.Subscript v s => HSubscript v s (expr_nested_ind v) (expr_nested_ind s)
  | ast.Call f args kws =>
      HCall f args kws (expr_nested_ind f) (all args) (all kws)
  | ast.Lambda po ar kd d b =>
      HLambda po ar kd d b (all kd) (all d) (expr_nested_ind b)
  | ast.Comp e gens => HComp e gens (expr_nested_ind e) (all gens)
  | ast.comprehension t i ifs =>
      Hcomprehension t i ifs (expr_nested_ind t) (expr_nested_ind i) (all ifs)
  | ast.Other children => HOther children (all children)
  end.
End ExprInduction.

Lemma fields_kept_refl s : fields_kept s s.
Proof. intros model x H. exact H. Qed.

Lemma fields_kept_trans s1 s2 s3 :
  fields_kept s1 s2 -> fields_kept s2 s3 -> fields_kept s1 s3.
Proof. intros H12 H23 model x H. auto. Qed.

Lemma fields_kept_same s s' :
  used_fields_by_model s' = used_fields_by_model s -> fields_kept s s'.
Proof. intros E model x. unfold field_tracked. now rewrite E. Qed.

Lemma fields_kept_track model x s :
  fields_kept s (_track_field_usage model x s).
Proof.
  intros model' x' (old & Hget & Hin).
  unfold field_tracked, _track_field_usage, track. simpl.
  destruct (string_dec model model') as [->|Hne].
  - rewrite dget_dset_eq, Hget. eexists. split; [reflexivity|].
    apply set_add_In. now right.
  - rewrite dget_dset_neq by assumption. eauto.
Qed.

Lemma fields_kept_pop s s' : pop s = Ok s' -> fields_kept s s'.
Proof.
  unfold pop. destruct (model_context_stack s); [discriminate|].
  intros H. inversion H. now apply fields_kept_same.
Qed.

Create HintDb kept.
#[export] Hint Resolve fields_kept_refl fields_kept_track fields_kept_pop : kept.

(** Closes a goal [fields_kept s s'] when [H : Ok _ = Ok s']. *)
Ltac returned H := solve [inversion H; subst; auto with kept].

Section WalkerFacts.
Variables (limit : nat) (reg : registry).

Lemma fields_kept_field_hit model obj name f s :
  fields_kept s (field_hit model obj name f s).
Proof.
  unfold field_hit. destruct (comodel_of f); [|auto with kept].
  eapply fields_kept_trans; [apply fields_kept_track|].
  now apply fields_kept_same.
Qed.

Lemma fields_kept_track_method model x s :
  fields_kept s (_track_method_usage model x s).
Proof. now apply fields_kept_same. Qed.

Hint Resolve fields_kept_field_hit fields_kept_track_method : kept.

Lemma fields_kept_attribute_of_name obj name s s' :
  attribute_of_name limit reg obj name s = Ok s' -> fields_kept s s'.
Proof.
  unfold attribute_of_name. intros H.
  destruct (_get_context_for_name _ _) as [model|]; [|returned H].
  destruct (negb _); [|returned H].
  apply bind_Ok in H as (fv & _ & H).
  apply bind_Ok in H as (mv & _ & H).
  destruct fv as [f|]; [returned H|]. destruct mv; returned H.
Qed.

Lemma fields_kept_attribute_of_chain name s s' :
  attribute_of_chain limit reg name s = Ok s' -> fields_kept s s'.
Proof.
  unfold attribute_of_chain. intros H.
  destruct (model_context_stack s) as [|[pm po] [|b rest]];
    [returned H|returned H|].
  apply bind_Ok in H as (fv & _ & H).
  apply bind_Ok in H as (mv & _ & H).
  destruct fv as [f|]; [|destruct mv; returned H].
  destruct (_ && _); [|returned H].
  eapply fields_kept_trans; [apply fields_kept_field_hit|].
  eapply fields_kept_pop; eauto.
Qed.

Lemma fields_kept_handle_orm args model method s s' :
  _handle_orm_context_change limit reg args model method s = Ok s' ->
  fields_kept s s'.
Proof.
  unfold _handle_orm_context_change. intros H.
  destruct (str_in method _); [|returned H].
  destruct args as [|a rest]; [returned H|].
  destruct a as [| c | | | | | | |]; try returned H.
  destruct c as [field|]; [|returned H].
  destruct (String.eqb method "mapped"); [|returned H].
  apply bind_Ok in H as (fv & _ & H).
  destruct fv as [f|]; [|returned H].
  destruct (comodel_of f); [|returned H].
  inversion H. eapply fields_kept_trans; [apply fields_kept_track|].
  now apply fields_kept_same.
Qed.

Lemma fields_kept_call_of_method method args s s' :
  call_of_method limit reg method args s = Ok s' -> fields_kept s s'.
Proof.
  unfold call_of_method. intros H.
  destruct (model_context_stack s) as [|[model obj] rest]; [returned H|].
  apply bind_Ok in H as (mv & _ & H).
  apply bind_Ok in H as (s1 & Hs1 & H).
  assert (H1 : fields_kept s s1).
  { assert (Hm : fields_kept s
                   match mv with
                   | Some _ => _track_method_usage model method s
                   | None => s
                   end) by (destruct mv; auto with kept).
    destruct (str_in method bulk_operations).
    - eapply fields_kept_trans; [exact Hm|].
      eapply fields_kept_handle_orm; eauto.
    - inversion Hs1. now subst. }
  eapply fields_kept_trans; [exact H1|].
  destruct (model_context_stack s1) as [|[model1 obj1] rest1]; [returned H|].
  destruct (str_in obj1 transient_markers); [eauto with kept|returned H].
Qed.

Lemma fields_kept_for_each (l : list ast.expr) :
  Forall (fun e => forall s s', visit limit reg e s = Ok s' -> fields_kept s s') l ->
  forall s s', for_each (visit limit reg) l s = Ok s' -> fields_kept s s'.
Proof.
  induction 1 as [|e l He _ IH]; intros s s' H; simpl in H.
  - inversion H. auto with kept.
  - apply bind_Ok in H as (s1 & H1 & H).
    eapply fields_kept_trans; eauto.
Qed.
End WalkerFacts.

Section WalkerInduction.
Variables (limit : nat) (reg : registry).

Let kept (e : ast.expr) : Prop :=
  forall s s', visit limit reg e s = Ok s' -> fields_kept s s'.

Lemma visit_Call_eq func args keywords s :
  visit limit reg (ast.Call func args keywords) s =
  (s <- match func with
        | ast.Attribute obj method_name =>
            s <- visit limit reg obj s ;;
            call_of_method limit reg method_name args s
        | _ => Ok s
        end ;;
   s <- visit limit reg func s ;;
   s <- visit_each limit reg args s ;;
   visit_each limit reg keywords s).
Proof. reflexivity. Qed.

Lemma visit_Attribute_eq value attr s :
  visit limit reg (ast.Attribute value attr) s =
  (s <- match value with
        | ast.Name obj_name => attribute_of_name limit reg obj_name attr s
        | ast.Attribute _ _ | ast.Call _ _ _ =>
            s <- visit limit reg value s ;; attribute_of_chain limit reg attr s
        | _ => Ok s
        end ;;
   visit limit reg value s).
Proof. reflexivity. Qed.

Lemma visit_Lambda_eq posonlyargs args kw_defaults defaults body s :
  visit limit reg (ast.Lambda posonlyargs args kw_defaults defaults body) s =
  let generic_visit :=
    s <- visit_each limit reg kw_defaults s ;;
    s <- visit_each limit reg defaults s ;;
    visit limit reg body s in
  match model_context_stack s with
  | [] => generic_visit
  | (model_name, _) :: _ =>
      match lambda_arg_name posonlyargs args with
      | Some arg =>
          if negb (String.eqb arg "") then
            s <- visit limit reg body (push (model_name, arg) s) ;; pop s
          else generic_visit
      | None => generic_visit
      end
  end.
Proof. reflexivity. Qed.

Lemma kept_each l :
  Forall (fun e => kept e
                   /\ match e with ast.Attribute obj _ => kept obj | _ => True end) l ->
  forall s s', visit_each limit reg l s = Ok s' -> fields_kept s s'.
Proof.
  intros H. apply fields_kept_for_each.
  eapply Forall_impl; [|exact H]. intros a Ha. exact (proj1 Ha).
Qed.

Ltac chain :=
  first [eassumption
        |apply fields_kept_refl
        |eapply fields_kept_trans; [eassumption|chain]].

(** A visit never removes a recorded field; for an attribute node the
    statement is carried for its object too, which [visit_Call] visits. *)
Lemma visit_keeps_fields_and_object e :
  kept e /\ match e with ast.Attribute obj _ => kept obj | _ => True end.
Proof.
  induction e using expr_nested_ind.
  - split; [|exact I]. intros s s' H. simpl in H. returned H.
  - split; [|exact I]. intros s s' H. simpl in H. returned H.
  - destruct IHe as (IHv & _). split; [|exact IHv].
    intros s s' H. rewrite visit_Attribute_eq in H.
    apply bind_Ok in H as (s1 & H1 & H).
    apply IHv in H.
    assert (K1 : fields_kept s s1); [|chain].
    destruct e; try returned H1.
    + eapply fields_kept_attribute_of_name; eauto.
    + apply bind_Ok in H1 as (s0 & H0 & H1).
      apply IHv in H0. apply fields_kept_attribute_of_chain in H1. chain.
    + apply bind_Ok in H1 as (s0 & H0 & H1).
      apply IHv in H0. apply fields_kept_attribute_of_chain in H1. chain.
  - destruct IHe1 as (IH1 & _), IHe2 as (IH2 & _). split; [|exact I].
    intros s s' H. simpl in H.
    apply bind_Ok in H as (s1 & H1 & H).
    apply IH1 in H1. apply IH2 in H.
    assert (K : fields_kept s
                  match env_lookup e1 e2 with
                  | Some model => push (model, "env_call") s
                  | None => s
                  end).
    { destruct (env_lookup e1 e2);
        [now apply fields_kept_same|auto with kept]. }
    exact (fields_kept_trans _ _ _ K (fields_kept_trans _ _ _ H1 H)).
  - destruct IHe as (IHf & IHobj). split; [|exact I].
    intros s s' Hv. rewrite visit_Call_eq in Hv.
    apply bind_Ok in Hv as (s1 & H1 & Hv).
    apply bind_Ok in Hv as (s2 & H2 & Hv).
    apply bind_Ok in Hv as (s3 & H3 & Hv).
    apply IHf in H2. apply (kept_each _ H) in H3. apply (kept_each _ H0) in Hv.
    assert (K1 : fields_kept s s1); [|chain].
    destruct e; try returned H1.
    apply bind_Ok in H1 as (s0 & H0' & H1).
    apply IHobj in H0'. apply fields_kept_call_of_method in H1. chain.
  - destruct IHe as (IHb & _). split; [|exact I].
    assert (Hgeneric : forall s s',
               (s <- visit_each limit reg kd s ;;
                s <- visit_each limit reg d s ;;
                visit limit reg e s) = Ok s' -> fields_kept s s').
    { intros s s' Hg.
      apply bind_Ok in Hg as (s1 & H1 & Hg).
      apply bind_Ok in Hg as (s2 & H2 & Hg).
      apply (kept_each _ H) in H1. apply (kept_each _ H0) in H2.
      apply IHb in Hg. chain. }
    intros s s' Hv. rewrite visit_Lambda_eq in Hv. cbv zeta in Hv.
    destruct (model_context_stack s) as [|[model obj] rest]; [auto|].
    destruct (lambda_arg_name po ar) as [arg|]; [|auto].
    destruct (negb (String.eqb arg "")); [|auto].
    apply bind_Ok in Hv as (s1 & H1 & Hv).
    apply IHb in H1. apply fields_kept_pop in Hv.
    assert (K : fields_kept s (push (model, arg) s))
      by now apply fields_kept_same.
    exact (fields_kept_trans _ _ _ K (fields_kept_trans _ _ _ H1 Hv)).
  - destruct IHe as (IHelt & _). split; [|exact I].
    intros s s' Hv. simpl in Hv.
    apply bind_Ok in Hv as (s1 & H1 & Hv).
    apply bind_Ok in Hv as (s2 & H2 & Hv).
    apply IHelt in H1. apply (kept_each _ H) in H2.
    assert (K : fields_kept s2 s')
      by (inversion Hv; now apply fields_kept_same).
    chain.
  - destruct IHe2 as (IHiter & _). split; [|exact I].
    intros s s' Hv. simpl in Hv.
    apply bind_Ok in Hv as (s1 & H1 & Hv).
    apply IHiter in H1.
    assert (K : fields_kept s1 s'); [|chain].
    destruct (model_context_stack s1) as [|[model obj] rest]; [returned Hv|].
    destruct e1; try returned Hv.
    apply (kept_each _ H) in Hv.
    assert (K : fields_kept s1 (push (model, id) s1))
      by now apply fields_kept_same.
    exact (fields_kept_trans _ _ _ K Hv).
  - split; [|exact I].
    intros s s' Hv. simpl in Hv. eapply kept_each; eauto.
Qed.

Lemma visit_keeps_fields e s s' :
  visit limit reg e s = Ok s' -> fields_kept s s'.
Proof. apply visit_keeps_fields_and_object. Qed.

Lemma visit_each_keeps_fields l s s' :
  visit_each limit reg l s = Ok s' -> fields_kept s s'.
Proof.
  apply fields_kept_for_each. apply Forall_forall.
  intros e _. apply visit_keeps_fields.
Qed.
End WalkerInduction.

(** The closing step of [visit_Call]: a transient marker on top is popped. *)
Lemma consume_marker_keeps_fields s :
  exists s',
    match model_context_stack s with
    | (_, obj_name) :: _ =>
        if str_in obj_name transient_markers then pop s else Ok s
    | [] => Ok s
    end = Ok s'
    /\ fields_kept s s'.
Proof.
  unfold pop. destruct (model_context_stack s) as [|[model obj] rest] eqn:E.
  - exists s. auto with kept.
  - destruct (str_in obj transient_markers).
    + eexists. split; [reflexivity|]. now apply fields_kept_same.
    + exists s. auto with kept.
Qed.

(** C1 (amended).  For [obj.m(arg0, ...)] with [m] one of [mapped],
    [filtered], [filtered_domain], [arg0] a string literal and a non-empty
    binding stack after the visit of [obj], on a registry with acyclic parent
    links: the call handler returns and has recorded [arg0] as a used field of
    the model on top of that stack, and every completed visit of the call node
    still has it.  For [search] the helper records nothing.  For [mapped],
    when the field resolves to one with a target model, the helper pushes
    [(target, "mapped_call")]. *)
Theorem bulk_call_records_literal_field :
  forall limit reg rank obj method arg0 rest keywords s s1 model name stack,
    ranked (parents_of reg) rank -> (rank model < limit)%nat ->
    In method ["mapped"; "filtered"; "filtered_domain"] ->
    visit limit reg obj s = Ok s1 ->
    model_context_stack s1 = (model, name) :: stack ->
    let args := ast.Constant (ast.CStr arg0) :: rest in
    (exists s2, call_of_method limit reg method args s1 = Ok s2
                /\ field_tracked s2 model arg0)
    /\ (forall s',
           visit limit reg (ast.Call (ast.Attribute obj method) args keywords) s
           = Ok s' ->
           field_tracked s' model arg0)
    /\ _handle_orm_context_change limit reg args model "search" s1 = Ok s1
    /\ (forall f target,
           _get_field_info limit reg model arg0 = Ok (Some f) ->
           comodel_of f = Some target ->
           _handle_orm_context_change limit reg args model "mapped" s1
           = Ok (push (target, "mapped_call") (_track_field_usage model arg0 s1))).
Proof.
  intros limit reg rank obj method arg0 rest keywords s s1 model name stack
         Hrank Hlim Hmethod Hobj Hstack args.
  destruct (_get_method_info_total reg rank Hrank method limit model Hlim)
    as (mv & Hmv).
  destruct (_get_field_info_total reg rank Hrank arg0 limit model Hlim)
    as (fv & Hfv & _).
  assert (Hhandler : forall s0,
             exists s2,
               _handle_orm_context_change limit reg args model method s0 = Ok s2
               /\ field_tracked s2 model arg0).
  { intros s0. unfold _handle_orm_context_change, args.
    assert (Hin : str_in method ["mapped"; "filtered"; "filtered_domain"] = true)
      by now apply str_in_In.
    rewrite Hin.
    destruct (String.eqb method "mapped").
    - rewrite Hfv. simpl.
      destruct fv as [f|]; [destruct (comodel_of f)|]; eexists;
        (split; [reflexivity|]); apply (field_tracked_track model arg0 s0).
    - eexists. split; [reflexivity|]. apply field_tracked_track. }
  assert (Hcall : exists s2, call_of_method limit reg method args s1 = Ok s2
                             /\ field_tracked s2 model arg0).
  { assert (Hbulk : str_in method bulk_operations = true).
    { apply str_in_In. simpl in Hmethod. simpl. intuition. }
    unfold call_of_method. rewrite Hstack, Hmv. cbn [bind]. rewrite Hbulk.
    destruct (Hhandler match mv with
                       | Some _ => _track_method_usage model method s1
                       | None => s1
                       end) as (s2 & Hs2 & Ht2).
    rewrite Hs2. cbn [bind].
    destruct (consume_marker_keeps_fields s2) as (s3 & Hs3 & Hkept).
    exists s3. split; [exact Hs3|]. now apply Hkept. }
  split; [exact Hcall|split; [|split]].
  - intros s' Hvisit. rewrite visit_Call_eq in Hvisit.
    rewrite Hobj in Hvisit. cbn [bind] in Hvisit.
    destruct Hcall as (s2 & Hs2 & Ht2).
    rewrite Hs2 in Hvisit. cbn [bind] in Hvisit.
    apply bind_Ok in Hvisit as (s3 & H3 & Hvisit).
    apply bind_Ok in Hvisit as (s4 & H4 & Hvisit).
    apply visit_keeps_fields in H3.
    apply visit_each_keeps_fields in H4, Hvisit.
    now apply Hvisit, H4, H3.
  - reflexivity.
  - intros f target Hf Htarget. unfold _handle_orm_context_change, args.
    simpl. rewrite Hf. simpl. now rewrite Htarget.
Qed.

(** The spec's example [self.line_ids.mapped('amount')]. *)
Lemma bulk_call_records_literal_field_witness :
  exists s',
    visit 1000 Examples.sale_declared
      (ast.Call
         (ast.Attribute (ast.Attribute (ast.Name "self") "line_ids") "mapped")
         [ast.Constant (ast.CStr "amount")] [])
      (FieldCollector_init "sale.order" []) = Ok s'
    /\ field_tracked s' "sale.order.line" "amount"
    /\ field_tracked s' "sale.order" "line_ids".
Proof.
  eexists. split; [vm_compute; reflexivity|]. split.
  - eapply (bulk_call_records_literal_field 1000 Examples.sale_declared
              (fun _ => 0%nat)
              (ast.Attribute (ast.Name "self") "line_ids") "mapped" "amount"
              [] [] (FieldCollector_init "sale.order" [])).
    + apply rankedb_parents. reflexivity.
    + lia.
    + now left.
    + vm_compute. reflexivity.
    + reflexivity.
    + vm_compute. reflexivity.
  - eexists. split; [reflexivity|]. now left.
Defined.

(** [self.search('name')] on [sale.order], which declares [name]: the visit
    completes with the stack [(sale.order, self)] and records no field. *)
Lemma search_literal_is_not_recorded :
  let s := FieldCollector_init "sale.order" [] in
  let call := ast.Call (ast.Attribute (ast.Name "self") "search")
                [ast.Constant (ast.CStr "name")] [] in
  declares_field Examples.sale_declared "sale.order" "name" = true
  /\ visit 1000 Examples.sale_declared (ast.Name "self") s = Ok s
  /\ model_context_stack s = [("sale.order", "self")]
  /\ exists s', visit 1000 Examples.sale_declared call s = Ok s'
                /\ ~ field_tracked s' "sale.order" "name".
Proof.
  repeat split. eexists. split; [vm_compute; reflexivity|].
  intros (used & Hget & _). discriminate.
Qed.

(** The marker pushed for [mapped] is popped by the same call handler: after
    [call_of_method] the stack is the one left by the visit of [obj]. *)
Lemma mapped_marker_popped_by_its_call limit reg args model name stack s1 s2 :
  model_context_stack s1 = (model, name) :: stack ->
  str_in name transient_markers = false ->
  call_of_method limit reg "mapped" args s1 = Ok s2 ->
  model_context_stack s2 = model_context_stack s1.
Proof.
  intros Hstack Hname H. unfold call_of_method in H. rewrite Hstack in H.
  apply bind_Ok in H as (mv & _ & H).
  change (str_in "mapped" bulk_operations) with true in H. cbv iota in H.
  apply bind_Ok in H as (s & Hs & H).
  set (s0 := match mv with
             | Some _ => _track_method_usage model "mapped" s1
             | None => s1
             end) in *.
  assert (H0 : model_context_stack s0 = (model, name) :: stack)
    by (unfold s0; destruct mv; exact Hstack).
  assert (Hplain : model_context_stack s = (model, name) :: stack ->
                   model_context_stack s2 = model_context_stack s1).
  { intros E. rewrite E, Hname in H. inversion H. subst. congruence. }
  unfold _handle_orm_context_change in Hs.
  change (str_in "mapped" ["mapped"; "filtered"; "filtered_domain"])
    with true in Hs.
  change (String.eqb "mapped" "mapped") with true in Hs. cbv iota in Hs.
  destruct args as [|a rest]; [inversion Hs; subst; auto|].
  destruct a as [| c | | | | | | |]; try (inversion Hs; subst; auto; fail).
  destruct c as [field|]; [|inversion Hs; subst; auto].
  apply bind_Ok in Hs as (fv & _ & Hs).
  destruct fv as [f|]; [|inversion Hs; subst; auto].
  destruct (comodel_of f) as [target|]; [|inversion Hs; subst; auto].
  inversion Hs. subst s. simpl in H. unfold pop in H. simpl in H.
  inversion H. simpl. congruence.
Qed.

(** ** The walk of a related path *)

Lemma names_are_keysb_sound reg : names_are_keysb reg = true -> names_are_keys reg.
Proof.
  unfold names_are_keysb, names_are_keys. rewrite forallb_forall.
  intros H key m Hget. apply dget_In, H in Hget. now apply String.eqb_eq.
Qed.

Lemma scores_boundedb_sound reg : scores_boundedb reg = true -> scores_bounded reg.
Proof.
  unfold scores_boundedb, scores_bounded, field_score.
  rewrite forallb_forall. intros H model field s Hs.
  destruct (dget model reg) as [m|] eqn:Em; [|discriminate].
  destruct (dget field (ModelValue.fields m)) as [f|] eqn:Ef; [|discriminate].
  apply dget_In, H in Em. simpl in Em. rewrite forallb_forall in Em.
  apply dget_In, Em in Ef. simpl in Ef, Hs. inversion Hs. subst. lia.
Qed.

Lemma same_decls_refl reg : same_decls reg reg.
Proof. split; reflexivity. Qed.

Lemma same_decls_trans r1 r2 r3 :
  same_decls r1 r2 -> same_decls r2 r3 -> same_decls r1 r3.
Proof.
  intros (N12 & A12) (N23 & A23). split; intros; congruence.
Qed.

Lemma same_decls_set_field_score reg X k v :
  same_decls reg (set_field_score reg X k v).
Proof.
  split.
  - intros Y. after_score_write X Y.
    destruct (dget Y reg) as [m|]; auto.
    destruct (dget k (ModelValue.fields m)); auto.
  - intros Y p. unfold field_of. after_score_write X Y.
    destruct (dget Y reg) as [m|]; auto.
    destruct (dget k (ModelValue.fields m)) as [f|] eqn:Ek; auto. simpl.
    destruct (string_dec k p) as [->|Hne].
    + now rewrite dget_dset_eq, Ek.
    + now rewrite dget_dset_neq.
Qed.

Section SameDecls.
Variables reg reg' : registry.
Hypothesis same : same_decls reg reg'.

Lemma same_decls_dmem X : dmem X reg' = dmem X reg.
Proof.
  destruct same as (N & _). specialize (N X). unfold dmem.
  destruct (dget X reg'), (dget X reg); simpl in N; congruence.
Qed.

Lemma same_decls_name_of X : name_of reg' X = name_of reg X.
Proof.
  destruct same as (N & _). specialize (N X). unfold name_of.
  destruct (dget X reg'), (dget X reg); simpl in N; congruence.
Qed.

Lemma same_decls_declares X p : declares_field reg' X p = declares_field reg X p.
Proof.
  destruct same as (_ & A). specialize (A X p).
  unfold declares_field, field_of, dmem in *.
  destruct (dget X reg') as [m'|], (dget X reg) as [m|]; simpl in *; auto.
  - destruct (dget p (ModelValue.fields m')), (dget p (ModelValue.fields m));
      simpl in A; congruence.
  - destruct (dget p (ModelValue.fields m')); simpl in A; congruence.
  - destruct (dget p (ModelValue.fields m)); simpl in A; congruence.
Qed.

Lemma same_decls_target X p : field_target reg' X p = field_target reg X p.
Proof.
  destruct same as (_ & A). specialize (A X p). unfold field_target, comodel_of.
  destruct (field_of reg' X p), (field_of reg X p); simpl in A;
    try congruence.
  inversion A. congruence.
Qed.

Lemma same_decls_related X p : field_related reg' X p = field_related reg X p.
Proof.
  destruct same as (_ & A). specialize (A X p). unfold field_related.
  destruct (field_of reg' X p), (field_of reg X p); simpl in A;
    try congruence.
  inversion A. congruence.
Qed.
End SameDecls.

Lemma zeroed_zeroed o : zeroed (zeroed o) = zeroed o.
Proof. now destruct o. Qed.

(** Two rounds of zeroing. *)
Lemma zero_compose (s1 s2 s3 : string -> string -> option Z)
  (A B : string -> string -> bool) :
  (forall X g, s2 X g = if A X g then zeroed (s1 X g) else s1 X g) ->
  (forall X g, s3 X g = if B X g then zeroed (s2 X g) else s2 X g) ->
  forall X g, s3 X g = if A X g || B X g then zeroed (s1 X g) else s1 X g.
Proof.
  intros H2 H3 X g. rewrite H3, H2.
  destruct (A X g), (B X g); simpl; auto using zeroed_zeroed.
Qed.

Lemma parents_of_set_field_score reg X k v Y :
  parents_of (set_field_score reg X k v) Y = parents_of reg Y.
Proof.
  unfold parents_of. after_score_write X Y.
  destruct (dget Y reg) as [m|]; auto.
  destruct (dget k (ModelValue.fields m)); auto.
Qed.

Lemma same_shape_refl reg : same_shape reg reg.
Proof. split; [apply same_decls_refl|reflexivity]. Qed.

Lemma same_shape_trans r1 r2 r3 :
  same_shape r1 r2 -> same_shape r2 r3 -> same_shape r1 r3.
Proof.
  intros (D12 & P12) (D23 & P23). split.
  - eapply same_decls_trans; eauto.
  - intros X. now rewrite P23.
Qed.

Lemma same_shape_set_field_score reg X k v :
  same_shape reg (set_field_score reg X k v).
Proof.
  split; [apply same_decls_set_field_score|].
  intros Y. apply parents_of_set_field_score.
Qed.

Lemma field_score_declares reg X g :
  declares_field reg X g = false -> field_score reg X g = None.
Proof.
  unfold declares_field, field_score, dmem.
  destruct (dget X reg) as [m|]; [|reflexivity].
  destruct (dget g (ModelValue.fields m)); [discriminate|reflexivity].
Qed.

(** Writing 0 over the score of one field, if the model declares it. *)
Lemma field_score_zero_write reg p f :
  forall X g,
    field_score
      (if declares_field reg p f then set_field_score reg p f 0 else reg) X g
    = if String.eqb g f && String.eqb X p
      then zeroed (field_score reg X g) else field_score reg X g.
Proof.
  intros X g.
  destruct (string_dec g f) as [->|Hg]; destruct (string_dec X p) as [->|HX];
    rewrite ?String.eqb_refl;
    rewrite ?(proj2 (String.eqb_neq _ _) Hg), ?(proj2 (String.eqb_neq _ _) HX);
    cbn [andb].
  - destruct (declares_field reg p f) eqn:Ed.
    + rewrite field_score_set_same by exact Ed.
      unfold declares_field, dmem in Ed. unfold field_score.
      destruct (dget p reg) as [m|]; [|discriminate].
      now destruct (dget f (ModelValue.fields m)).
    + now rewrite (field_score_declares _ _ _ Ed).
  - destruct (declares_field reg p f); [|reflexivity].
    apply field_score_set_other. left. congruence.
  - destruct (declares_field reg p f); [|reflexivity].
    apply field_score_set_other. right. congruence.
  - destruct (declares_field reg p f); [|reflexivity].
    apply field_score_set_other. left. congruence.
Qed.

Lemma scores_bounded_zeroed reg reg' (A : string -> string -> bool) :
  scores_bounded reg ->
  (forall X g, field_score reg' X g
               = if A X g then zeroed (field_score reg X g)
                 else field_score reg X g) ->
  scores_bounded reg'.
Proof.
  intros Hb H X g s Hs. rewrite H in Hs.
  destruct (A X g); [|eapply Hb; eauto].
  destruct (field_score reg X g); simpl in Hs; [|discriminate].
  inversion Hs. lia.
Qed.

(** What one round of [field_used(f, 100)] does to a declared field. *)
Lemma mark_write reg p f mp fv :
  scores_bounded reg ->
  dget p reg = Some mp -> dget f (ModelValue.fields mp) = Some fv ->
  set_field_score reg p f (lower (FieldValue.unused_percentage fv) 100)
  = (if declares_field reg p f then set_field_score reg p f 0 else reg).
Proof.
  intros Hb Ep Ef.
  assert (Hd : declares_field reg p f = true)
    by (unfold declares_field, dmem; now rewrite Ep, Ef).
  rewrite Hd. f_equal. apply lower_full.
  apply (Hb p f). unfold field_score. now rewrite Ep, Ef.
Qed.

Lemma mark_skip reg p f mp :
  dget p reg = Some mp -> dget f (ModelValue.fields mp) = None ->
  reg = (if declares_field reg p f then set_field_score reg p f 0 else reg).
Proof.
  intros Ep Ef. unfold declares_field, dmem. now rewrite Ep, Ef.
Qed.

(** The loop of [field_used(f, 100)] over registered parents: the field is
    zeroed on each of them that declares it. *)
Lemma mark_parents f :
  forall l reg,
    (forall p, In p l -> dmem p reg = true) -> scores_bounded reg ->
    exists reg',
      for_each
        (fun inherited reg =>
           match dget inherited reg with
           | None => Raise (none_has_no "fields")
           | Some p =>
               match dget f (ModelValue.fields p) with
               | Some fv =>
                   Ok (set_field_score reg inherited f
                         (lower (FieldValue.unused_percentage fv) 100))
               | None => Ok reg
               end
           end) l reg = Ok reg'
      /\ same_shape reg reg'
      /\ forall X g,
           field_score reg' X g
           = if String.eqb g f && str_in X l
             then zeroed (field_score reg X g) else field_score reg X g.
Proof.
  induction l as [|p l IH]; intros reg Hres Hb.
  - exists reg. split; [reflexivity|]. split; [apply same_shape_refl|].
    intros X g. now rewrite andb_false_r.
  - cbn [for_each]. cbv beta.
    assert (Hmem : dmem p reg = true) by (apply Hres; now left).
    unfold dmem in Hmem.
    destruct (dget p reg) as [mp|] eqn:Ep; [|discriminate].
    remember (if declares_field reg p f then set_field_score reg p f 0
              else reg) as reg1 eqn:E1.
    pose proof (field_score_zero_write reg p f) as H1. rewrite <- E1 in H1.
    assert (Hshape1 : same_shape reg reg1).
    { rewrite E1. destruct (declares_field reg p f);
        [apply same_shape_set_field_score|apply same_shape_refl]. }
    assert (Hb1 : scores_bounded reg1)
      by (eapply scores_bounded_zeroed; [exact Hb|exact H1]).
    destruct (IH reg1) as (reg' & Hrun & Hshape & Hexact); [|exact Hb1|].
    { intros q Hq. rewrite (same_decls_dmem reg reg1 (proj1 Hshape1)).
      apply Hres. now right. }
    exists reg'. split; [|split].
    + destruct (dget f (ModelValue.fields mp)) as [fv|] eqn:Ef; cbn [bind].
      * rewrite (mark_write reg p f mp fv Hb Ep Ef), <- E1. exact Hrun.
      * assert (E : reg1 = reg)
          by (rewrite E1; symmetry; exact (mark_skip reg p f mp Ep Ef)).
        rewrite <- E. exact Hrun.
    + eapply same_shape_trans; eauto.
    + intros X g.
      rewrite (zero_compose _ _ _ _ _ H1 Hexact X g).
      unfold str_in. simpl.
      now destruct (String.eqb g f), (String.eqb X p), (existsb (String.eqb X) l).
Qed.

(** [field_used(part, 100)] on a registered model with registered parents
    returns; it zeroes what [marks] says and nothing else. *)
Lemma mark_step reg reg1 model part :
  resolved reg (parents_of reg) -> dmem model reg = true ->
  same_shape reg reg1 -> scores_bounded reg1 ->
  exists reg2,
    field_used reg1 model part 100 = Ok reg2
    /\ same_shape reg reg2 /\ scores_bounded reg2
    /\ forall X g,
         field_score reg2 X g
         = if marks reg model part X g
           then zeroed (field_score reg1 X g) else field_score reg1 X g.
Proof.
  intros Hres Hmodel Hshape Hb. pose proof Hshape as (Hdecls & Hparents).
  assert (Hmodel1 : dmem model reg1 = true)
    by now rewrite (same_decls_dmem reg reg1 Hdecls).
  assert (Hd : declares_field reg1 model part = declares_field reg model part)
    by apply (same_decls_declares reg reg1 Hdecls).
  assert (Hfinish : forall reg2 (A : string -> string -> bool),
             same_shape reg1 reg2 ->
             (forall X g, field_score reg2 X g
                          = if A X g then zeroed (field_score reg1 X g)
                            else field_score reg1 X g) ->
             (forall X g, A X g = marks reg model part X g) ->
             same_shape reg reg2 /\ scores_bounded reg2
             /\ forall X g,
                  field_score reg2 X g
                  = if marks reg model part X g
                    then zeroed (field_score reg1 X g)
                    else field_score reg1 X g).
  { intros reg2 A Hs2 Hscore HA. split; [|split].
    - eapply same_shape_trans; eauto.
    - eapply scores_bounded_zeroed; eauto.
    - intros X g. rewrite <- HA. apply Hscore. }
  unfold field_used. unfold dmem in Hmodel1.
  destruct (dget model reg1) as [m1|] eqn:Em1; [|discriminate].
  destruct (dget part (ModelValue.fields m1)) as [fv|] eqn:Ef.
  - rewrite (mark_write reg1 model part m1 fv Hb Em1 Ef).
    eexists. split; [reflexivity|].
    assert (Hd1 : declares_field reg1 model part = true)
      by (unfold declares_field, dmem; now rewrite Em1, Ef).
    apply (Hfinish _ (fun X g => String.eqb g part && String.eqb X model)).
    + rewrite Hd1. apply same_shape_set_field_score.
    + apply field_score_zero_write.
    + intros X g. unfold marks. now rewrite <- Hd, Hd1.
  - assert (Hd1 : declares_field reg1 model part = false)
      by (unfold declares_field, dmem; now rewrite Em1, Ef).
    assert (Hl : ModelValue.inherited_models m1 = parents_of reg model).
    { rewrite <- Hparents. unfold parents_of. now rewrite Em1. }
    destruct (mark_parents part (ModelValue.inherited_models m1) reg1)
      as (reg2 & Hrun & Hs2 & Hscore); [|exact Hb|].
    { intros p Hp. rewrite (same_decls_dmem reg reg1 Hdecls).
      apply (Hres model). now rewrite <- Hl. }
    exists reg2. split; [exact Hrun|].
    apply (Hfinish _ (fun X g => String.eqb g part
                                 && str_in X (ModelValue.inherited_models m1)));
      auto.
    intros X g. unfold marks. now rewrite <- Hd, Hd1, Hl.
Qed.

(** The lookup reads names, parents, field names and attributes only. *)
Lemma first_found_same {A B} (R : B -> B -> Prop)
  (f f' : A -> result (option B)) l :
  (forall x r, In x l -> f x = Ok r ->
               exists r', f' x = Ok r'
                          /\ match r, r' with
                             | Some b, Some b' => R b b'
                             | None, None => True
                             | _, _ => False
                             end) ->
  forall r, first_found f l = Ok r ->
            exists r', first_found f' l = Ok r'
                       /\ match r, r' with
                          | Some b, Some b' => R b b'
                          | None, None => True
                          | _, _ => False
                          end.
Proof.
  induction l as [|x l IH]; intros Hf r H; simpl in H |- *.
  - inversion H. exists None. auto.
  - apply bind_Ok in H as (rx & Hx & H).
    destruct (Hf x rx (or_introl eq_refl) Hx) as (rx' & Hx' & Hrel).
    rewrite Hx'. simpl.
    destruct rx as [b|], rx' as [b'|]; try contradiction.
    + inversion H. subst. exists (Some b'). auto.
    + apply IH; [|exact H]. intros y ry Hy. apply Hf. now right.
Qed.

Lemma lookup_same_shape reg reg' name :
  same_shape reg reg' ->
  forall fuel model r,
    _get_field_info fuel reg model name = Ok r ->
    exists r',
      _get_field_info fuel reg' model name = Ok r'
      /\ match r, r' with
         | Some fd, Some fd' =>
             FieldValue.attributes fd' = FieldValue.attributes fd
         | None, None => True
         | _, _ => False
         end.
Proof.
  intros (Hdecls & Hparents).
  induction fuel as [|fuel IH]; intros model r H; simpl in H |- *;
    [discriminate|].
  pose proof (proj1 Hdecls model) as Hname.
  pose proof (proj2 Hdecls model name) as Hattrs.
  pose proof (Hparents model) as Hpar.
  unfold field_of in Hattrs. unfold parents_of in Hpar.
  destruct (dget model reg) as [m|], (dget model reg') as [m'|];
    try discriminate.
  - destruct (dget name (ModelValue.fields m)) as [fd|],
             (dget name (ModelValue.fields m')) as [fd'|];
      try discriminate.
    + inversion H. subst. exists (Some fd'). split; [reflexivity|].
      simpl in Hattrs. now inversion Hattrs.
    + rewrite Hpar.
      apply (first_found_same
               (fun fd fd' => FieldValue.attributes fd'
                              = FieldValue.attributes fd)
               (fun inherited => _get_field_info fuel reg inherited name));
        [|exact H].
      intros x rx _. apply IH.
  - inversion H. exists None. auto.
Qed.

Lemma resolves_registered limit reg n model path target trace :
  resolves limit reg n model path (Some target) trace -> dmem target reg = true.
Proof.
  remember (Some target) as r eqn:Er.
  induction 1; try discriminate; auto. inversion Er. now subst.
Qed.

Section RelatedWalk.
Variables (limit : nat) (reg : registry).
Hypothesis names : names_are_keys reg.
Hypothesis parents_registered : resolved reg (parents_of reg).

(** One step of the walk: the segment is marked, the model is still known
    under its name, and the lookup returns what it returns on [reg], up to
    scores. *)
Lemma segment_step reg1 model part r :
  dmem model reg = true -> same_shape reg reg1 -> scores_bounded reg1 ->
  _get_field_definition limit reg model part = Ok r ->
  exists reg2 r2,
    field_used reg1 model part 100 = Ok reg2
    /\ name_of reg2 model = Ok model
    /\ _get_field_definition limit reg2 model part = Ok r2
    /\ match r, r2 with
       | Some fd, Some fd2 =>
           FieldValue.attributes fd2 = FieldValue.attributes fd
       | None, None => True
       | _, _ => False
       end
    /\ same_shape reg reg2 /\ scores_bounded reg2
    /\ forall X g,
         field_score reg2 X g
         = if marks reg model part X g
           then zeroed (field_score reg1 X g) else field_score reg1 X g.
Proof.
  intros Hmodel Hshape Hb Hlook.
  destruct (mark_step reg reg1 model part parents_registered Hmodel Hshape Hb)
    as (reg2 & Hused & Hshape2 & Hb2 & Hscore).
  destruct (lookup_same_shape reg reg2 part Hshape2 limit model r Hlook)
    as (r2 & Hlook2 & Hrel).
  exists reg2, r2. repeat split; auto; try apply Hshape2.
  rewrite (same_decls_name_of reg reg2 (proj1 Hshape2)). unfold name_of.
  unfold dmem in Hmodel.
  destruct (dget model reg) as [m|] eqn:Em; [|discriminate].
  now rewrite (names model m Em).
Qed.

Lemma walk_unfold fuel reg1 model parts :
  _get_comodel_from_related_path limit (S fuel) reg1 model parts
  = related_loop limit (_get_comodel_from_related_path limit fuel)
      parts reg1 model.
Proof. reflexivity. Qed.

Lemma walk_from_None fuel rest reg1 :
  related_loop limit (_get_comodel_from_related_path limit fuel) rest reg1 None
  = Ok (reg1, None).
Proof. destruct rest; reflexivity. Qed.

Lemma comodel_of_attributes fd fd' :
  FieldValue.attributes fd' = FieldValue.attributes fd ->
  comodel_of fd' = comodel_of fd.
Proof. unfold comodel_of. now intros ->. Qed.

Lemma related_walk_spec n model path r trace :
  resolves limit reg n model path r trace ->
  dmem model reg = true ->
  forall fuel reg1,
    (n < fuel)%nat -> same_shape reg reg1 -> scores_bounded reg1 ->
    exists reg',
      _get_comodel_from_related_path limit fuel reg1 (Some model) path
      = Ok (reg', r)
      /\ same_shape reg reg' /\ scores_bounded reg'
      /\ forall X g,
           field_score reg' X g
           = if marked reg trace X g
             then zeroed (field_score reg1 X g) else field_score reg1 X g.
Proof.
  intros Hres.
  induction Hres as
      [ n model Hreg
      | n model part rest Hlook
      | n model part fd rest Hlook Htarget Hrelated
      | n model part fd target rest Hlook Htarget Hreg
      | n model part fd target rest r trace Hlook Htarget Hreg Hrest IH
      | n model part fd path rest trace Hlook Htarget Htruthy Hrelated Hsub IHsub
      | n model part fd path target rest r trace1 trace2
          Hlook Htarget Htruthy Hrelated Hsub IHsub Hrest IHrest ];
    intros Hmodel fuel reg1 Hfuel Hshape Hb;
    (destruct fuel as [|fuel]; [lia|]); rewrite walk_unfold.
  - (* end of the path *)
    simpl. rewrite (same_decls_name_of reg reg1 (proj1 Hshape)). unfold name_of.
    unfold dmem in Hreg. destruct (dget model reg) as [m|] eqn:Em; [|discriminate].
    rewrite (names model m Em). simpl.
    exists reg1. repeat split; auto; apply Hshape.
  - (* segment declared nowhere *)
    destruct (segment_step reg1 model part None Hmodel Hshape Hb Hlook)
      as (reg2 & r2 & Hused & Hname & Hlook2 & Hrel & Hshape2 & Hb2 & Hscore).
    destruct r2; [contradiction|].
    simpl. rewrite Hused. simpl. rewrite Hname. simpl. rewrite Hlook2. simpl.
    exists reg2. repeat split; auto; try apply Hshape2.
    intros X g. rewrite Hscore. unfold marked. simpl.
    now rewrite orb_false_r.
  - (* neither target nor related path *)
    destruct (segment_step reg1 model part (Some fd) Hmodel Hshape Hb Hlook)
      as (reg2 & r2 & Hused & Hname & Hlook2 & Hrel & Hshape2 & Hb2 & Hscore).
    destruct r2 as [fd2|]; [|contradiction].
    simpl. rewrite Hused. simpl. rewrite Hname. simpl. rewrite Hlook2. simpl.
    rewrite (comodel_of_attributes _ _ Hrel), Htarget, Hrel, Hrelated.
    exists reg2. repeat split; auto; try apply Hshape2.
    intros X g. rewrite Hscore. unfold marked. simpl.
    now rewrite orb_false_r.
  - (* target model not registered *)
    destruct (segment_step reg1 model part (Some fd) Hmodel Hshape Hb Hlook)
      as (reg2 & r2 & Hused & Hname & Hlook2 & Hrel & Hshape2 & Hb2 & Hscore).
    destruct r2 as [fd2|]; [|contradiction].
    simpl. rewrite Hused. simpl. rewrite Hname. simpl. rewrite Hlook2. simpl.
    rewrite (comodel_of_attributes _ _ Hrel), Htarget.
    rewrite (same_decls_dmem reg reg2 (proj1 Hshape2)), Hreg.
    rewrite walk_from_None.
    exists reg2. repeat split; auto; try apply Hshape2.
    intros X g. rewrite Hscore. unfold marked. simpl.
    now rewrite orb_false_r.
  - (* hop to the target model *)
    destruct (segment_step reg1 model part (Some fd) Hmodel Hshape Hb Hlook)
      as (reg2 & r2 & Hused & Hname & Hlook2 & Hrel & Hshape2 & Hb2 & Hscore).
    destruct r2 as [fd2|]; [|contradiction].
    simpl. rewrite Hused. simpl. rewrite Hname. simpl. rewrite Hlook2. simpl.
    rewrite (comodel_of_attributes _ _ Hrel), Htarget.
    rewrite (same_decls_dmem reg reg2 (proj1 Hshape2)), Hreg.
    rewrite <- walk_unfold.
    destruct (IH Hreg (S fuel) reg2 Hfuel Hshape2 Hb2)
      as (reg' & Hrun & Hshape' & Hb' & Hscore').
    exists reg'. repeat split; auto; try apply Hshape'.
    intros X g. rewrite (zero_compose _ _ _ _ _ Hscore Hscore' X g).
    reflexivity.
  - (* nested related path that fails *)
    destruct (segment_step reg1 model part (Some fd) Hmodel Hshape Hb Hlook)
      as (reg2 & r2 & Hused & Hname & Hlook2 & Hrel & Hshape2 & Hb2 & Hscore).
    destruct r2 as [fd2|]; [|contradiction].
    simpl. rewrite Hused. simpl. rewrite Hname. simpl. rewrite Hlook2. simpl.
    rewrite (comodel_of_attributes _ _ Hrel), Htarget, Hrel, Htruthy, Hrelated.
    destruct (IHsub Hmodel fuel reg2) as (reg3 & Hrun & Hshape3 & Hb3 & Hscore3);
      [lia|assumption|assumption|].
    rewrite Hrun. simpl. rewrite walk_from_None.
    exists reg3. repeat split; auto; try apply Hshape3.
    intros X g. rewrite (zero_compose _ _ _ _ _ Hscore Hscore3 X g).
    reflexivity.
  - (* nested related path that resolves *)
    destruct (segment_step reg1 model part (Some fd) Hmodel Hshape Hb Hlook)
      as (reg2 & r2 & Hused & Hname & Hlook2 & Hrel & Hshape2 & Hb2 & Hscore).
    destruct r2 as [fd2|]; [|contradiction].
    simpl. rewrite Hused. simpl. rewrite Hname. simpl. rewrite Hlook2. simpl.
    rewrite (comodel_of_attributes _ _ Hrel), Htarget, Hrel, Htruthy, Hrelated.
    destruct (IHsub Hmodel fuel reg2) as (reg3 & Hrun & Hshape3 & Hb3 & Hscore3);
      [lia|assumption|assumption|].
    rewrite Hrun. simpl.
    pose proof (resolves_registered _ _ _ _ _ _ _ Hsub) as Htreg.
    rewrite (same_decls_dmem reg reg3 (proj1 Hshape3)), Htreg.
    rewrite <- walk_unfold.
    destruct (IHrest Htreg (S fuel) reg3 Hfuel Hshape3 Hb3)
      as (reg' & Hrun' & Hshape' & Hb' & Hscore').
    exists reg'. repeat split; auto; try apply Hshape'.
    intros X g.
    rewrite (zero_compose _ _ _ _ _
               (zero_compose _ _ _ _ _ Hscore Hscore3) Hscore' X g).
    unfold marked. cbn [existsb fst snd].
    now rewrite existsb_app, orb_assoc.
Qed.
End RelatedWalk.

(** Every walk that returns is one that [resolves] describes. *)
Lemma same_shape_sym reg reg' : same_shape reg reg' -> same_shape reg' reg.
Proof.
  intros ((N & A) & P). repeat split; intros; symmetry; auto.
Qed.

Lemma for_each_same_shape {A} (body : A -> registry -> result registry) l :
  (forall x reg reg', body x reg = Ok reg' -> same_shape reg reg') ->
  forall reg reg', for_each body l reg = Ok reg' -> same_shape reg reg'.
Proof.
  intros Hbody. induction l as [|x l IH]; intros reg reg' H; simpl in H.
  - inversion H. apply same_shape_refl.
  - apply bind_Ok in H as (reg1 & H1 & H).
    eapply same_shape_trans; eauto.
Qed.

Lemma field_used_same_shape reg M f c reg' :
  field_used reg M f c = Ok reg' -> same_shape reg reg'.
Proof.
  unfold field_used. destruct (dget M reg) as [m|]; [|discriminate].
  destruct (dget f (ModelValue.fields m)).
  - intros H. inversion H. apply same_shape_set_field_score.
  - apply for_each_same_shape. intros p r r' H.
    destruct (dget p r) as [mp|]; [|discriminate].
    destruct (dget f (ModelValue.fields mp)); inversion H;
      [apply same_shape_set_field_score|apply same_shape_refl].
Qed.

Section WalkDescribed.
Variables (limit : nat) (reg : registry).
Hypothesis names : names_are_keys reg.

Lemma name_of_same_shape reg1 model n :
  same_shape reg reg1 -> name_of reg1 model = Ok n ->
  n = model /\ dmem model reg = true.
Proof.
  intros Hshape H. rewrite (same_decls_name_of reg reg1 (proj1 Hshape)) in H.
  unfold name_of in H. unfold dmem.
  destruct (dget model reg) as [m|] eqn:Em; [|discriminate].
  inversion H. split; [apply (names model m Em)|reflexivity].
Qed.

(** What a returning step of the loop went through. *)
Lemma walk_step_inv recurse part rest reg1 model reg' r :
  same_shape reg reg1 ->
  related_loop limit recurse (part :: rest) reg1 (Some model) = Ok (reg', r) ->
  exists reg2 r0,
    same_shape reg reg2 /\ dmem model reg = true
    /\ _get_field_definition limit reg model part = Ok r0
    /\ match r0 with
       | None => reg' = reg2 /\ r = None
       | Some fd =>
           match comodel_of fd with
           | Some target =>
               related_loop limit recurse rest reg2
                 (if dmem target reg then Some target else None)
               = Ok (reg', r)
           | None =>
               if truthy (related (FieldValue.attributes fd)) then
                 exists path sub,
                   related (FieldValue.attributes fd) = Some path
                   /\ recurse reg2 (Some model) (split_on "."%char path)
                      = Ok sub
                   /\ related_loop limit recurse rest (fst sub)
                        (ref_of (fst sub) (snd sub)) = Ok (reg', r)
               else reg' = reg2 /\ r = None
           end
       end.
Proof.
  intros Hshape H. cbn [related_loop] in H.
  apply bind_Ok in H as (reg2 & Hused & H).
  apply bind_Ok in H as (current_name & Hname & H).
  apply bind_Ok in H as (r2 & Hlook2 & H).
  pose proof (same_shape_trans _ _ _ Hshape
                (field_used_same_shape _ _ _ _ _ Hused)) as Hshape2.
  destruct (name_of_same_shape reg2 model current_name Hshape2 Hname)
    as (Hcur & Hmodel).
  subst current_name.
  destruct (lookup_same_shape reg2 reg part (same_shape_sym _ _ Hshape2)
              limit model r2 Hlook2) as (r0 & Hlook & Hrel).
  exists reg2, r0. split; [exact Hshape2|]. split; [exact Hmodel|].
  split; [exact Hlook|].
  destruct r2 as [fd2|], r0 as [fd|]; try contradiction.
  - rewrite <- (comodel_of_attributes _ _ Hrel) in H. rewrite <- Hrel in H.
    destruct (comodel_of fd) as [target|].
    + unfold ref_of in H.
      now rewrite (same_decls_dmem reg reg2 (proj1 Hshape2)) in H.
    + destruct (truthy (related (FieldValue.attributes fd))) eqn:Htruthy.
      * apply bind_Ok in H as (sub & Hsub & H).
        unfold truthy in Htruthy.
        destruct (related (FieldValue.attributes fd)) as [path|];
          [|discriminate].
        exists path, sub. auto.
      * inversion H. auto.
  - inversion H. auto.
Qed.

Lemma walk_described :
  forall fuel path reg1 model reg' r,
    same_shape reg reg1 ->
    _get_comodel_from_related_path limit (S fuel) reg1 (Some model) path
    = Ok (reg', r) ->
    exists trace,
      resolves limit reg fuel model path r trace /\ same_shape reg reg'.
Proof.
  assert (Hend : forall fuel reg1 model reg' r,
             same_shape reg reg1 ->
             _get_comodel_from_related_path limit (S fuel) reg1 (Some model) []
             = Ok (reg', r) ->
             exists trace,
               resolves limit reg fuel model [] r trace /\ same_shape reg reg').
  { intros fuel reg1 model reg' r Hshape H. rewrite walk_unfold in H.
    simpl in H. apply bind_Ok in H as (n & Hn & H).
    destruct (name_of_same_shape reg1 model n Hshape Hn) as (Hcur & Hreg).
    inversion H. subst. exists []. split; [now apply resolves_end|exact Hshape]. }
  assert (Hsimple : forall fuel part rest reg1 model reg' r,
             (forall reg1 model reg' r,
                 same_shape reg reg1 ->
                 _get_comodel_from_related_path limit (S fuel) reg1 (Some model)
                   rest = Ok (reg', r) ->
                 exists trace,
                   resolves limit reg fuel model rest r trace
                   /\ same_shape reg reg') ->
             (forall reg2 path sub,
                 same_shape reg reg2 ->
                 _get_comodel_from_related_path limit fuel reg2 (Some model)
                   (split_on "."%char path) = Ok sub ->
                 exists n trace1,
                   fuel = S n
                   /\ resolves limit reg n model (split_on "."%char path)
                        (snd sub) trace1
                   /\ same_shape reg (fst sub)) ->
             same_shape reg reg1 ->
             _get_comodel_from_related_path limit (S fuel) reg1 (Some model)
               (part :: rest) = Ok (reg', r) ->
             exists trace,
               resolves limit reg fuel model (part :: rest) r trace
               /\ same_shape reg reg').
  { intros fuel part rest reg1 model reg' r IHpath IHsub Hshape H.
    rewrite walk_unfold in H.
    destruct (walk_step_inv _ _ _ _ _ _ _ Hshape H)
      as (reg2 & r0 & Hshape2 & Hmodel & Hlook & Hcase).
    destruct r0 as [fd|].
    - destruct (comodel_of fd) as [target|] eqn:Htarget.
      + destruct (dmem target reg) eqn:Hreg.
        * rewrite <- walk_unfold in Hcase.
          destruct (IHpath reg2 target reg' r Hshape2 Hcase)
            as (trace & Hres & Hs').
          exists ((model, part) :: trace). split; [|exact Hs'].
          eapply resolves_hop; eauto.
        * rewrite walk_from_None in Hcase. inversion Hcase. subst.
          exists [(model, part)]. split; [|exact Hshape2].
          eapply resolves_dangling; eauto.
      + destruct (truthy (related (FieldValue.attributes fd))) eqn:Htruthy.
        * destruct Hcase as (path & [reg3 sub] & Hpath & Hsub & Hrest).
          destruct (IHsub reg2 path (reg3, sub) Hshape2 Hsub)
            as (n & trace1 & -> & Hres1 & Hshape3).
          cbn [fst snd] in *.
          destruct sub as [target|].
          -- pose proof (resolves_registered _ _ _ _ _ _ _ Hres1) as Hreg.
             unfold ref_of in Hrest.
             rewrite (same_decls_dmem reg reg3 (proj1 Hshape3)), Hreg in Hrest.
             rewrite <- walk_unfold in Hrest.
             destruct (IHpath reg3 target reg' r Hshape3 Hrest)
               as (trace2 & Hres2 & Hs').
             exists ((model, part) :: trace1 ++ trace2). split; [|exact Hs'].
             eapply resolves_nested; eauto.
          -- cbn [ref_of] in Hrest. rewrite walk_from_None in Hrest.
             inversion Hrest. subst.
             exists ((model, part) :: trace1). split; [|exact Hshape3].
             eapply resolves_nested_none; eauto.
        * destruct Hcase as (-> & ->).
          exists [(model, part)]. split; [|exact Hshape2].
          eapply resolves_plain; eauto.
    - destruct Hcase as (-> & ->).
      exists [(model, part)]. split; [|exact Hshape2].
      now apply resolves_unknown. }
  induction fuel as [|fuel IHfuel].
  - induction path as [|part rest IHpath]; intros reg1 model reg' r Hshape H.
    + eapply Hend; eauto.
    + eapply Hsimple; eauto.
      intros reg2 path sub _ Hsub. discriminate Hsub.
  - induction path as [|part rest IHpath]; intros reg1 model reg' r Hshape H.
    + eapply Hend; eauto.
    + eapply Hsimple; eauto.
      intros reg2 path [reg3 sub] Hshape2 Hsub.
      destruct (IHfuel _ reg2 _ reg3 sub Hshape2 Hsub) as (trace1 & H1 & H3).
      exists fuel, trace1. auto.
Qed.
End WalkDescribed.
Lemma field_score_set_field_comodel reg X k v Y g :
  field_score (set_field_comodel reg X k v) Y g = field_score reg Y g.
Proof.
  unfold set_field_comodel, field_score.
  destruct (dget X reg) as [m|] eqn:EX; auto.
  destruct (dget k (ModelValue.fields m)) as [f|] eqn:Ek; auto.
  destruct (string_dec X Y) as [->|HX].
  - rewrite dget_dset_eq, EX. simpl.
    destruct (string_dec k g) as [->|Hk].
    + now rewrite dget_dset_eq, Ek.
    + now rewrite dget_dset_neq.
  - now rewrite dget_dset_neq.
Qed.

Lemma field_of_set_field_comodel reg X k v f :
  field_of reg X k = Some f ->
  option_map (fun f => comodel_name (FieldValue.attributes f))
    (field_of (set_field_comodel reg X k v) X k) = Some v.
Proof.
  unfold set_field_comodel, field_of.
  destruct (dget X reg) as [m|] eqn:EX; [|discriminate].
  intros Ek. rewrite Ek, dget_dset_eq. simpl. now rewrite dget_dset_eq.
Qed.

(** C6 (amended).  For a field with a related path and no target model, to
    which the parents give no target either, in a registry whose models are
    stored under their names, with registered parents and scores at most
    100, [resolve_field] walks the path segment by segment.  On the walk's
    current model each segment is marked with [field_used(segment, 100)] and
    then looked up on that model and its ancestors; the walk goes on from
    the registered target model of the field found, or from what that
    field's own related path gives from the same model, and ends with
    [None] when nothing is found, when what is found has neither, or when
    its target is not registered.  The field's target-model-name is set to
    what the walk returns, and the scores afterwards are exactly these: 0
    for a segment on the walk's current model if that model declares it, 0
    on each direct parent declaring it if the model does not, and every
    other score as before; a segment found further up than a direct parent
    is walked through but keeps its score.  ([walk_described]: every walk
    that returns is one that [resolves] describes.) *)
Theorem related_field_resolution :
  forall limit reg model field fv path r trace n,
    (n < limit)%nat -> names_are_keys reg -> scores_bounded reg ->
    resolved reg (parents_of reg) ->
    field_of reg model field = Some fv ->
    truthy (comodel_name (FieldValue.attributes fv)) = false ->
    field_related reg model field = Some path ->
    (relational (FieldValue.attributes fv) = true ->
     inherit_comodel limit reg model field (FieldValue.name fv) = Ok reg) ->
    resolves limit reg n model (split_on "."%char path) r trace ->
    exists reg',
      resolve_field limit model field reg = Ok reg'
      /\ option_map (fun f => comodel_name (FieldValue.attributes f))
           (field_of reg' model field) = Some r
      /\ forall X g,
           field_score reg' X g
           = if marked reg trace X g
             then zeroed (field_score reg X g) else field_score reg X g.
Proof.
  intros limit reg model field fv path r trace n Hn Hkeys Hbound Hparents Hfv
         Hnone Hrel Hinherit Hres.
  assert (Hmodel : dmem model reg = true).
  { unfold field_of in Hfv. unfold dmem.
    destruct (dget model reg); [reflexivity|discriminate]. }
  destruct (related_walk_spec limit reg Hkeys Hparents n model _ r trace Hres
              Hmodel limit reg Hn (same_shape_refl reg) Hbound)
    as (reg3 & Hrun & Hshape3 & _ & Hscore).
  unfold field_related in Hrel. rewrite Hfv in Hrel.
  destruct (truthy (related (FieldValue.attributes fv))) eqn:Et; [|discriminate].
  exists (set_field_comodel reg3 model field r). split; [|split].
  - unfold resolve_field. unfold field_of in Hfv.
    destruct (dget model reg) as [m|] eqn:Em; [|discriminate].
    rewrite Hfv, Hnone. simpl.
    assert (Hfill : (if (relational (FieldValue.attributes fv) && true)%bool
                     then inherit_comodel limit reg model field (FieldValue.name fv)
                     else Ok reg) = Ok reg)
      by (destruct (relational (FieldValue.attributes fv)); simpl; auto).
    rewrite Hfill. simpl. rewrite Em, Hfv, Et, Hnone, Hrel. simpl.
    now rewrite Hrun.
  - destruct Hshape3 as ((_ & Hattrs) & _). specialize (Hattrs model field).
    rewrite Hfv in Hattrs.
    destruct (field_of reg3 model field) as [f3|] eqn:Ef3; [|discriminate].
    eapply field_of_set_field_comodel; eauto.
  - intros X g. rewrite field_score_set_field_comodel. apply Hscore.
Qed.

(** In [Examples.family] the field [x] of [child] is related to
    [partner_id.email]: [partner_id] is found on [base], two levels up, and
    keeps its score; [email] of [res.partner] is marked; the target of [x]
    stays unset. *)
Lemma related_field_resolution_witness :
  exists reg',
    resolve_field 1000 "child" "x" Examples.family = Ok reg'
    /\ option_map (fun f => comodel_name (FieldValue.attributes f))
         (field_of reg' "child" "x") = Some None
    /\ field_score reg' "res.partner" "email" = Some 0
    /\ field_score reg' "base" "partner_id" = Some 100.
Proof.
  destruct (related_field_resolution 1000 Examples.family "child" "x"
              (Examples.related_field "x" "child.py:4" "partner_id.email")
              "partner_id.email" None
              [("child", "partner_id"); ("res.partner", "email")] 0)
    as (reg' & Hrun & Htarget & Hscore).
  - lia.
  - apply names_are_keysb_sound. reflexivity.
  - apply scores_boundedb_sound. reflexivity.
  - apply (resolvedb_parents Examples.family). reflexivity.
  - reflexivity.
  - reflexivity.
  - reflexivity.
  - intros _. reflexivity.
  - apply (resolves_hop _ _ _ _ _
             (Examples.many2one "partner_id" "base.py:4" "res.partner")
             "res.partner"); try reflexivity.
    apply (resolves_plain _ _ _ _ _
             (Examples.char_field "email" "partner.py:4")); reflexivity.
  - exists reg'. split; [exact Hrun|split; [exact Htarget|split]];
      rewrite Hscore; reflexivity.
Defined.

(** Two runs of [_fill_definitions_map].  The spec's example
    [x = fields.Many2one(related="partner_id.email")] on [sale.order]:
    [partner_id] and [email] end with score 0 and [x] has no target model.
    And the same field on [child], whose [partner_id] is declared by its
    grandparent [base]: the walk passes [partner_id], which resolves in
    [base], marks [email], and leaves [partner_id] of [base] at 100. *)
Lemma related_walk_counterexamples :
  (exists reg',
      _fill_definitions_map 1000 Examples.sale_declared = Ok reg'
      /\ field_score reg' "sale.order" "partner_id" = Some 0
      /\ field_score reg' "res.partner" "email" = Some 0
      /\ field_related reg' "sale.order" "x" = Some "partner_id.email"
      /\ option_map (fun f => comodel_name (FieldValue.attributes f))
           (field_of reg' "sale.order" "x") = Some None)
  /\ (exists reg',
        _fill_definitions_map 1000 (declare_classes Examples.family_classes [])
        = Ok reg'
        /\ _get_field_definition 1000
             (declare_classes Examples.family_classes []) "child" "partner_id"
           = Ok (Some (Examples.many2one "partner_id" "base.py:4" "res.partner"))
        /\ field_score reg' "res.partner" "email" = Some 0
        /\ field_score reg' "base" "partner_id" = Some 100).
Proof.
  split; (eexists; split; [vm_compute; reflexivity|]); repeat split.
Qed.

(** ** Errors in the declaration pass *)

Lemma declare_raises_exceptions model definitions_map e :
  Dynamic.declare model definitions_map = Raise e -> is_Exception e = true.
Proof.
  unfold Dynamic.declare.
  destruct model; simpl; try discriminate;
    (destruct (dget _ definitions_map) as [existing|]; [|discriminate]);
    destruct existing; simpl; intros H; inversion H; reflexivity.
Qed.

Lemma declare_all_raises_exceptions models :
  forall definitions_map definitions_map' e,
    Dynamic.declare_all models definitions_map = (definitions_map', Some e) ->
    is_Exception e = true.
Proof.
  induction models as [|model rest IH]; intros dm dm' e H; simpl in H.
  - discriminate.
  - destruct (Dynamic.declare model dm) as [dm1|e1] eqn:E.
    + eauto.
    + inversion H. subst. eapply declare_raises_exceptions; eauto.
Qed.

Lemma _initialize_definitions_map_returns file st :
  exists st', Dynamic._initialize_definitions_map file st = Ok st'.
Proof.
  unfold Dynamic._initialize_definitions_map.
  destruct (Dynamic.declare_all (snd file) (fst st)) as [dm [e|]] eqn:E;
    [|eauto].
  apply declare_all_raises_exceptions in E. rewrite E. eauto.
Qed.

(** C8 (amended).  [ModelValue.__ior__] and [MethodValue.__ior__] raise
    [TypeError] on a value of another class.  An exception raised while the
    classes of a file are merged is an [Exception]: the handler of
    [_initialize_definitions_map] in core.py logs it with the file's path and
    returns, the registry keeping what was merged before, and phase 1 goes on
    with the next file and never raises.  [initialize_definitions_map] of
    find_dead_code.py lets the exception through. *)
Theorem merge_errors_are_caught_per_file :
  (forall m other,
      (forall o, other <> Dynamic.PyModel o) ->
      Dynamic.py_ior (Dynamic.PyModel m) other
      = Raise (TypeError "Only models can be IORed"))
  /\ (forall m other,
         (forall o, other <> Dynamic.PyMethod o) ->
         Dynamic.py_ior (Dynamic.PyMethod m) other
         = Raise (TypeError "MethodValue can only be IORed with MethodValue"))
  /\ (forall file st definitions_map e,
         Dynamic.declare_all (snd file) (fst st) = (definitions_map, Some e) ->
         Dynamic._initialize_definitions_map file st
         = Ok (definitions_map, (snd st ++ [(fst file, e)])%list)
         /\ Dynamic.initialize_definitions_map file (fst st) = Raise e)
  /\ (forall files st, exists st', Dynamic.analyze_declarations files st = Ok st').
Proof.
  split; [|split; [|split]].
  - intros m other Hother. destruct other; try reflexivity.
    now elim (Hother m0).
  - intros m other Hother. destruct other; try reflexivity.
    now elim (Hother m0).
  - intros file st dm e H. unfold Dynamic._initialize_definitions_map,
      Dynamic.initialize_definitions_map. rewrite H.
    apply declare_all_raises_exceptions in H. now rewrite H.
  - unfold Dynamic.analyze_declarations.
    induction files as [|file files IH]; intros st; simpl; [eauto|].
    destruct (_initialize_definitions_map_returns file st) as (st1 & H1).
    rewrite H1. simpl. apply IH.
Qed.

Lemma merge_errors_are_caught_per_file_witness :
  Dynamic._initialize_definitions_map
    ("sale.py",
     [ Dynamic.PyModel (ModelValue.init "sale.order" []);
       Dynamic.PyMethod (Examples.method "sale.order" "sale.py:3" 3 []) ])
    ([], [])
  = Ok ([("sale.order", Dynamic.PyModel (ModelValue.init "sale.order" []))],
        [("sale.py", TypeError "Only models can be IORed")]).
Proof.
  destruct merge_errors_are_caught_per_file as (_ & _ & Hcaught & _).
  apply (Hcaught
           ("sale.py",
            [ Dynamic.PyModel (ModelValue.init "sale.order" []);
              Dynamic.PyMethod (Examples.method "sale.order" "sale.py:3" 3 []) ])
           ([], [])).
  reflexivity.
Defined.

(** Merging a method object into the registered model [sale.order] raises
    [TypeError]; the declaration pass of core.py does not let it out: phase 1
    returns, with the error in the log and [res.partner], declared by the next
    file, registered. *)
Lemma merge_type_error_does_not_abort :
  Dynamic.py_ior (Dynamic.PyModel (ModelValue.init "sale.order" []))
    (Dynamic.PyMethod (Examples.method "sale.order" "sale.py:3" 3 []))
  = Raise (TypeError "Only models can be IORed")
  /\ Dynamic.analyze_declarations Examples.mismatched_files ([], [])
     = Ok ([("sale.order", Dynamic.PyModel (ModelValue.init "sale.order" []));
            ("res.partner", Dynamic.PyModel (ModelValue.init "res.partner" []))],
           [("sale.py", TypeError "Only models can be IORed")])
  /\ forall e, Dynamic.analyze_declarations Examples.mismatched_files ([], [])
               <> Raise e.
Proof. repeat split. discriminate. Qed.

(** * Further properties of the code *)

(** ** The registry the declaration pass builds *)

Lemma update_keys_In x theirs :
  forall mine, In x (ModelValue.update_keys mine theirs) <-> In x mine \/ In x theirs.
Proof.
  unfold ModelValue.update_keys.
  induction theirs as [|k theirs IH]; intros mine; simpl.
  - tauto.
  - rewrite IH, set_add_In. intuition.
Qed.

Lemma declare_class_eq reg c :
  declare_class reg c =
  let reg1 := placeholders (kept_parents c) reg in
  match dget (class_name c) reg1 with
  | Some existing =>
      dset (class_name c) (ModelValue.ior existing (class_model c)) reg1
  | None => dset (class_name c) (class_model c) reg1
  end.
Proof. reflexivity. Qed.

Lemma placeholders_cons p parents reg :
  placeholders (p :: parents) reg
  = placeholders parents
      (if dmem p reg then reg else dset p (ModelValue.init p []) reg).
Proof. reflexivity. Qed.

Lemma placeholder_step p reg k :
  let reg1 := if dmem p reg then reg else dset p (ModelValue.init p []) reg in
  dmem p reg1 = true
  /\ (dget k reg1 = dget k reg
      \/ (dget k reg = None /\ k = p
          /\ dget k reg1 = Some (ModelValue.init k []))).
Proof.
  simpl. destruct (dmem p reg) eqn:Ep; [split; [exact Ep|now left]|].
  split; [unfold dmem; now rewrite dget_dset_eq|].
  destruct (string_dec p k) as [->|Hne].
  - right. unfold dmem in Ep. destruct (dget k reg); [discriminate|].
    repeat split. apply dget_dset_eq.
  - left. now apply dget_dset_neq.
Qed.

Lemma placeholders_spec parents :
  forall reg k,
    dget k (placeholders parents reg) = dget k reg
    \/ (dget k reg = None /\ In k parents
        /\ dget k (placeholders parents reg) = Some (ModelValue.init k [])).
Proof.
  induction parents as [|p parents IH]; intros reg k; [now left|].
  rewrite placeholders_cons.
  pose proof (placeholder_step p reg k) as H1. cbv zeta in H1.
  destruct H1 as (_ & H1).
  destruct (IH (if dmem p reg then reg else dset p (ModelValue.init p []) reg) k)
    as [E|(E0 & Hin & E)].
  - rewrite E. destruct H1 as [E1|(E0 & -> & E1)]; [now left|].
    right. repeat split; auto. now left.
  - destruct H1 as [E1|(_ & _ & E1)];
      [|pose proof (eq_trans (eq_sym E1) E0) as X; discriminate X].
    right. repeat split;
      [exact (eq_trans (eq_sym E1) E0)|now right|assumption].
Qed.

Lemma placeholders_keeps parents reg p :
  dmem p reg = true -> dmem p (placeholders parents reg) = true.
Proof.
  intros H. unfold dmem in *.
  destruct (placeholders_spec parents reg p) as [E|(E & _)].
  - now rewrite E.
  - rewrite E in H. discriminate.
Qed.

Lemma placeholders_registers parents :
  forall reg p, In p parents -> dmem p (placeholders parents reg) = true.
Proof.
  induction parents as [|q parents IH]; intros reg p; [intros []|].
  rewrite placeholders_cons. intros [->|Hin]; [|now apply IH].
  apply placeholders_keeps. exact (proj1 (placeholder_step p reg p)).
Qed.

Lemma kept_parents_not_self c : ~ In (class_name c) (kept_parents c).
Proof.
  unfold kept_parents. rewrite filter_In. intros (_ & H).
  now rewrite String.eqb_refl in H.
Qed.

(** What [declare_class] leaves under each key. *)
Lemma declare_class_lookup reg c k :
  (k = class_name c
   /\ exists m, dget k (declare_class reg c) = Some m
                /\ ModelValue.name m
                   = match dget k reg with
                     | Some old => ModelValue.name old
                     | None => k
                     end
                /\ (forall p, In p (ModelValue.inherited_models m) <->
                              In p (parents_of reg k) \/ In p (kept_parents c)))
  \/ (k <> class_name c
      /\ (dget k (declare_class reg c) = dget k reg
          \/ (dget k reg = None /\ In k (kept_parents c)
              /\ dget k (declare_class reg c) = Some (ModelValue.init k [])))).
Proof.
  rewrite declare_class_eq. cbv zeta.
  set (reg1 := placeholders (kept_parents c) reg).
  assert (Hsame : dget (class_name c) reg1 = dget (class_name c) reg).
  { destruct (placeholders_spec (kept_parents c) reg (class_name c))
      as [E|(_ & Hin & _)]; [exact E|].
    now apply kept_parents_not_self in Hin. }
  destruct (string_dec k (class_name c)) as [->|Hne].
  - left. split; [reflexivity|].
    rewrite Hsame. unfold parents_of.
    destruct (dget (class_name c) reg) as [old|] eqn:Eold.
    + eexists. split; [apply dget_dset_eq|]. split; [reflexivity|].
      intros p. simpl. rewrite update_keys_In, update_keys_In. simpl. tauto.
    + eexists. split; [apply dget_dset_eq|]. split; [reflexivity|].
      intros p. simpl. rewrite update_keys_In. simpl. tauto.
  - right. split; [assumption|].
    assert (Hk : forall v, dget k (dset (class_name c) v reg1) = dget k reg1)
      by (intros v; apply dget_dset_neq; congruence).
    destruct (dget (class_name c) reg1); rewrite Hk;
      apply placeholders_spec.
Qed.

Lemma declare_class_registers_parents reg c p :
  In p (kept_parents c) -> dmem p (declare_class reg c) = true.
Proof.
  intros Hin. rewrite declare_class_eq. cbv zeta.
  pose proof (placeholders_registers (kept_parents c) reg p Hin) as H.
  destruct (dget (class_name c) (placeholders (kept_parents c) reg));
    rewrite dmem_dset, H; apply orb_true_r.
Qed.

Lemma declare_class_keeps_keys reg c k :
  dmem k reg = true -> dmem k (declare_class reg c) = true.
Proof.
  intros H. unfold dmem in *.
  destruct (declare_class_lookup reg c k) as [(-> & m & E & _)|(_ & [E|(E & _)])].
  - now rewrite E.
  - now rewrite E.
  - rewrite E in H. discriminate.
Qed.

Lemma declare_class_well_declared reg c :
  well_declared reg -> well_declared (declare_class reg c).
Proof.
  intros (Hnames & Hres & Hself). repeat split.
  - intros k m Hk.
    destruct (declare_class_lookup reg c k)
      as [(-> & m' & E & Hname & _)|(_ & [E|(_ & _ & E)])].
    + rewrite E in Hk. injection Hk as <-. rewrite Hname.
      destruct (dget (class_name c) reg) eqn:Eold; [now apply Hnames|reflexivity].
    + rewrite E in Hk. now apply Hnames.
    + rewrite E in Hk. now injection Hk as <-.
  - intros model next. unfold parents_of at 1.
    destruct (declare_class_lookup reg c model)
      as [(-> & m' & E & _ & Hpar)|(_ & [E|(_ & _ & E)])]; rewrite E.
    + intros Hin. apply Hpar in Hin as [Hin|Hin].
      * apply declare_class_keeps_keys. now apply (Hres (class_name c)).
      * now apply declare_class_registers_parents.
    + intros Hin. apply declare_class_keeps_keys. now apply (Hres model).
    + intros [].
  - intros model. unfold parents_of.
    destruct (declare_class_lookup reg c model)
      as [(-> & m' & E & _ & Hpar)|(_ & [E|(_ & _ & E)])]; rewrite E.
    + intros Hin. apply Hpar in Hin as [Hin|Hin].
      * now apply (Hself (class_name c)).
      * now apply kept_parents_not_self in Hin.
    + apply (Hself model).
    + intros [].
Qed.

(** X1.  The declaration pass ([_initialize_model] and the class loop of
    [_initialize_definitions_map]) keeps the registry well declared: after
    any number of classes every model is still stored under its own name,
    every parent a model names is registered (as a placeholder if no class
    declared it yet), and no model is its own parent. *)
Theorem declaration_pass_keeps_registry_well_declared classes :
  forall reg, well_declared reg -> well_declared (declare_classes classes reg).
Proof.
  unfold declare_classes.
  induction classes as [|c classes IH]; intros reg H; simpl; [exact H|].
  apply IH. now apply declare_class_well_declared.
Qed.

Lemma declaration_pass_keeps_registry_well_declared_witness :
  well_declared [] /\ well_declared (declare_classes Examples.cyclic_classes []).
Proof.
  assert (H : well_declared []).
  { repeat split.
    - intros key m H. discriminate H.
    - intros model next H. destruct H.
    - intros model H. destruct H. }
  split; [exact H|].
  apply (declaration_pass_keeps_registry_well_declared Examples.cyclic_classes []).
  exact H.
Defined.

(** ** Step 1 of the resolution pass: the child links *)

Lemma dkeys_In {V} k (d : dict V) : In k (dkeys d) <-> dmem k d = true.
Proof.
  unfold dkeys, dmem. induction d as [|[k' v] d IH]; simpl.
  - split; [intros []|discriminate].
  - destruct (String.eqb k k') eqn:E.
    + apply String.eqb_eq in E. subst. tauto.
    + apply String.eqb_neq in E. rewrite IH. split; [|tauto].
      intros [H|H]; [congruence|exact H].
Qed.

Lemma same_but_children_refl reg : same_but_children reg reg.
Proof. intros X. reflexivity. Qed.

Lemma same_but_children_trans r1 r2 r3 :
  same_but_children r1 r2 -> same_but_children r2 r3 ->
  same_but_children r1 r3.
Proof. intros H1 H2 X. now rewrite H2, H1. Qed.

Lemma same_but_children_parents reg reg' X :
  same_but_children reg reg' -> parents_of reg' X = parents_of reg X.
Proof.
  intros H. specialize (H X). unfold parents_of.
  destruct (dget X reg') as [m'|], (dget X reg) as [m|]; simpl in H;
    try discriminate; [|reflexivity].
  injection H; intros; assumption.
Qed.

Lemma same_but_children_dmem reg reg' X :
  same_but_children reg reg' -> dmem X reg' = dmem X reg.
Proof.
  intros H. specialize (H X). unfold dmem.
  now destruct (dget X reg'), (dget X reg).
Qed.

Lemma add_child_lookup reg p c k :
  dget k (add_child reg p c)
  = if String.eqb k p
    then option_map
           (fun pm => ModelValue.set_child_models pm
                        (set_add c (ModelValue.child_models pm)))
           (dget p reg)
    else dget k reg.
Proof.
  unfold add_child. destruct (String.eqb k p) eqn:E.
  - apply String.eqb_eq in E. subst k.
    destruct (dget p reg) eqn:Ep; simpl; [apply dget_dset_eq|exact Ep].
  - apply String.eqb_neq in E.
    destruct (dget p reg); [|reflexivity].
    apply dget_dset_neq. congruence.
Qed.

Lemma add_child_same reg p c : same_but_children reg (add_child reg p c).
Proof.
  intros X. rewrite add_child_lookup.
  destruct (String.eqb X p) eqn:E; [|reflexivity].
  apply String.eqb_eq in E. subst. now destruct (dget p reg).
Qed.

Lemma add_child_children reg p c X x :
  In x (children_of (add_child reg p c) X)
  <-> In x (children_of reg X) \/ (X = p /\ x = c /\ dmem p reg = true).
Proof.
  unfold children_of, dmem. rewrite add_child_lookup.
  destruct (String.eqb X p) eqn:E.
  - apply String.eqb_eq in E. subst X.
    destruct (dget p reg) as [pm|]; simpl.
    + rewrite set_add_In. intuition.
    + intuition discriminate.
  - apply String.eqb_neq in E. intuition.
Qed.

(** The inner loop of step 1 for one model: [child] becomes a child of each
    of its registered parents. *)
Lemma add_children_spec child parents :
  forall reg,
    let reg' := fold_left (fun reg parent => add_child reg parent child)
                  parents reg in
    same_but_children reg reg'
    /\ forall X x, In x (children_of reg' X)
                   <-> In x (children_of reg X)
                       \/ (x = child /\ In X parents /\ dmem X reg = true).
Proof.
  induction parents as [|p parents IH]; intros reg; simpl.
  - split; [apply same_but_children_refl|]. intros X x. tauto.
  - destruct (IH (add_child reg p child)) as (Hsame & Hch).
    pose proof (add_child_same reg p child) as Hstep.
    split; [eapply same_but_children_trans; eassumption|].
    intros X x. rewrite Hch, add_child_children.
    rewrite (same_but_children_dmem _ _ X Hstep).
    split.
    + intros [[H|(-> & -> & H)]|(-> & Hin & H)]; auto.
    + intros [H|(-> & [->|Hin] & H)]; auto.
Qed.

(** The outer loop, over a list of keys. *)
Lemma resolve_children_loop reg0 keys :
  forall reg,
    same_but_children reg0 reg ->
    let reg' :=
      fold_left
        (fun reg model_name =>
           match dget model_name reg with
           | Some model =>
               fold_left (fun reg parent => add_child reg parent model_name)
                 (ModelValue.inherited_models model) reg
           | None => reg
           end)
        keys reg in
    same_but_children reg0 reg'
    /\ forall X x, In x (children_of reg' X)
                   <-> In x (children_of reg X)
                       \/ (In x keys /\ In X (parents_of reg0 x)
                           /\ dmem X reg0 = true).
Proof.
  induction keys as [|k keys IH]; intros reg Hsame; simpl.
  - split; [exact Hsame|]. intros X x. tauto.
  - pose proof (same_but_children_parents _ _ k Hsame) as Hpar.
    unfold parents_of at 1 in Hpar.
    destruct (dget k reg) as [model|] eqn:Ek.
    + destruct (add_children_spec k (ModelValue.inherited_models model) reg)
        as (Hstep & Hch).
      cbv zeta in Hstep, Hch.
      destruct (IH _ (same_but_children_trans _ _ _ Hsame Hstep)) as (H1 & H2).
      split; [exact H1|].
      intros X x. rewrite H2, Hch, Hpar.
      rewrite (same_but_children_dmem _ _ X Hsame).
      split.
      * intros [[H|(-> & Hin & H)]|(Hin & Hp & H)]; auto.
      * intros [H|([->|Hin] & Hp & H)]; auto.
    + destruct (IH _ Hsame) as (H1 & H2).
      split; [exact H1|].
      intros X x. rewrite H2. split.
      * intros [H|(Hin & Hp & H)]; auto.
      * intros [H|([->|Hin] & Hp & H)]; auto.
        rewrite <- Hpar in Hp. destruct Hp.
Qed.

Lemma resolve_children_spec reg :
  same_but_children reg (resolve_children reg)
  /\ forall model child,
       In child (children_of (resolve_children reg) model)
       <-> In child (children_of reg model)
           \/ (In model (parents_of reg child) /\ dmem model reg = true).
Proof.
  destruct (resolve_children_loop reg (dkeys reg) reg (same_but_children_refl reg))
    as (H1 & H2).
  split; [exact H1|].
  intros model child. unfold resolve_children. rewrite H2.
  split.
  - intros [H|(_ & Hp & H)]; auto.
  - intros [H|(Hp & H)]; auto.
    right. repeat split; auto.
    apply dkeys_In. unfold parents_of in Hp. unfold dmem.
    destruct (dget child reg); [reflexivity|destruct Hp].
Qed.

(** X2.  Step 1 of [_fill_definitions_map] changes nothing but child links:
    the models, their names, parents, fields and methods stay as they were;
    and afterwards the children of a model are exactly those it had before
    and the models naming it as a parent, provided it is registered (an
    unregistered parent gets no child). *)
Theorem resolve_children_links_children_to_parents :
  forall reg,
    same_but_children reg (resolve_children reg)
    /\ forall model child,
         In child (children_of (resolve_children reg) model)
         <-> In child (children_of reg model)
             \/ (In model (parents_of reg child) /\ dmem model reg = true).
Proof. exact resolve_children_spec. Qed.

(** ** Phase 1 followed by step 1 of phase 2 *)

Lemma declare_class_childless reg c :
  (forall X, children_of reg X = []) ->
  forall X, children_of (declare_class reg c) X = [].
Proof.
  intros H X. rewrite declare_class_eq. cbv zeta.
  assert (H1 : forall Y, children_of (placeholders (kept_parents c) reg) Y = []).
  { intros Y. specialize (H Y). unfold children_of in *.
    destruct (placeholders_spec (kept_parents c) reg Y) as [E|(_ & _ & E)];
      rewrite E; [exact H|reflexivity]. }
  pose proof (H1 (class_name c)) as Hc. unfold children_of in Hc.
  destruct (string_dec (class_name c) X) as [<-|Hne].
  - unfold children_of.
    destruct (dget (class_name c) (placeholders (kept_parents c) reg))
      as [existing|]; rewrite dget_dset_eq; simpl; [|reflexivity].
    exact Hc.
  - specialize (H1 X). unfold children_of in *.
    destruct (dget (class_name c) (placeholders (kept_parents c) reg));
      rewrite dget_dset_neq by assumption; exact H1.
Qed.

Lemma declare_classes_invariant (P : registry -> Prop) :
  (forall reg c, P reg -> P (declare_class reg c)) ->
  forall classes reg, P reg -> P (declare_classes classes reg).
Proof.
  intros Hstep. unfold declare_classes.
  induction classes as [|c classes IH]; intros reg H; simpl; auto.
Qed.

Lemma same_but_children_names reg reg' :
  same_but_children reg reg' -> names_are_keys reg -> names_are_keys reg'.
Proof.
  intros H Hn key m' E. specialize (H key). rewrite E in H.
  destruct (dget key reg) as [m|] eqn:Em; [|discriminate].
  rewrite <- (Hn key m Em). simpl in H. injection H; intros; assumption.
Qed.

(** X3.  Whatever classes the declaration pass reads, once step 1 of
    [_fill_definitions_map] has run every model is stored under its name,
    every parent and every child a model names is registered, no model is
    its own parent, and the child links are exactly the parent links
    reversed: [c] is a child of [m] if and only if [m] is a parent of [c]. *)
Theorem declared_then_linked :
  forall classes,
    let reg := resolve_children (declare_classes classes []) in
    names_are_keys reg
    /\ resolved reg (parents_of reg)
    /\ resolved reg (children_of reg)
    /\ (forall model, ~ In model (parents_of reg model))
    /\ (forall model child,
          In child (children_of reg model) <-> In model (parents_of reg child)).
Proof.
  intros classes. cbv zeta.
  set (d := declare_classes classes []).
  assert (Hwd : well_declared d).
  { apply (declare_classes_invariant well_declared).
    - intros reg c. apply declare_class_well_declared.
    - repeat split.
      + intros key m H. discriminate H.
      + intros model next H. destruct H.
      + intros model H. destruct H. }
  assert (Hch : forall X, children_of d X = []).
  { apply (declare_classes_invariant (fun reg => forall X, children_of reg X = [])).
    - apply declare_class_childless.
    - reflexivity. }
  destruct Hwd as (Hnames & Hres & Hself).
  destruct (resolve_children_spec d) as (Hsame & Hlinks).
  assert (Hpar : forall X, parents_of (resolve_children d) X = parents_of d X)
    by (intros X; now apply same_but_children_parents).
  assert (Hmem : forall X, dmem X (resolve_children d) = dmem X d)
    by (intros X; now apply same_but_children_dmem).
  assert (Hiff : forall model child,
             In child (children_of (resolve_children d) model)
             <-> In model (parents_of d child)).
  { intros model child. rewrite Hlinks, Hch. split.
    - intros [[]|(H & _)]. exact H.
    - intros H. right. split; [exact H|]. now apply (Hres child). }
  repeat split.
  - now apply (same_but_children_names d).
  - intros model next. rewrite Hpar, Hmem. apply Hres.
  - intros model next Hin. apply Hiff in Hin. rewrite Hmem.
    unfold parents_of in Hin. unfold dmem.
    destruct (dget next d); [reflexivity|destruct Hin].
  - intros model. rewrite Hpar. apply Hself.
  - rewrite Hpar. apply Hiff.
  - rewrite Hpar. apply Hiff.
Qed.

(** ** The report *)

Lemma is_nil_true {A} (l : list A) :
  match l with [] => true | _ => false end = true <-> l = [].
Proof. destruct l; split; congruence. Qed.

Lemma is_nil_false {A} (l : list A) :
  match l with [] => true | _ => false end = false <-> l <> [].
Proof. destruct l; split; congruence. Qed.

Lemma dvalues_nil {V} (d : dict V) : dnonempty d = false -> dvalues d = [].
Proof. destruct d; [reflexivity|discriminate]. Qed.

Lemma unused_fields_In model name paths :
  In (name, paths) (unused_fields model)
  <-> exists f, In f (dvalues (ModelValue.fields model))
                /\ FieldValue.name f = name
                /\ FieldValue.definition_paths f = paths
                /\ 100 <= FieldValue.unused_percentage f.
Proof.
  unfold unused_fields. rewrite in_map_iff. split.
  - intros (f & E & Hin). apply filter_In in Hin as (Hin & Hs).
    injection E as <- <-. exists f. repeat split; auto. lia.
  - intros (f & Hin & <- & <- & Hs). exists f. split; [reflexivity|].
    apply filter_In. split; [exact Hin|]. lia.
Qed.

Lemma unused_methods_In model name paths :
  In (name, paths) (unused_methods model)
  <-> exists m, In m (dvalues (ModelValue.methods model))
                /\ MethodValue.name m = name
                /\ MethodValue.definition_paths m = paths
                /\ 100 <= MethodValue.unused_percentage m.
Proof.
  unfold unused_methods. rewrite in_map_iff. split.
  - intros (f & E & Hin). apply filter_In in Hin as (Hin & Hs).
    injection E as <- <-. exists f. repeat split; auto. lia.
  - intros (f & Hin & <- & <- & Hs). exists f. split; [reflexivity|].
    apply filter_In. split; [exact Hin|]. lia.
Qed.

Lemma unused_fields_empty model :
  dnonempty (ModelValue.fields model) = false -> unused_fields model = [].
Proof. intros H. unfold unused_fields. now rewrite (dvalues_nil _ H). Qed.

Lemma unused_methods_empty model :
  dnonempty (ModelValue.methods model) = false -> unused_methods model = [].
Proof. intros H. unfold unused_methods. now rewrite (dvalues_nil _ H). Qed.

Lemma report_In reg b :
  In b (report reg)
  <-> exists k m, In (k, m) reg
                  /\ b = mkBlock k (unused_fields m) (unused_methods m)
                  /\ unused_fields m <> [] /\ unused_methods m <> [].
Proof.
  unfold report. rewrite in_flat_map. split.
  - intros ([k m] & Hin & Hb). simpl in Hb. exists k, m.
    destruct (negb (dnonempty (ModelValue.fields m))
              && negb (dnonempty (ModelValue.methods m))); [destruct Hb|].
    destruct (unused_fields m) eqn:Ef; [destruct Hb|].
    destruct (unused_methods m) eqn:Em; [destruct Hb|].
    simpl in Hb. destruct Hb as [<-|[]]. repeat split; auto; discriminate.
  - intros (k & m & Hin & -> & Hf & Hm). exists (k, m). split; [exact Hin|].
    simpl.
    destruct (dnonempty (ModelValue.fields m)) eqn:Ef;
      [|now apply unused_fields_empty in Ef].
    simpl.
    destruct (unused_fields m) eqn:Euf; [congruence|].
    destruct (unused_methods m) eqn:Eum; [congruence|].
    now left.
Qed.

(** X4.  [OdooAnalyzer.report] prints a block for exactly the registry
    entries that have at least one unused field and at least one unused
    method, and a block lists exactly the fields and methods of its model
    whose score is 100 or more, each with its definition paths: a field or
    method whose score was lowered is never reported. *)
Theorem report_blocks_are_exact :
  forall reg,
    (forall b, In b (report reg)
       <-> exists k m, In (k, m) reg
                       /\ b = mkBlock k (unused_fields m) (unused_methods m)
                       /\ unused_fields m <> [] /\ unused_methods m <> [])
    /\ (forall m name paths,
          In (name, paths) (unused_fields m)
          <-> exists f, In f (dvalues (ModelValue.fields m))
                        /\ FieldValue.name f = name
                        /\ FieldValue.definition_paths f = paths
                        /\ 100 <= FieldValue.unused_percentage f)
    /\ (forall m name paths,
          In (name, paths) (unused_methods m)
          <-> exists f, In f (dvalues (ModelValue.methods m))
                        /\ MethodValue.name f = name
                        /\ MethodValue.definition_paths f = paths
                        /\ 100 <= MethodValue.unused_percentage f).
Proof.
  intros reg. split; [apply report_In|].
  split; [apply unused_fields_In|apply unused_methods_In].
Qed.

(** ** The walker on statements and function bodies *)

(** Induction over statements, with the statement for every child in a list. *)
Section StmtInduction.
Variable P : ast.stmt -> Prop.
Hypothesis HAssign : forall targets value, P (ast.Assign targets value).
Hypothesis HFor :
  forall target iter body orelse, Forall P body -> Forall P orelse ->
                                  P (ast.For target iter body orelse).
Hypothesis HExpr : forall value, P (ast.Expr value).
Hypothesis HOtherStmt :
  forall children, Forall P children -> P (ast.OtherStmt children).

Fixpoint stmt_nested_ind (st : ast.stmt) : P st :=
  let all :=
    fix all (l : list ast.stmt) : Forall P l :=
      match l with
      | [] => Forall_nil P
      | x :: l' => Forall_cons x (stmt_nested_ind x) (all l')
      end in
  match st with
  | ast.Assign targets value => HAssign targets value
  | ast.For target iter body orelse =>
      HFor target iter body orelse (all body) (all orelse)
  | ast.Expr value => HExpr value
  | ast.OtherStmt children => HOtherStmt children (all children)
  end.
End StmtInduction.

Section StatementWalk.
Variables (limit : nat) (reg : registry).

Lemma fields_kept_stmts (l : list ast.stmt) :
  Forall (fun st => forall s s',
            visit_stmt limit reg st s = Ok s' -> fields_kept s s') l ->
  forall s s', for_each (visit_stmt limit reg) l s = Ok s' -> fields_kept s s'.
Proof.
  induction 1 as [|st l Hst _ IH]; intros s s' H; simpl in H.
  - inversion H. apply fields_kept_refl.
  - apply bind_Ok in H as (s1 & H1 & H).
    eapply fields_kept_trans; eauto.
Qed.

Lemma visit_stmt_keeps_fields st :
  forall s s', visit_stmt limit reg st s = Ok s' -> fields_kept s s'.
Proof.
  induction st as [targets value|target iter body orelse IHb IHo|value
                  |children IH] using stmt_nested_ind;
    intros s s' H; simpl in H.
  - apply bind_Ok in H as (s1 & H1 & H).
    apply visit_keeps_fields in H1.
    eapply fields_kept_trans; [exact H1|].
    destruct (assign_target_name targets) as [t|]; [|returned H].
    destruct (assigned_model value) as [m|]; [|returned H].
    destruct (negb (String.eqb t "")); [|returned H].
    inversion H. now apply fields_kept_same.
  - apply bind_Ok in H as (s1 & H1 & H).
    apply visit_keeps_fields in H1.
    apply bind_Ok in H as (s2 & H2 & H).
    assert (K2 : fields_kept s1 s2).
    { destruct (model_context_stack s1) as [|[iter_model o] rest]; [returned H2|].
      destruct target; try returned H2.
      apply bind_Ok in H2 as (s3 & H3 & H2).
      apply (fields_kept_stmts _ IHb) in H3.
      apply fields_kept_pop in H2.
      assert (K : fields_kept s1 (push (iter_model, id) s1))
        by now apply fields_kept_same.
      exact (fields_kept_trans _ _ _ K (fields_kept_trans _ _ _ H3 H2)). }
    apply (fields_kept_stmts _ IHo) in H.
    assert (K3 : fields_kept s2
                   (set_stack s2
                      (unwind_until_self (length (model_context_stack s))
                         (model_context_stack s2))))
      by now apply fields_kept_same.
    exact (fields_kept_trans _ _ _ H1
             (fields_kept_trans _ _ _ K2 (fields_kept_trans _ _ _ K3 H))).
  - now apply visit_keeps_fields in H.
  - eapply fields_kept_stmts; eauto.
Qed.

Lemma visit_stmts_keep_fields l s s' :
  for_each (visit_stmt limit reg) l s = Ok s' -> fields_kept s s'.
Proof.
  apply fields_kept_stmts. apply Forall_forall.
  intros st _. apply visit_stmt_keeps_fields.
Qed.
End StatementWalk.

(** X6.  The collector never forgets: when the visit of a function
    definition (argument defaults, body statements with their loops and
    assignments, decorators, annotation) returns, every field usage recorded
    before the visit is still recorded after it, whatever the binding stack
    went through. *)
Theorem visit_FunctionDef_keeps_recorded_fields :
  forall limit reg func s s',
    visit_FunctionDef limit reg func s = Ok s' -> fields_kept s s'.
Proof.
  intros limit reg func s s' H. unfold visit_FunctionDef in H.
  apply bind_Ok in H as (s1 & H1 & H).
  apply bind_Ok in H as (s2 & H2 & H).
  apply bind_Ok in H as (s3 & H3 & H).
  apply visit_each_keeps_fields in H1, H3.
  apply visit_stmts_keep_fields in H2.
  assert (K : fields_kept s3 s').
  { destruct (ast.returns func) as [annotation|].
    - now apply visit_keeps_fields in H.
    - inversion H. apply fields_kept_refl. }
  exact (fields_kept_trans _ _ _ H1
           (fields_kept_trans _ _ _ H2 (fields_kept_trans _ _ _ H3 K))).
Qed.

Lemma visit_FunctionDef_keeps_recorded_fields_witness :
  exists s',
    visit_FunctionDef 1000 Examples.sale_declared Examples.confirm_def
      (_track_field_usage "sale.order" "name" (FieldCollector_init "sale.order" []))
    = Ok s'
    /\ field_tracked s' "sale.order" "name".
Proof.
  eexists. split; [vm_compute; reflexivity|].
  apply (visit_FunctionDef_keeps_recorded_fields 1000 Examples.sale_declared
           Examples.confirm_def
           (_track_field_usage "sale.order" "name"
              (FieldCollector_init "sale.order" []))).
  - vm_compute. reflexivity.
  - eexists. split; [reflexivity|]. now left.
Defined.


(** ** Scopes: comprehensions and loops *)

Lemma unwind_to_length size s :
  length (model_context_stack (unwind_to size s))
  = Nat.min size (length (model_context_stack s)).
Proof. unfold unwind_to. simpl. rewrite length_skipn. lia. Qed.

Lemma unwind_until_self_bound size stack :
  (length (unwind_until_self size stack) <= size)%nat
  \/ exists model rest, unwind_until_self size stack = (model, "self") :: rest.
Proof.
  induction stack as [|[model obj] rest IH]; [left; simpl; lia|].
  cbn [unwind_until_self].
  destruct (size <? length ((model, obj) :: rest))%nat eqn:E.
  - destruct (String.eqb obj "self") eqn:Eo; [|exact IH].
    apply String.eqb_eq in Eo. subst. right. eauto.
  - apply Nat.ltb_ge in E. now left.
Qed.

(** X7.  A list, set or generator comprehension never leaves the binding
    stack deeper than it found it: [_visit_comprehension] unwinds to the
    depth it recorded, whatever the element and the generators pushed
    (and what was recorded as used stays recorded). *)
Theorem comprehension_restores_stack_depth :
  forall limit reg elt generators s s',
    visit limit reg (ast.Comp elt generators) s = Ok s' ->
    (length (model_context_stack s') <= length (model_context_stack s))%nat
    /\ fields_kept s s'.
Proof.
  intros limit reg elt generators s s' H.
  split; [|now apply visit_keeps_fields in H].
  simpl in H.
  apply bind_Ok in H as (s1 & _ & H).
  apply bind_Ok in H as (s2 & _ & H).
  inversion H. rewrite unwind_to_length. lia.
Qed.

Lemma comprehension_restores_stack_depth_witness :
  exists s',
    visit 1000 Examples.sale_declared
      (ast.Comp (ast.Attribute (ast.Name "l") "order_id")
         [ast.comprehension (ast.Name "l")
            (ast.Attribute (ast.Name "self") "line_ids") []])
      (FieldCollector_init "sale.order" []) = Ok s'
    /\ (length (model_context_stack s') <= 1)%nat.
Proof.
  eexists. split; [vm_compute; reflexivity|].
  apply (comprehension_restores_stack_depth 1000 Examples.sale_declared
           (ast.Attribute (ast.Name "l") "order_id")
           [ast.comprehension (ast.Name "l")
              (ast.Attribute (ast.Name "self") "line_ids") []]
           (FieldCollector_init "sale.order" [])).
  vm_compute. reflexivity.
Defined.

(** X8.  After a [for] loop without [else] clause the binding stack is no
    deeper than before the loop, unless the closing unwinding stopped at a
    binding of [self] above that depth, which is then on top. *)
Theorem for_loop_unwinds_to_depth_or_self :
  forall limit reg target iter body s s',
    visit_stmt limit reg (ast.For target iter body []) s = Ok s' ->
    (length (model_context_stack s') <= length (model_context_stack s))%nat
    \/ exists model rest, model_context_stack s' = (model, "self") :: rest.
Proof.
  intros limit reg target iter body s s' H. simpl in H.
  apply bind_Ok in H as (s1 & _ & H).
  apply bind_Ok in H as (s2 & _ & H).
  inversion H. simpl. apply unwind_until_self_bound.
Qed.

Lemma for_loop_unwinds_to_depth_or_self_witness :
  exists s',
    visit_stmt 1000 Examples.sale_declared
      (ast.For (ast.Name "line") (ast.Attribute (ast.Name "self") "line_ids")
         [ast.Expr (ast.Attribute (ast.Name "line") "order_id")] [])
      (FieldCollector_init "sale.order" []) = Ok s'
    /\ ((length (model_context_stack s') <= 1)%nat
        \/ exists model rest, model_context_stack s' = (model, "self") :: rest).
Proof.
  eexists. split; [vm_compute; reflexivity|].
  apply (for_loop_unwinds_to_depth_or_self 1000 Examples.sale_declared
           (ast.Name "line") (ast.Attribute (ast.Name "self") "line_ids")
           [ast.Expr (ast.Attribute (ast.Name "line") "order_id")]
           (FieldCollector_init "sale.order" [])).
  vm_compute. reflexivity.
Defined.

(** ** What the lookup through the parents returns *)

Lemma first_found_Some {A B} (f : A -> result (option B)) l b :
  first_found f l = Ok (Some b) -> exists x, In x l /\ f x = Ok (Some b).
Proof.
  induction l as [|x l IH]; simpl; [discriminate|].
  intros H. apply bind_Ok in H as (r & Hx & H).
  destruct r as [b'|].
  - inversion H. subst. exists x. auto.
  - destruct (IH H) as (y & Hy & Hf). exists y. auto.
Qed.

(** A field the lookup returns is the declaration of the model itself or of
    one of its ancestors. *)
Lemma _get_field_info_sound reg name f :
  forall fuel model,
    _get_field_info fuel reg model name = Ok (Some f) ->
    exists A, (A = model \/ reachable (parents_of reg) model A)
              /\ field_of reg A name = Some f.
Proof.
  induction fuel as [|fuel IH]; intros model H; simpl in H; [discriminate|].
  destruct (dget model reg) as [mv|] eqn:Em; [|discriminate].
  destruct (dget name (ModelValue.fields mv)) as [g|] eqn:Eg.
  - inversion H. subst. exists model. split; [now left|].
    unfold field_of. now rewrite Em.
  - apply first_found_Some in H as (p & Hp & H).
    assert (Hedge : In p (parents_of reg model))
      by (unfold parents_of; now rewrite Em).
    destruct (IH p H) as (A & [HA|HA] & Hf); exists A; split; auto; right.
    + subst A. now apply reachable_edge.
    + eapply reachable_step; eauto.
Qed.

Lemma ancestor_declares_inherits reg name A :
  forall model,
    reachable (parents_of reg) model A ->
    declares_field reg A name = true -> inherits_field reg name model.
Proof.
  induction 1 as [a b Hin|a b c Hin _ IH]; intros Hd.
  - eapply inherits_parent; [exact Hin|]. now apply inherits_own.
  - eapply inherits_parent; [exact Hin|]. now apply IH.
Qed.

Lemma field_of_declares reg A name f :
  field_of reg A name = Some f -> declares_field reg A name = true.
Proof.
  unfold field_of, declares_field, dmem.
  destruct (dget A reg) as [m|]; [|discriminate]. now intros ->.
Qed.

(** X9.  With acyclic parent links and fuel for the model's rank,
    [_get_field_info] (and its copy [_get_field_definition]) returns, and it
    returns a field exactly when the model or one of its ancestors declares
    the name; what it returns is the declaration of the model or of an
    ancestor, and the model's own declaration wins over any inherited one. *)
Theorem lookup_returns_inherited_declaration :
  forall reg rank name fuel model,
    ranked (parents_of reg) rank -> (rank model < fuel)%nat ->
    exists r,
      _get_field_info fuel reg model name = Ok r
      /\ (r <> None <-> inherits_field reg name model)
      /\ (forall f, r = Some f ->
            exists A, (A = model \/ reachable (parents_of reg) model A)
                      /\ field_of reg A name = Some f)
      /\ (forall f, field_of reg model name = Some f -> r = Some f).
Proof.
  intros reg rank name fuel model Hranked Hfuel.
  destruct (_get_field_info_total reg rank Hranked name fuel model Hfuel)
    as (r & Hrun & Hsome).
  exists r. split; [exact Hrun|]. split; [|split].
  - split; [|exact Hsome]. intros Hr.
    destruct r as [f|]; [|congruence]. clear Hr.
    destruct (_get_field_info_sound reg name f fuel model Hrun)
      as (A & [HA|HA] & Hf); apply field_of_declares in Hf.
    + subst A. now apply inherits_own.
    + eapply ancestor_declares_inherits; eauto.
  - intros f ->. eapply _get_field_info_sound; eauto.
  - intros f Hf. destruct fuel as [|fuel]; [lia|].
    simpl in Hrun. unfold field_of in Hf.
    destruct (dget model reg) as [mv|]; [|discriminate].
    rewrite Hf in Hrun. now inversion Hrun.
Qed.

Lemma lookup_returns_inherited_declaration_witness :
  exists r,
    _get_field_info 3 Examples.chain "leaf" "priority" = Ok r
    /\ (r <> None <-> inherits_field Examples.chain "priority" "leaf")
    /\ (forall f, r = Some f ->
          exists A, (A = "leaf" \/ reachable (parents_of Examples.chain) "leaf" A)
                    /\ field_of Examples.chain A "priority" = Some f)
    /\ (forall f, field_of Examples.chain "leaf" "priority" = Some f ->
                  r = Some f).
Proof.
  apply (lookup_returns_inherited_declaration Examples.chain Examples.depth
           "priority" 3 "leaf").
  - apply rankedb_parents. reflexivity.
  - unfold Examples.depth. simpl. lia.
Defined.

(** ** Assignments from the environment *)

Lemma append_dot_neq t f : String.eqb (t ++ "." ++ f) t = false.
Proof.
  apply String.eqb_neq. induction t as [|c t IH]; simpl.
  - discriminate.
  - intros H. injection H as H. now apply IH.
Qed.

(** X10.  After [t = <x>.env["m"].search(...)] (or [browse], [create]) the
    name [t] is bound to model [m]: when the visit of the right-hand side
    returns, the assignment followed by the access [t.f] returns too, and it
    records [f] as used on [m], for every field [f] that [m] declares. *)
Theorem assignment_from_env_binds_target :
  forall limit reg rank x m meth args kws t f fv s s1,
    let call :=
      ast.Call
        (ast.Attribute
           (ast.Subscript (ast.Attribute (ast.Name x) "env")
              (ast.Constant (ast.CStr m))) meth) args kws in
    ranked (parents_of reg) rank -> (rank m < limit)%nat ->
    str_in meth ["search"; "browse"; "create"] = true ->
    t <> "" -> m <> "" ->
    field_of reg m f = Some fv ->
    visit limit reg call s = Ok s1 ->
    exists s',
      for_each (visit_stmt limit reg)
        [ast.Assign [ast.Name t] call; ast.Expr (ast.Attribute (ast.Name t) f)] s
      = Ok s'
      /\ _get_context_for_name (model_context_stack s') t = Some m
      /\ field_tracked s' m f.
Proof.
  intros limit reg rank x m meth args kws t f fv s s1 call
    Hranked Hfuel Hmeth Ht Hm Hf Hcall.
  apply String.eqb_neq in Ht, Hm.
  assert (Hfield : _get_field_info limit reg m f = Ok (Some fv)).
  { destruct limit as [|limit]; [lia|]. simpl. unfold field_of in Hf.
    destruct (dget m reg) as [mv|]; [|discriminate]. now rewrite Hf. }
  destruct (_get_method_info_total reg rank Hranked f limit m Hfuel)
    as (mv & Hmethod).
  exists (field_hit m t f fv (push (m, t) s1)). split; [|split].
  - cbn [for_each]. 
    assert (E1 : visit_stmt limit reg (ast.Assign [ast.Name t] call) s
                 = Ok (push (m, t) s1)).
    { cbn [visit_stmt]. rewrite Hcall. cbn [bind].
      unfold call at 1. cbn [assign_target_name fold_left assigned_model].
      rewrite Hmeth, Ht. reflexivity. }
    rewrite E1. cbn [bind].
    cbn [visit_stmt visit]. unfold attribute_of_name.
    cbn [push set_stack model_context_stack _get_context_for_name].
    rewrite String.eqb_refl, Hm. cbn [negb].
    rewrite Hfield, Hmethod. reflexivity.
  - unfold field_hit.
    destruct (comodel_of fv);
      cbn [push set_stack _track_field_usage model_context_stack
           _get_context_for_name];
      rewrite ?append_dot_neq, String.eqb_refl; reflexivity.
  - apply field_tracked_field_hit.
Qed.

Lemma assignment_from_env_binds_target_witness :
  exists s',
    for_each (visit_stmt 1000 Examples.sale_declared)
      [ast.Assign [ast.Name "partner"]
         (ast.Call
            (ast.Attribute
               (ast.Subscript (ast.Attribute (ast.Name "self") "env")
                  (ast.Constant (ast.CStr "res.partner"))) "browse")
            [ast.Constant ast.COther] []);
       ast.Expr (ast.Attribute (ast.Name "partner") "email")]
      (FieldCollector_init "sale.order" [])
    = Ok s'
    /\ _get_context_for_name (model_context_stack s') "partner"
       = Some "res.partner"
    /\ field_tracked s' "res.partner" "email".
Proof.
  eapply (assignment_from_env_binds_target 1000 Examples.sale_declared
            (fun _ => 0%nat) "self" "res.partner" "browse"
            [ast.Constant ast.COther] [] "partner" "email" _
            (FieldCollector_init "sale.order" []) _).
  - apply rankedb_parents. reflexivity.
  - lia.
  - reflexivity.
  - discriminate.
  - discriminate.
  - vm_compute. reflexivity.
  - vm_compute. reflexivity.
Defined.

(** ** The exact effect of a usage mark *)

Lemma method_score_declares reg X k :
  declares_method reg X k = false -> method_score reg X k = None.
Proof.
  unfold declares_method, method_score, dmem.
  destruct (dget X reg) as [m|]; [|reflexivity].
  destruct (dget k (ModelValue.methods m)); [discriminate|reflexivity].
Qed.

Lemma str_in_cons x p l : str_in x (p :: l) = String.eqb x p || str_in x l.
Proof. reflexivity. Qed.

Lemma str_in_false x l : ~ In x l -> str_in x l = false.
Proof.
  intros H. destruct (str_in x l) eqn:E; [|reflexivity].
  now apply str_in_In in E.
Qed.

(** One more parent in front of a loop that lowers the score of [f]. *)
Lemma lower_step_combine (sc sc1 sc' : string -> string -> option Z) f c p l :
  ~ In p l ->
  (forall X g, sc1 X g = if String.eqb g f && String.eqb X p
                         then lowered c (sc X g) else sc X g) ->
  (forall X g, sc' X g = if String.eqb g f && str_in X l
                         then lowered c (sc1 X g) else sc1 X g) ->
  forall X g, sc' X g = if String.eqb g f && str_in X (p :: l)
                        then lowered c (sc X g) else sc X g.
Proof.
  intros Hp H1 H' X g. rewrite H', str_in_cons, !H1.
  destruct (String.eqb g f); cbn [andb]; [|reflexivity].
  destruct (String.eqb X p) eqn:EX; cbn [orb]; [|reflexivity].
  apply String.eqb_eq in EX. subst X.
  now rewrite (str_in_false p l Hp).
Qed.

Lemma field_score_after_write reg p f c :
  forall X g,
    field_score
      (match field_score reg p f with
       | Some s => set_field_score reg p f (lower s c)
       | None => reg
       end) X g
    = if String.eqb g f && String.eqb X p
      then lowered c (field_score reg X g) else field_score reg X g.
Proof.
  intros X g.
  destruct (string_dec g f) as [->|Hg]; destruct (string_dec X p) as [->|HX];
    rewrite ?String.eqb_refl;
    rewrite ?(proj2 (String.eqb_neq _ _) Hg), ?(proj2 (String.eqb_neq _ _) HX);
    cbn [andb].
  - destruct (field_score reg p f) as [s|] eqn:Es; [|now rewrite Es].
    apply field_score_set_same.
    destruct (declares_field reg p f) eqn:Ed; [reflexivity|].
    apply field_score_declares in Ed. congruence.
  - destruct (field_score reg p f); [|reflexivity].
    apply field_score_set_other. left. congruence.
  - destruct (field_score reg p f); [|reflexivity].
    apply field_score_set_other. right. congruence.
  - destruct (field_score reg p f); [|reflexivity].
    apply field_score_set_other. left. congruence.
Qed.

(** The loop of [field_used] over duplicate-free registered parents lowers
    the field on each of them once. *)
Lemma field_used_parents_exact f c :
  forall l reg,
    (forall p, In p l -> dmem p reg = true) -> NoDup l ->
    exists reg',
      for_each
        (fun inherited reg =>
           match dget inherited reg with
           | None => Raise (none_has_no "fields")
           | Some p =>
               match dget f (ModelValue.fields p) with
               | Some fv =>
                   Ok (set_field_score reg inherited f
                         (lower (FieldValue.unused_percentage fv) c))
               | None => Ok reg
               end
           end) l reg = Ok reg'
      /\ forall X g,
           field_score reg' X g
           = if String.eqb g f && str_in X l
             then lowered c (field_score reg X g)
             else field_score reg X g.
Proof.
  induction l as [|p l IH]; intros reg Hres Hnd; simpl.
  - exists reg. split; [reflexivity|]. intros X g.
    now rewrite andb_false_r.
  - inversion Hnd as [|? ? Hp Hnd']; subst.
    assert (Hmem : dmem p reg = true) by (apply Hres; now left).
    pose proof (field_score_after_write reg p f c) as H1.
    unfold dmem in Hmem.
    destruct (dget p reg) as [mp|] eqn:Ep; [|discriminate].
    assert (Hs : field_score reg p f
                 = option_map FieldValue.unused_percentage
                     (dget f (ModelValue.fields mp)))
      by (unfold field_score; now rewrite Ep).
    rewrite Hs in H1.
    destruct (dget f (ModelValue.fields mp)) as [fv|] eqn:Ef; simpl in H1 |- *.
    + destruct (IH (set_field_score reg p f
                      (lower (FieldValue.unused_percentage fv) c)))
        as (reg' & Hrun & Hexact); [|exact Hnd'|].
      { intros q Hq. rewrite dmem_set_field_score. apply Hres. now right. }
      exists reg'. split; [exact Hrun|].
      exact (lower_step_combine _ _ _ f c p l Hp H1 Hexact).
    + destruct (IH reg) as (reg' & Hrun & Hexact); [|exact Hnd'|].
      { intros q Hq. apply Hres. now right. }
      exists reg'. split; [exact Hrun|].
      exact (lower_step_combine _ _ _ f c p l Hp H1 Hexact).
Qed.

(** X11.  [field_used(f, c)] on a registered model whose parents are
    registered returns, and its whole effect on the scores is this: when the
    model declares [f], the score of [f] on the model becomes
    [max(score - c, 0)]; when it does not, the score of [f] becomes
    [max(score - c, 0)] on each direct parent declaring it; every other
    score, of any field on any model, is left as it was. *)
Theorem field_used_lowers_exactly :
  forall reg M f c,
    dmem M reg = true ->
    (forall p, In p (parents_of reg M) -> dmem p reg = true) ->
    NoDup (parents_of reg M) ->
    exists reg',
      field_used reg M f c = Ok reg'
      /\ forall X g,
           field_score reg' X g
           = if String.eqb g f
                && (if declares_field reg M f then String.eqb X M
                    else str_in X (parents_of reg M))
             then lowered c (field_score reg X g)
             else field_score reg X g.
Proof.
  intros reg M f c HM Hres Hnd.
  pose proof (field_score_after_write reg M f c) as H1.
  unfold field_used, parents_of, declares_field, dmem in *.
  destruct (dget M reg) as [mM|] eqn:EM; [|discriminate].
  assert (Hs : field_score reg M f
               = option_map FieldValue.unused_percentage
                   (dget f (ModelValue.fields mM)))
    by (unfold field_score; now rewrite EM).
  rewrite Hs in H1.
  destruct (dget f (ModelValue.fields mM)) as [fv|] eqn:Ef; simpl in H1.
  - eexists. split; [reflexivity|]. exact H1.
  - apply (field_used_parents_exact f c _ reg Hres Hnd).
Qed.

Lemma field_used_lowers_exactly_witness :
  exists reg',
    field_used Examples.chain "leaf" "state" 25 = Ok reg'
    /\ forall X g,
         field_score reg' X g
         = if String.eqb g "state"
              && (if declares_field Examples.chain "leaf" "state"
                  then String.eqb X "leaf"
                  else str_in X (parents_of Examples.chain "leaf"))
           then lowered 25 (field_score Examples.chain X g)
           else field_score Examples.chain X g.
Proof.
  apply (field_used_lowers_exactly Examples.chain "leaf" "state" 25).
  - reflexivity.
  - intros p [<-|[]]. reflexivity.
  - repeat constructor. intros [].
Defined.

Lemma method_score_after_write reg p f c :
  forall X g,
    method_score
      (match method_score reg p f with
       | Some s => set_method_score reg p f (lower s c)
       | None => reg
       end) X g
    = if String.eqb g f && String.eqb X p
      then lowered c (method_score reg X g) else method_score reg X g.
Proof.
  intros X g.
  destruct (string_dec g f) as [->|Hg]; destruct (string_dec X p) as [->|HX];
    rewrite ?String.eqb_refl;
    rewrite ?(proj2 (String.eqb_neq _ _) Hg), ?(proj2 (String.eqb_neq _ _) HX);
    cbn [andb].
  - destruct (method_score reg p f) as [s|] eqn:Es; [|now rewrite Es].
    apply method_score_set_same.
    destruct (declares_method reg p f) eqn:Ed; [reflexivity|].
    apply method_score_declares in Ed. congruence.
  - destruct (method_score reg p f); [|reflexivity].
    apply method_score_set_other. left. congruence.
  - destruct (method_score reg p f); [|reflexivity].
    apply method_score_set_other. right. congruence.
  - destruct (method_score reg p f); [|reflexivity].
    apply method_score_set_other. left. congruence.
Qed.

(** The loop of [method_used] over duplicate-free registered parents lowers
    the method on each of them once. *)
Lemma method_used_parents_exact f c :
  forall l reg,
    (forall p, In p l -> dmem p reg = true) -> NoDup l ->
    exists reg',
      for_each
        (fun inherited reg =>
           match dget inherited reg with
           | None => Raise (none_has_no "methods")
           | Some p =>
               match dget f (ModelValue.methods p) with
               | Some fv =>
                   Ok (set_method_score reg inherited f
                         (lower (MethodValue.unused_percentage fv) c))
               | None => Ok reg
               end
           end) l reg = Ok reg'
      /\ forall X g,
           method_score reg' X g
           = if String.eqb g f && str_in X l
             then lowered c (method_score reg X g)
             else method_score reg X g.
Proof.
  induction l as [|p l IH]; intros reg Hres Hnd; simpl.
  - exists reg. split; [reflexivity|]. intros X g.
    now rewrite andb_false_r.
  - inversion Hnd as [|? ? Hp Hnd']; subst.
    assert (Hmem : dmem p reg = true) by (apply Hres; now left).
    pose proof (method_score_after_write reg p f c) as H1.
    unfold dmem in Hmem.
    destruct (dget p reg) as [mp|] eqn:Ep; [|discriminate].
    assert (Hs : method_score reg p f
                 = option_map MethodValue.unused_percentage
                     (dget f (ModelValue.methods mp)))
      by (unfold method_score; now rewrite Ep).
    rewrite Hs in H1.
    destruct (dget f (ModelValue.methods mp)) as [fv|] eqn:Ef; simpl in H1 |- *.
    + destruct (IH (set_method_score reg p f
                      (lower (MethodValue.unused_percentage fv) c)))
        as (reg' & Hrun & Hexact); [|exact Hnd'|].
      { intros q Hq. rewrite dmem_set_method_score. apply Hres. now right. }
      exists reg'. split; [exact Hrun|].
      exact (lower_step_combine _ _ _ f c p l Hp H1 Hexact).
    + destruct (IH reg) as (reg' & Hrun & Hexact); [|exact Hnd'|].
      { intros q Hq. apply Hres. now right. }
      exists reg'. split; [exact Hrun|].
      exact (lower_step_combine _ _ _ f c p l Hp H1 Hexact).
Qed.

(** X12.  [method_used(m, c)] on a registered model that does not declare
    [m] needs no recursion and returns whatever depth is left: the score of
    [m] becomes [max(score - c, 0)] on each direct parent declaring it and
    every other method score is left as it was; in particular no child of
    the model or of its parents is zeroed. *)
Theorem method_used_undeclared_lowers_parents_only :
  forall fuel reg M m c,
    dmem M reg = true ->
    (forall p, In p (parents_of reg M) -> dmem p reg = true) ->
    NoDup (parents_of reg M) ->
    declares_method reg M m = false ->
    exists reg',
      method_used fuel reg M m c = Ok reg'
      /\ forall X k,
           method_score reg' X k
           = if String.eqb k m && str_in X (parents_of reg M)
             then lowered c (method_score reg X k)
             else method_score reg X k.
Proof.
  intros fuel reg M m c HM Hres Hnd Hdecl.
  unfold method_used, parents_of, declares_method, dmem in *.
  destruct (dget M reg) as [mM|] eqn:EM; [|discriminate].
  destruct (dget m (ModelValue.methods mM)) as [mv|] eqn:Em; [discriminate|].
  apply (method_used_parents_exact m c _ reg Hres Hnd).
Qed.

Lemma method_used_undeclared_lowers_parents_only_witness :
  exists reg',
    method_used 0 Examples.two_parents "child" "run" 100 = Ok reg'
    /\ forall X k,
         method_score reg' X k
         = if String.eqb k "run"
              && str_in X (parents_of Examples.two_parents "child")
           then lowered 100 (method_score Examples.two_parents X k)
           else method_score Examples.two_parents X k.
Proof.
  apply (method_used_undeclared_lowers_parents_only 0 Examples.two_parents
           "child" "run" 100).
  - reflexivity.
  - intros p [<-|[<-|[]]]; reflexivity.
  - repeat constructor; simpl; intuition discriminate.
  - reflexivity.
Defined.

(** ** Marking several fields *)

Lemma scores_in_rangeb_sound reg :
  scores_in_rangeb reg = true -> scores_in_range reg.
Proof.
  unfold scores_in_rangeb, scores_in_range, field_score.
  rewrite forallb_forall. intros H model field s Hs.
  destruct (dget model reg) as [m|] eqn:Em; [|discriminate].
  destruct (dget field (ModelValue.fields m)) as [f|] eqn:Ef; [|discriminate].
  apply dget_In, H in Em. simpl in Em. rewrite forallb_forall in Em.
  apply dget_In, Em in Ef. simpl in Ef, Hs. inversion Hs. subst. lia.
Qed.

(** X13.  Marking fields as used never raises a score and never leaves
    [0,100]: when [field_used_multi] (a view's fields, with
    [field_used_in_view] and [field_used] as the one-field cases) returns on
    a registry whose scores are in range, with a confidence that is not
    negative, every score afterwards is in range and at most what it was. *)
Theorem field_used_multi_only_lowers_scores :
  forall fields reg M c reg',
    0 <= c -> scores_in_range reg ->
    field_used_multi reg M fields c = Ok reg' ->
    scores_in_range reg'
    /\ forall X g s', field_score reg' X g = Some s' ->
                      exists s, field_score reg X g = Some s /\ s' <= s.
Proof.
  unfold field_used_multi.
  induction fields as [|f fields IH]; intros reg M c reg' Hc Hrange H;
    simpl in H.
  - inversion H. subst. split; [exact Hrange|]. intros X g s' Hs'.
    exists s'. split; [exact Hs'|lia].
  - apply bind_Ok in H as (reg1 & H1 & H).
    pose proof (field_used_lowers_scores reg M f c Hc Hrange reg1 H1) as Hstep.
    assert (Hrange1 : scores_in_range reg1).
    { intros X g s1 Hs1. destruct (Hstep X g s1 Hs1) as (s & Hs & Hle).
      apply Hrange in Hs. lia. }
    destruct (IH reg1 M c reg' Hc Hrange1 H) as (Hrange' & Hle').
    split; [exact Hrange'|]. intros X g s' Hs'.
    destruct (Hle' X g s' Hs') as (s1 & Hs1 & Hle1).
    destruct (Hstep X g s1 Hs1) as (s & Hs & Hle).
    exists s. split; [exact Hs|lia].
Qed.

Lemma field_used_multi_only_lowers_scores_witness :
  exists reg',
    field_used_multi Examples.sale_declared "sale.order"
      ["partner_id"; "name"; "partner_id"] 25 = Ok reg'
    /\ scores_in_range reg'
    /\ forall X g s', field_score reg' X g = Some s' ->
         exists s, field_score Examples.sale_declared X g = Some s /\ s' <= s.
Proof.
  eexists. split; [vm_compute; reflexivity|].
  apply (field_used_multi_only_lowers_scores ["partner_id"; "name"; "partner_id"]
           Examples.sale_declared "sale.order" 25).
  - lia.
  - apply scores_in_rangeb_sound. reflexivity.
  - vm_compute. reflexivity.
Defined.

(** ** The method scan *)

Lemma has_orm_decorator_In func_def d name :
  In d (ast.decorator_list func_def) ->
  get_decorator_name d = Some name ->
  In name common_orm_decorators ->
  has_orm_decorator func_def = true.
Proof.
  intros Hd Hname Hin. unfold has_orm_decorator.
  apply existsb_exists. exists d. split; [exact Hd|].
  rewrite Hname. now apply str_in_In.
Qed.

(** X14.  [_find_methods] registers a function of the class body exactly
    when none of its decorators is named like an ORM decorator
    ([@api.depends(...)], [@api.onchange(...)], [@api.constrains], ...,
    with or without call and qualifier), its name is not one of [create],
    [write], [default_get], [unlink], [copy], and does not start with
    [_compute], [_inverse] or [_default]; it registers it under its own
    name with score 100, that definition as only body and
    ["<file>:<line>"] as definition path. *)
Theorem _find_methods_registers_plain_methods :
  forall func_defs file_path,
    (forall m,
        In m (_find_methods func_defs file_path)
        <-> exists d,
              In d func_defs
              /\ has_orm_decorator d = false
              /\ ~ In (ast.name d) ignored_methods
              /\ has_auto_prefix (ast.name d) = false
              /\ m = MethodValue.mk (ast.name d) [d] 100
                       [file_path ++ ":" ++ str_of_nat (ast.lineno d)])
    /\ (forall d obj dec args keywords,
          In dec common_orm_decorators ->
          In (ast.Call (ast.Attribute obj dec) args keywords)
             (ast.decorator_list d)
          \/ In (ast.Attribute obj dec) (ast.decorator_list d)
          \/ In (ast.Name dec) (ast.decorator_list d) ->
          has_orm_decorator d = true).
Proof.
  intros func_defs file_path. split.
  - intros m. unfold _find_methods. rewrite in_flat_map. split.
    + intros (d & Hd & Hm). exists d.
      destruct (has_orm_decorator d); [destruct Hm|].
      destruct (str_in (ast.name d) ignored_methods) eqn:Ei; [destruct Hm|].
      destruct (has_auto_prefix (ast.name d)); [destruct Hm|].
      destruct Hm as [<-|[]]. repeat split; auto.
      intros Hin. apply str_in_In in Hin. congruence.
    + intros (d & Hd & Ho & Hi & Hp & ->). exists d. split; [exact Hd|].
      rewrite Ho, Hp.
      destruct (str_in (ast.name d) ignored_methods) eqn:Ei.
      * apply str_in_In in Ei. contradiction.
      * now left.
  - intros d obj dec args keywords Hdec [H|[H|H]];
      (eapply has_orm_decorator_In; [exact H|reflexivity|exact Hdec]).
Qed.

Lemma _find_methods_registers_plain_methods_witness :
  In (MethodValue.mk "action_confirm" [Examples.def "action_confirm" 12 []] 100
        ["sale.py:12"])
     (_find_methods Examples.sale_order_defs "sale.py")
  /\ has_orm_decorator Examples.onchange_partner = true.
Proof.
  destruct (_find_methods_registers_plain_methods Examples.sale_order_defs
              "sale.py") as (Hiff & Hdec).
  split.
  - apply Hiff. exists (Examples.def "action_confirm" 12 []).
    repeat split.
    + right. right. now left.
    + simpl. intuition discriminate.
  - apply (Hdec Examples.onchange_partner (ast.Name "api") "onchange"
             [ast.Constant (ast.CStr "partner_id")] []).
    + simpl. tauto.
    + left. now left.
Defined.

(** ** References to models in XML records *)

Lemma contains_dot_char s : contains_dot s = contains_char "."%char s.
Proof.
  induction s as [|c s IH]; simpl; [reflexivity|].
  rewrite IH. now destruct (Ascii.eqb c ".").
Qed.

Lemma replace_char_absent a b s :
  a <> b -> contains_char a (replace_char a b s) = false.
Proof.
  intros Hab. induction s as [|c s IH]; simpl; [reflexivity|].
  rewrite IH, orb_false_r.
  destruct (Ascii.eqb c a) eqn:E; [|exact E].
  apply Ascii.eqb_neq. congruence.
Qed.

Lemma replace_char_back a b s :
  contains_char b s = false -> replace_char b a (replace_char a b s) = s.
Proof.
  induction s as [|c s IH]; simpl; [reflexivity|].
  intros H. apply orb_false_iff in H as (Hc & Hs). rewrite (IH Hs).
  destruct (Ascii.eqb c a) eqn:E.
  - apply Ascii.eqb_eq in E. subst. now rewrite Ascii.eqb_refl.
  - now rewrite Hc.
Qed.

Lemma split_on_no_sep sep s :
  contains_char sep s = false -> split_on sep s = [s].
Proof.
  induction s as [|c s IH]; simpl; [reflexivity|].
  intros H. apply orb_false_iff in H as (Hc & Hs).
  now rewrite Hc, (IH Hs).
Qed.

Lemma split_on_qualified sep q s :
  contains_char sep q = false ->
  split_on sep (q ++ String sep s) = q :: split_on sep s.
Proof.
  induction q as [|c q IH]; simpl.
  - intros _. now rewrite Ascii.eqb_refl.
  - intros H. apply orb_false_iff in H as (Hc & Hq).
    now rewrite Hc, (IH Hq).
Qed.

Lemma contains_char_qualified sep q s :
  contains_char sep (q ++ String sep s) = true.
Proof.
  induction q as [|c q IH]; simpl.
  - now rewrite Ascii.eqb_refl.
  - rewrite IH. apply orb_true_r.
Qed.

(** X15.  The decoding of a model reference inverts Odoo's naming of model
    records: for a model name without underscore, the reference
    [model_<name with dots as underscores>], bare or qualified by a module
    name, is decoded to that model name, by [_get_xml_record_model]'s
    [ref] branch as by [_get_technical_model_name_from_xml_id]. *)
Theorem model_reference_round_trip :
  forall name,
    contains_char "_"%char name = false ->
    let ref := "model_" ++ replace_char "."%char "_"%char name in
    model_of_ref ref = name
    /\ _get_technical_model_name_from_xml_id ref = name
    /\ (forall module,
          contains_dot module = false ->
          model_of_ref (module ++ "." ++ ref) = name
          /\ _get_technical_model_name_from_xml_id (module ++ "." ++ ref)
             = name)
    /\ forall attrib,
         _get_xml_record_model
           (xml.mkElement "record" attrib None
              [xml.mkElement "field" [("name", "model_id"); ("ref", ref)]
                 None []])
         = name.
Proof.
  intros name Hname ref.
  assert (Hnodot : contains_char "."%char ref = false).
  { unfold ref. simpl. apply replace_char_absent. discriminate. }
  assert (Hdec : replace_char "_"%char "."%char (drop 6 ref) = name).
  { unfold ref. simpl. now apply replace_char_back. }
  assert (Hpre : String.prefix "model_" ref = true)
    by (unfold ref; simpl;
        now destruct (replace_char "."%char "_"%char name)).
  assert (Hbare : model_of_ref ref = name).
  { unfold model_of_ref. rewrite contains_dot_char, Hnodot, Hpre. exact Hdec. }
  split; [exact Hbare|split; [|split]].
  - unfold _get_technical_model_name_from_xml_id.
    rewrite contains_dot_char, Hnodot. exact Hdec.
  - intros module Hmod. rewrite contains_dot_char in Hmod.
    change (module ++ "." ++ ref) with (module ++ String "."%char ref).
    unfold model_of_ref, _get_technical_model_name_from_xml_id.
    rewrite contains_dot_char, contains_char_qualified.
    rewrite (split_on_qualified _ _ _ Hmod), (split_on_no_sep _ _ Hnodot).
    cbn [nth]. rewrite Hpre. split; exact Hdec.
  - intros attrib. rewrite <- Hbare. reflexivity.
Qed.

Lemma model_reference_round_trip_witness :
  model_of_ref "model_sale_order_line" = "sale.order.line"
  /\ _get_technical_model_name_from_xml_id "model_sale_order_line"
     = "sale.order.line"
  /\ (forall module,
        contains_dot module = false ->
        model_of_ref (module ++ "." ++ "model_sale_order_line")
        = "sale.order.line"
        /\ _get_technical_model_name_from_xml_id
             (module ++ "." ++ "model_sale_order_line")
           = "sale.order.line")
  /\ forall attrib,
       _get_xml_record_model
         (xml.mkElement "record" attrib None
            [xml.mkElement "field"
               [("name", "model_id"); ("ref", "model_sale_order_line")]
               None []])
       = "sale.order.line".
Proof.
  apply (model_reference_round_trip "sale.order.line"). reflexivity.
Defined.

(** X16.  A model reference is never decoded to a name with an underscore:
    whatever the [ref], [_get_xml_record_model]'s decoding and
    [_get_technical_model_name_from_xml_id] return a name without [_], so
    no reference resolves to a model whose technical name has one; and the
    two decodings agree unless the reference lacks the [model_] prefix,
    where the former returns the empty name. *)
Theorem model_reference_never_has_underscore :
  forall ref,
    contains_char "_"%char (model_of_ref ref) = false
    /\ contains_char "_"%char (_get_technical_model_name_from_xml_id ref) = false
    /\ (model_of_ref ref = _get_technical_model_name_from_xml_id ref
        \/ model_of_ref ref = "").
Proof.
  intros ref. unfold model_of_ref, _get_technical_model_name_from_xml_id.
  set (part := if contains_dot ref then nth 1 (split_on "."%char ref) ""
               else ref).
  split; [|split].
  - destruct (String.prefix "model_" part); [|reflexivity].
    apply replace_char_absent. discriminate.
  - apply replace_char_absent. discriminate.
  - destruct (String.prefix "model_" part); auto.
Qed.

(** ** The merge on values of the right class *)

Lemma dget_as_pyobjs k reg :
  dget k (as_pyobjs reg) = option_map Dynamic.PyModel (dget k reg).
Proof.
  induction reg as [|[k' m] reg IH]; simpl; [reflexivity|].
  destruct (String.eqb k k'); [reflexivity|exact IH].
Qed.

Lemma dset_as_pyobjs k m reg :
  dset k (Dynamic.PyModel m) (as_pyobjs reg) = as_pyobjs (dset k m reg).
Proof.
  induction reg as [|[k' m'] reg IH]; simpl; [reflexivity|].
  destruct (String.eqb k k'); simpl; [reflexivity|now rewrite IH].
Qed.

Lemma declare_model reg model :
  Dynamic.declare (Dynamic.PyModel model) (as_pyobjs reg)
  = Ok (as_pyobjs (merge_model reg model)).
Proof.
  unfold Dynamic.declare, merge_model. simpl.
  rewrite dget_as_pyobjs.
  destruct (dget (ModelValue.name model) reg) as [existing|]; simpl;
    now rewrite dset_as_pyobjs.
Qed.

Lemma declare_all_models models :
  forall reg,
    Dynamic.declare_all (map Dynamic.PyModel models) (as_pyobjs reg)
    = (as_pyobjs (fold_left merge_model models reg), None).
Proof.
  induction models as [|model models IH]; intros reg; simpl; [reflexivity|].
  change (match Dynamic.declare (Dynamic.PyModel model) (as_pyobjs reg) with
          | Ok definitions_map' =>
              Dynamic.declare_all (map Dynamic.PyModel models) definitions_map'
          | Raise e => (as_pyobjs reg, Some e)
          end
          = (as_pyobjs (fold_left merge_model models (merge_model reg model)),
             None)).
  rewrite declare_model. apply IH.
Qed.

(** X17.  On values of the right class the merge raises nothing: when every
    scanned class yields a model and the registry holds models, phase 1
    ([_initialize_definitions_map] file after file) returns with the error
    log as it was, and the registry it leaves is the one obtained by merging
    the models one after the other; the class step of the declaration pass
    is that merge, applied after the placeholders of the parents. *)
Theorem well_kinded_declarations_log_no_error :
  forall (files : list (string * list ModelValue.t)) reg log,
    Dynamic.analyze_declarations
      (map (fun file => (fst file, map Dynamic.PyModel (snd file))) files)
      (as_pyobjs reg, log)
    = Ok (as_pyobjs
            (fold_left (fun reg file => fold_left merge_model (snd file) reg)
               files reg),
          log)
    /\ forall c,
         declare_class reg c
         = merge_model (placeholders (kept_parents c) reg) (class_model c).
Proof.
  intros files reg log. split; [|reflexivity].
  revert reg. unfold Dynamic.analyze_declarations.
  induction files as [|[path models] files IH]; intros reg; simpl;
    [reflexivity|].
  unfold Dynamic._initialize_definitions_map at 1. simpl.
  rewrite declare_all_models. simpl. apply IH.
Qed.

(** ** Merging two declarations of a model *)

Lemma dget_not_key {V} k (d : dict V) : ~ In k (dkeys d) -> dget k d = None.
Proof.
  unfold dkeys. induction d as [|[k' v] d IH]; simpl; [reflexivity|].
  intros H. destruct (String.eqb k k') eqn:E.
  - apply String.eqb_eq in E. subst. tauto.
  - apply IH. tauto.
Qed.

(** A loop that merges the entries of [theirs] into [mine], combining with
    [join] where the key is present. *)
Lemma merge_loop_lookup {V} (join : V -> V -> V) k :
  forall (theirs mine : dict V),
    NoDup (dkeys theirs) ->
    dget k
      (fold_left
         (fun d kv => match dget (fst kv) d with
                      | Some v => dset (fst kv) (join v (snd kv)) d
                      | None => dset (fst kv) (snd kv) d
                      end)
         theirs mine)
    = match dget k mine, dget k theirs with
      | Some a, Some b => Some (join a b)
      | None, Some b => Some b
      | a, None => a
      end.
Proof.
  induction theirs as [|[k0 v0] theirs IH]; intros mine Hnd; simpl.
  - now destruct (dget k mine).
  - inversion Hnd as [|? ? Hk0 Hnd']; subst. rewrite (IH _ Hnd').
    destruct (String.eqb k k0) eqn:E.
    + apply String.eqb_eq in E. subst k0.
      rewrite (dget_not_key k theirs Hk0).
      destruct (dget k mine); now rewrite dget_dset_eq.
    + apply String.eqb_neq in E.
      assert (Hsame : forall v, dget k (dset k0 v mine) = dget k mine)
        by (intros v; apply dget_dset_neq; congruence).
      destruct (dget k0 mine); now rewrite Hsame.
Qed.

(** X18.  [ModelValue.__ior__] merges by name: the merged model keeps its
    own name; a field or method present on both sides is the [__ior__] of
    the two (so a field keeps the score it had, while a method gets the
    smaller of the two scores and both bodies), one present on one side only
    is taken as it is; and the parents are those of either side. *)
Theorem ModelValue_ior_merges_by_name :
  forall self other,
    NoDup (dkeys (ModelValue.fields other)) ->
    NoDup (dkeys (ModelValue.methods other)) ->
    let merged := ModelValue.ior self other in
    ModelValue.name merged = ModelValue.name self
    /\ (forall k,
          dget k (ModelValue.fields merged)
          = match dget k (ModelValue.fields self),
                  dget k (ModelValue.fields other) with
            | Some a, Some b => Some (FieldValue.ior a b)
            | None, Some b => Some b
            | a, None => a
            end)
    /\ (forall k,
          dget k (ModelValue.methods merged)
          = match dget k (ModelValue.methods self),
                  dget k (ModelValue.methods other) with
            | Some a, Some b => Some (MethodValue.ior a b)
            | None, Some b => Some b
            | a, None => a
            end)
    /\ (forall a b,
          FieldValue.unused_percentage (FieldValue.ior a b)
          = FieldValue.unused_percentage a)
    /\ (forall a b,
          MethodValue.unused_percentage (MethodValue.ior a b)
          = Z.min (MethodValue.unused_percentage a)
                  (MethodValue.unused_percentage b)
          /\ MethodValue.function_definitions (MethodValue.ior a b)
             = (MethodValue.function_definitions a
                ++ MethodValue.function_definitions b)%list)
    /\ (forall p,
          In p (ModelValue.inherited_models merged)
          <-> In p (ModelValue.inherited_models self)
              \/ In p (ModelValue.inherited_models other)).
Proof.
  intros self other Hf Hm merged. split; [reflexivity|].
  split; [|split; [|split; [|split]]].
  - intros k. apply (merge_loop_lookup FieldValue.ior k _ _ Hf).
  - intros k. apply (merge_loop_lookup MethodValue.ior k _ _ Hm).
  - intros a b. reflexivity.
  - intros a b. split; reflexivity.
  - intros p. apply update_keys_In.
Qed.

Lemma ModelValue_ior_merges_by_name_witness :
  let self := Examples.redeclared_first in
  let other := Examples.redeclared_second in
  let merged := ModelValue.ior self other in
  ModelValue.name merged = "sale.order"
  /\ option_map FieldValue.unused_percentage
       (dget "note" (ModelValue.fields merged)) = Some 0
  /\ option_map MethodValue.unused_percentage
       (dget "action_confirm" (ModelValue.methods merged)) = Some 0
  /\ dget "origin" (ModelValue.fields merged)
     = dget "origin" (ModelValue.fields other).
Proof.
  destruct (ModelValue_ior_merges_by_name Examples.redeclared_first
              Examples.redeclared_second)
    as (Hname & Hfields & Hmethods & _).
  - repeat constructor; simpl; intuition discriminate.
  - repeat constructor; simpl; intuition discriminate.
  - cbv zeta. split; [exact Hname|]. split; [|split].
    + rewrite Hfields. reflexivity.
    + rewrite Hmethods. reflexivity.
    + rewrite Hfields. reflexivity.
Defined.

(** ** Without a cycle, every lookup and every mark returns *)

Lemma same_links_refl reg : same_links reg reg.
Proof. intros X. auto. Qed.

Lemma same_links_trans r1 r2 r3 :
  same_links r1 r2 -> same_links r2 r3 -> same_links r1 r3.
Proof.
  intros H12 H23 X. destruct (H12 X) as (? & ? & ?), (H23 X) as (? & ? & ?).
  repeat split; congruence.
Qed.

Lemma same_links_set_field_score reg X k v :
  same_links reg (set_field_score reg X k v).
Proof.
  intros Y. unfold parents_of, children_of, dmem.
  rewrite dget_set_field_score.
  destruct (String.eqb X Y) eqn:E; [|auto].
  apply String.eqb_eq in E. subst Y.
  destruct (dget X reg) as [m|]; [|auto].
  destruct (dget k (ModelValue.fields m)); auto.
Qed.

Lemma same_links_set_method_score reg X k v :
  same_links reg (set_method_score reg X k v).
Proof.
  intros Y. unfold parents_of, children_of, dmem.
  rewrite dget_set_method_score.
  destruct (String.eqb X Y) eqn:E; [|auto].
  apply String.eqb_eq in E. subst Y.
  destruct (dget X reg) as [m|]; [|auto].
  destruct (dget k (ModelValue.methods m)); auto.
Qed.

Lemma for_each_same_links {A} (body : A -> registry -> result registry) l :
  (forall x reg reg', body x reg = Ok reg' -> same_links reg reg') ->
  forall reg reg', for_each body l reg = Ok reg' -> same_links reg reg'.
Proof.
  intros Hbody. induction l as [|x l IH]; intros reg reg' H; simpl in H.
  - inversion H. apply same_links_refl.
  - apply bind_Ok in H as (reg1 & H1 & H).
    eapply same_links_trans; eauto.
Qed.

Lemma field_used_same_links reg M f c reg' :
  field_used reg M f c = Ok reg' -> same_links reg reg'.
Proof.
  unfold field_used. destruct (dget M reg) as [m|]; [|discriminate].
  destruct (dget f (ModelValue.fields m)).
  - intros H. inversion H. apply same_links_set_field_score.
  - apply for_each_same_links. intros p r r' H.
    destruct (dget p r) as [mp|]; [|discriminate].
    destruct (dget f (ModelValue.fields mp)); inversion H;
      [apply same_links_set_field_score|apply same_links_refl].
Qed.

Lemma method_used_child_same_links m :
  forall fuel reg self reg',
    method_used_child fuel reg self m = Ok reg' -> same_links reg reg'.
Proof.
  induction fuel as [|fuel IH]; intros reg self reg' H; simpl in H;
    [discriminate|].
  destruct (dget self reg) as [ms|]; [|discriminate].
  revert H. apply for_each_same_links. intros child r r' H.
  destruct (dget child r) as [cm|]; [|discriminate].
  apply IH in H. eapply same_links_trans; [|exact H].
  destruct (dmem m (ModelValue.methods cm));
    [apply same_links_set_method_score|apply same_links_refl].
Qed.

Lemma method_used_same_links fuel reg M m c reg' :
  method_used fuel reg M m c = Ok reg' -> same_links reg reg'.
Proof.
  unfold method_used. destruct (dget M reg) as [mM|]; [|discriminate].
  destruct (dget m (ModelValue.methods mM)).
  - intros H. apply method_used_child_same_links in H.
    eapply same_links_trans; [|exact H]. apply same_links_set_method_score.
  - apply for_each_same_links. intros p r r' H.
    destruct (dget p r) as [mp|]; [|discriminate].
    destruct (dget m (ModelValue.methods mp)); inversion H;
      [apply same_links_set_method_score|apply same_links_refl].
Qed.

(** The loop of [method_used] over registered parents returns. *)
Lemma method_used_parents_return m c :
  forall l reg,
    (forall p, In p l -> dmem p reg = true) ->
    exists reg',
      for_each
        (fun inherited reg =>
           match dget inherited reg with
           | None => Raise (none_has_no "methods")
           | Some p =>
               match dget m (ModelValue.methods p) with
               | Some f =>
                   Ok (set_method_score reg inherited m
                         (lower (MethodValue.unused_percentage f) c))
               | None => Ok reg
               end
           end) l reg = Ok reg'.
Proof.
  induction l as [|p l IH]; intros reg Hres; simpl; [eauto|].
  assert (Hp : dmem p reg = true) by (apply Hres; now left).
  unfold dmem in Hp. destruct (dget p reg) as [mp|]; [|discriminate].
  destruct (dget m (ModelValue.methods mp)); simpl; apply IH; intros q Hq.
  - rewrite dmem_set_method_score. apply Hres. now right.
  - apply Hres. now right.
Qed.

Lemma reversedb_sound reg :
  reversedb reg = true ->
  forall X child, In child (children_of reg X) -> In X (parents_of reg child).
Proof.
  unfold reversedb, children_of. rewrite forallb_forall.
  intros H X child Hin.
  destruct (dget X reg) as [m|] eqn:Em; [|destruct Hin].
  apply dget_In, H in Em. simpl in Em. rewrite forallb_forall in Em.
  now apply str_in_In, Em.
Qed.

(** X19.  Without an inheritance cycle nothing runs out of recursion depth:
    in a registry whose parent links are acyclic (ranked below [bound]) and
    registered and whose child links are parent links reversed, with more
    depth than [bound] left, both lookups return for every model and name,
    and [field_used] and [method_used] return on every registered model;
    and a mark leaves the registered models and their links as they were,
    so the same holds for the registry it returns. *)
Theorem acyclic_registry_marks_return :
  forall reg rank bound fuel,
    ranked (parents_of reg) rank ->
    (forall X, (rank X <= bound)%nat) ->
    (bound < fuel)%nat ->
    resolved reg (parents_of reg) ->
    (forall X child, In child (children_of reg X) -> In X (parents_of reg child)) ->
    forall M name c,
      (exists r, _get_field_info fuel reg M name = Ok r)
      /\ (exists r, _get_method_info fuel reg M name = Ok r)
      /\ (dmem M reg = true ->
          (exists reg', field_used reg M name c = Ok reg' /\ same_links reg reg')
          /\ (exists reg', method_used fuel reg M name c = Ok reg'
                           /\ same_links reg reg')).
Proof.
  intros reg rank bound fuel Hranked Hbound Hfuel Hres Hrev M name c.
  assert (HrankM : forall X, (rank X < fuel)%nat)
    by (intros X; specialize (Hbound X); lia).
  split; [|split].
  - destruct (_get_field_info_total reg rank Hranked name fuel M (HrankM M))
      as (r & Hr & _). eauto.
  - apply (_get_method_info_total reg rank Hranked name fuel M (HrankM M)).
  - intros HM. split.
    + destruct (field_used_frame reg M name c HM (Hres M)) as (reg' & Hrun & _).
      exists reg'. split; [exact Hrun|]. eapply field_used_same_links; eauto.
    + assert (Hreturns : exists reg', method_used fuel reg M name c = Ok reg').
      { unfold method_used. pose proof HM as HM'. unfold dmem in HM'.
        destruct (dget M reg) as [mM|] eqn:EM; [|discriminate].
        destruct (dget name (ModelValue.methods mM)) as [mv|] eqn:Em.
        - set (reg0 := set_method_score reg M name
                         (lower (MethodValue.unused_percentage mv) c)).
          destruct (method_used_child_spec name (children_of reg)
                      (fun Y => dmem Y reg)
                      (fun Y => declares_method reg Y name)
                      (fun X => (bound - rank X)%nat))
            with (fuel := fuel) (reg := reg0) (self := M)
            as (reg' & Hrun & _).
          + intros X child Hin. apply Hrev in Hin.
            apply Hranked in Hin. specialize (Hbound child). lia.
          + intros X child Hin. apply Hrev in Hin.
            unfold parents_of in Hin. unfold dmem.
            destruct (dget child reg); [reflexivity|destruct Hin].
          + apply fits_set. repeat split; auto.
          + exact HM.
          + lia.
          + eauto.
        - apply method_used_parents_return. intros p Hp.
          apply (Hres M). unfold parents_of. now rewrite EM. }
      destruct Hreturns as (reg' & Hrun). exists reg'.
      split; [exact Hrun|]. eapply method_used_same_links; eauto.
Qed.


Lemma acyclic_registry_marks_return_witness :
  (exists r, _get_field_info 3 Examples.chain "leaf" "run" = Ok r)
  /\ (exists r, _get_method_info 3 Examples.chain "leaf" "run" = Ok r)
  /\ (dmem "leaf" Examples.chain = true ->
      (exists reg', field_used Examples.chain "leaf" "run" 100 = Ok reg'
                    /\ same_links Examples.chain reg')
      /\ (exists reg', method_used 3 Examples.chain "leaf" "run" 100 = Ok reg'
                       /\ same_links Examples.chain reg')).
Proof.
  apply (acyclic_registry_marks_return Examples.chain Examples.depth 2 3).
  - apply rankedb_parents. reflexivity.
  - intros X. unfold Examples.depth.
    destruct (String.eqb X "leaf"); [lia|]. destruct (String.eqb X "mid"); lia.
  - lia.
  - apply (resolvedb_parents Examples.chain). reflexivity.
  - apply reversedb_sound. reflexivity.
Defined.
